(** * ls2yolo: Label Studio video annotations to YOLO labels

    A shallow embedding of [ls2yolo.py] and the properties of its
    interpolation, availability, aggregation and numbering logic.

    Python integers are [Z]; Python [dict]s are association lists in
    insertion order; Python exceptions are the [Raise] case of [result];
    [decimal.Decimal] values are coefficient/exponent pairs with the default
    context (28 significant digits, round-half-even). *)

From Stdlib Require Import ZArith QArith Qpower Qfield Lqa Ascii String.
From stdpp Require Import base option list list_numbers sorting strings pretty gmap.

Local Open Scope Z_scope.

(** ** Python runtime: exceptions *)

Inductive exn : Type :=
  | IndexError
  | KeyError
  | ValueError
  | TypeError.

Inductive result (A : Type) : Type :=
  | Ok (a : A)
  | Raise (e : exn).
Arguments Ok {A} a.
Arguments Raise {A} e.

Definition bind {A B : Type} (r : result A) (k : A → result B) : result B :=
  match r with
  | Ok a => k a
  | Raise e => Raise e
  end.

Notation "x ←! r ; k" := (bind r (λ x, k))
  (at level 100, r at next level, right associativity, only parsing).

(** A [for] loop whose body can raise: the first exception ends the loop. *)
Fixpoint for_each {A S : Type} (body : S → A → result S) (s : S) (l : list A)
  : result S :=
  match l with
  | [] => Ok s
  | a :: l' => s' ←! body s a; for_each body s' l'
  end.

(** ** Python runtime: lists *)

(** [l[i]]: negative indices count from the end; out of range raises. *)
Definition py_getitem {A : Type} (l : list A) (i : Z) : result A :=
  let n := Z.of_nat (length l) in
  let j := if i <? 0 then i + n else i in
  if (j <? 0) || (n <=? j) then Raise IndexError
  else match l !! Z.to_nat j with
       | Some a => Ok a
       | None => Raise IndexError
       end.

(** [l[i] = v] *)
Definition py_setitem {A : Type} (l : list A) (i : Z) (v : A) : result (list A) :=
  let n := Z.of_nat (length l) in
  let j := if i <? 0 then i + n else i in
  if (j <? 0) || (n <=? j) then Raise IndexError
  else Ok (<[Z.to_nat j := v]> l).

(** [range(a, b)] *)
Definition py_range (a b : Z) : list Z := seqZ a (b - a).

(** ** Python runtime: dictionaries (insertion ordered) *)

Definition dict (K V : Type) : Type := list (K * V).

Section Dict.
Context {K V : Type} `{EqDecision K}.

(** [d.get(k)]; [None] also stands for [k not in d]. *)
Fixpoint dict_get (k : K) (d : dict K V) : option V :=
  match d with
  | [] => None
  | (k', v) :: d' => if decide (k = k') then Some v else dict_get k d'
  end.

(** [d[k] = v]: an existing key keeps its position, a new one goes last. *)
Fixpoint dict_set (k : K) (v : V) (d : dict K V) : dict K V :=
  match d with
  | [] => [(k, v)]
  | (k', v') :: d' =>
      if decide (k = k') then (k', v) :: d' else (k', v') :: dict_set k v d'
  end.

(** [d.keys()] *)
Definition dict_keys (d : dict K V) : list K := d.*1.
End Dict.

(** ** Python runtime: integers as text *)

(** [str(n)] for an [int]. *)
Definition str_int (n : Z) : string := pretty n.

Fixpoint zeros (n : nat) : string :=
  match n with
  | O => EmptyString
  | S n' => String "0" (zeros n')
  end.

(** [f'{n:0{width}d}']: sign first, then zeros up to [width] characters. *)
Definition format_0d (width : nat) (n : Z) : string :=
  let sign := if n <? 0 then "-"%string else ""%string in
  let digits := str_int (Z.abs n) in
  let used := (String.length sign + String.length digits)%nat in
  sign +:+ zeros (width - used) +:+ digits.

(** ["%+d" % n] *)
Definition format_plus_d (n : Z) : string :=
  if n <? 0 then str_int n else "+" +:+ str_int n.

(** ** [decimal.Decimal] under the default context

    A finite [Decimal] is a signed coefficient and an exponent; its value is
    [coef * 10 ^ dexp]. The operations follow the algorithms of Python's
    [decimal] module ([__add__], [__mul__], [__truediv__], [_fix],
    [__str__]) for precision 28 and [ROUND_HALF_EVEN]. The sign of a zero
    and the exponent limits [Emin]/[Emax] (±999999) are not represented. *)

Record Decimal : Type := mkDecimal { coef : Z; dexp : Z }.

Global Instance Decimal_eq_dec : EqDecision Decimal.
Proof. solve_decision. Defined.

Definition prec : Z := 28.

(** The rational number a [Decimal] stands for. *)
Definition dec_Q (d : Decimal) : Q :=
  (inject_Z (coef d) * Qpower (inject_Z 10) (dexp d))%Q.

(** [Decimal(n)] for an [int] [n] *)
Definition Decimal_of_int (n : Z) : Decimal := mkDecimal n 0.

(** [len(str(n))] for [n >= 0]: the number of decimal digits, 1 for 0. *)
Fixpoint ndigits_go (fuel : nat) (n : Z) : Z :=
  match fuel with
  | O => 1
  | S fuel' => if n <? 10 then 1 else 1 + ndigits_go fuel' (n / 10)
  end.

Definition ndigits (n : Z) : Z := ndigits_go (S (Z.to_nat (Z.log2 n))) n.

(** [Decimal._fix]: round a result to [prec] significant digits. *)
Definition dfix (d : Decimal) : Decimal :=
  let c := Z.abs (coef d) in
  let len := ndigits c in
  if (c =? 0) || (len <=? prec) then d
  else
    let k := len - prec in
    let q := c / 10 ^ k in
    let r := c mod 10 ^ k in
    let up := (10 ^ k <? 2 * r) || ((2 * r =? 10 ^ k) && Z.odd q) in
    let q' := if up then q + 1 else q in
    if ndigits q' >? prec
    then mkDecimal (Z.sgn (coef d) * (q' / 10)) (dexp d + k + 1)
    else mkDecimal (Z.sgn (coef d) * q') (dexp d + k).

(** [Decimal.__mul__] *)
Definition dmul (a b : Decimal) : Decimal :=
  dfix (mkDecimal (coef a * coef b) (dexp a + dexp b)).

(** [_normalize]: bring two nonzero operands to a common exponent; an operand
    far below the other's last kept digit is replaced by a unit there. *)
Definition dnormalize (a b : Decimal) : Z * Z * Z :=
  let '(tmp, other, swapped) :=
    if dexp a <? dexp b then (b, a, true) else (a, b, false) in
  let tmp_len := ndigits (Z.abs (coef tmp)) in
  let other_len := ndigits (Z.abs (coef other)) in
  let e := dexp tmp + Z.min (-1) (tmp_len - prec - 2) in
  let other' :=
    if other_len + dexp other - 1 <? e
    then mkDecimal (Z.sgn (coef other)) e
    else other in
  let tmp_c := coef tmp * 10 ^ (dexp tmp - dexp other') in
  if swapped then (coef other', tmp_c, dexp other')
  else (tmp_c, coef other', dexp other').

(** [Decimal.__add__] *)
Definition dadd (a b : Decimal) : Decimal :=
  let e := Z.min (dexp a) (dexp b) in
  if (coef a =? 0) && (coef b =? 0) then dfix (mkDecimal 0 e)
  else if coef a =? 0 then
    let e' := Z.max e (dexp b - prec - 1) in
    dfix (mkDecimal (coef b * 10 ^ (dexp b - e')) e')
  else if coef b =? 0 then
    let e' := Z.max e (dexp a - prec - 1) in
    dfix (mkDecimal (coef a * 10 ^ (dexp a - e')) e')
  else
    let '(c1, c2, e') := dnormalize a b in
    if c1 + c2 =? 0 then dfix (mkDecimal 0 e)
    else dfix (mkDecimal (c1 + c2) e').

(** [Decimal.copy_negate] *)
Definition dneg (a : Decimal) : Decimal := mkDecimal (- coef a) (dexp a).

(** [Decimal.__sub__] *)
Definition dsub (a b : Decimal) : Decimal := dadd a (dneg b).

(** The loop of [__truediv__] that moves an exact quotient towards the ideal
    exponent by dropping trailing zeros. *)
Fixpoint strip_zeros (fuel : nat) (c e ideal : Z) : Z * Z :=
  match fuel with
  | O => (c, e)
  | S fuel' =>
      if (e <? ideal) && (c mod 10 =? 0)
      then strip_zeros fuel' (c / 10) (e + 1) ideal
      else (c, e)
  end.

(** [Decimal.__truediv__]. A zero divisor raises [DivisionByZero] (or
    [InvalidOperation]) in Python; every division of this program has a
    nonzero divisor, and the dividend is returned there. *)
Definition ddiv (a b : Decimal) : Decimal :=
  let sign := Z.sgn (coef a) * Z.sgn (coef b) in
  if coef b =? 0 then a
  else if coef a =? 0 then dfix (mkDecimal 0 (dexp a - dexp b))
  else
    let ca := Z.abs (coef a) in
    let cb := Z.abs (coef b) in
    let shift := ndigits cb - ndigits ca + prec + 1 in
    let e := dexp a - dexp b - shift in
    let '(q, r) :=
      if 0 <=? shift then Z.div_eucl (ca * 10 ^ shift) cb
      else Z.div_eucl ca (cb * 10 ^ (- shift)) in
    if r =? 0 then
      let '(q', e') := strip_zeros (Z.to_nat shift) q e (dexp a - dexp b) in
      dfix (mkDecimal (sign * q') e')
    else
      let q' := if q mod 5 =? 0 then q + 1 else q in
      dfix (mkDecimal (sign * q') e).

(** [Decimal.__str__] *)
Definition dec_str (d : Decimal) : string :=
  let sign := if coef d <? 0 then "-"%string else ""%string in
  let int_ := str_int (Z.abs (coef d)) in
  let len := Z.of_nat (String.length int_) in
  let leftdigits := dexp d + len in
  let dotplace :=
    if (dexp d <=? 0) && (-6 <? leftdigits) then leftdigits else 1 in
  let intpart :=
    if dotplace <=? 0 then "0"%string
    else if len <=? dotplace then int_ +:+ zeros (Z.to_nat (dotplace - len))
    else String.substring 0 (Z.to_nat dotplace) int_ in
  let fracpart :=
    if dotplace <=? 0 then "." +:+ zeros (Z.to_nat (- dotplace)) +:+ int_
    else if len <=? dotplace then ""%string
    else "." +:+ String.substring (Z.to_nat dotplace)
                   (Z.to_nat (len - dotplace)) int_ in
  let exp_ :=
    if leftdigits =? dotplace then ""%string
    else "E" +:+ format_plus_d (leftdigits - dotplace) in
  sign +:+ intpart +:+ fracpart +:+ exp_.

(** ** The annotation bundle

    One entry of the JSON-MIN export: a video path and its subjects
    (['box']); a subject has ['labels'], an optional ['framesCount'] and a
    ['sequence'] of key frames. ['time'] only feeds [frame_times], which is
    never read, and is left out of these records: they describe key frames
    that have the key, with a number. [timed_keyframe] and [main_timed]
    further down add the key and its evaluation at line 104. *)

Record keyframe : Type := mkKeyframe {
  seq_frame : Z;
  seq_x : Decimal;
  seq_y : Decimal;
  seq_width : Decimal;
  seq_height : Decimal;
  seq_enabled : bool
}.

Record subject : Type := mkSubject {
  subject_labels : list string;
  framesCount : option Z;
  sequence : list keyframe
}.

Record video_label : Type := mkVideo {
  video : string;
  box : list subject
}.

(** One row of a label file: the class index, then the texts of
    x, y, width and height. *)
Definition info : Type := Z * list string.

(** The values of the keys [('x', 'y', 'width', 'height')], in that order. *)
Definition coords (s : keyframe) : list Decimal :=
  [seq_x s; seq_y s; seq_width s; seq_height s].

(** ** [linear_interpolation] *)

(** [Decimal(frame-a0)/Decimal(a1-a0)] *)
Definition fraction (a0 a1 frame : Z) : Decimal :=
  ddiv (Decimal_of_int (frame - a0)) (Decimal_of_int (a1 - a0)).

(** [b0 + t*(b1-b0)] *)
Definition lerp (t b0 b1 : Decimal) : Decimal := dadd b0 (dmul t (dsub b1 b0)).

Definition linear_interpolation (prev_seq seq : keyframe) (label : Z)
  : dict Z info :=
  let a0 := seq_frame prev_seq in
  let a1 := seq_frame seq in
  foldl (λ frames_info frame,
           let t := fraction a0 a1 frame in
           let info_ :=
             (label,
              (λ b, dec_str (lerp t b.1 b.2)) <$> zip (coords prev_seq) (coords seq)) in
           dict_set frame info_ frames_info)
        [] (py_range (a0 + 1) a1).

(** ** [main]: one video *)

(** The outside world: which paths are files, and whether a frame of a video
    can be read at a given position. *)
Record env : Type := mkEnv {
  isfile : string → bool;
  read_frame : string → Z → bool
}.

(** [{k:i for i,k in enumerate(labels)}] *)
Definition make_labels_dict (labels : list string) : dict string Z :=
  foldl (λ d ik, dict_set ik.2 ik.1 d) []
        (imap (λ i k, (Z.of_nat i, k)) labels).

(** Lines 42-47: the largest declared ['framesCount'], 0 when none. *)
Definition max_frames_of (box_ : list subject) : Z :=
  foldl (λ max_frames s,
           match framesCount s with
           | Some _frame_count =>
               if max_frames <? _frame_count then _frame_count else max_frames
           | None => max_frames
           end) 0 box_.

(** Lines 55-56: [availableFrames[i] = True] for [i] in [range(a, b)]. *)
Definition mark_range (availableFrames : list bool) (a b : Z) : result (list bool) :=
  for_each (λ av i, py_setitem av i true) availableFrames (py_range a b).

(** Lines 51-56, one subject: the first and last key frame, the label that
    is printed, and the marking of [range(start_frame, end_frame)]. *)
Definition mark_subject (availableFrames : list bool) (s : subject)
  : result (list bool) :=
  first ←! py_getitem (sequence s) 0;
  last_ ←! py_getitem (sequence s) (Z.of_nat (length (sequence s)) - 1);
  _ ←! py_getitem (subject_labels s) 0;
  mark_range availableFrames (seq_frame first) (seq_frame last_).

Definition available_frames (box_ : list subject) : result (list bool) :=
  for_each mark_subject (replicate (Z.to_nat (max_frames_of box_ + 1)) false) box_.

(** Lines 79-85: top-left percentages to centre fractions. *)
Definition normalize (seq : keyframe) : keyframe :=
  let x1 := dadd (seq_x seq) (ddiv (seq_width seq) (Decimal_of_int 2)) in
  let y1 := dadd (seq_y seq) (ddiv (seq_height seq) (Decimal_of_int 2)) in
  let hundred := Decimal_of_int 100 in
  {| seq_frame := seq_frame seq;
     seq_x := ddiv x1 hundred;
     seq_y := ddiv y1 hundred;
     seq_width := ddiv (seq_width seq) hundred;
     seq_height := ddiv (seq_height seq) hundred;
     seq_enabled := seq_enabled seq |}.

(** Lines 88-91: the lines synthesized before the key frame [seq]. *)
Definition interpolated (prev_seq : option keyframe) (seq : keyframe) (label : Z)
  : dict Z info :=
  match prev_seq with
  | Some p =>
      if seq_enabled p && (1 <? seq_frame seq - seq_frame p)
      then linear_interpolation p seq label
      else []
  | None => []
  end.

(** Line 94: the line of the key frame itself. *)
Definition keyframe_line (seq : keyframe) (label : Z) : info :=
  (label, dec_str <$> coords seq).

(** Lines 98-101 *)
Definition files_dict_add (files_dict : dict Z (list info)) (frame : Z) (i : info)
  : dict Z (list info) :=
  match dict_get frame files_dict with
  | Some rows => dict_set frame (rows ++ [i]) files_dict
  | None => dict_set frame [i] files_dict
  end.

(** Lines 88-94: all lines contributed by one key frame (already
    normalized). *)
Definition seq_lines (prev_seq : option keyframe) (seq : keyframe) (label : Z)
  : dict Z info :=
  dict_set (seq_frame seq) (keyframe_line seq label) (interpolated prev_seq seq label).

(** Lines 76-106: the body of the loop over a subject's sequence; the state
    is [files_dict] and [prev_seq]. *)
Definition process_seq (label : Z)
    (st : dict Z (list info) * option keyframe) (seq0 : keyframe)
  : dict Z (list info) * option keyframe :=
  let seq := normalize seq0 in
  let lines := seq_lines st.2 seq label in
  (foldl (λ fd fi, files_dict_add fd fi.1 fi.2) st.1 lines, Some seq).

(** Lines 65-71 *)
Definition subject_label (labels_dict : dict string Z) (s : subject) : result Z :=
  match subject_labels s with
  | [l] => match dict_get l labels_dict with
           | Some i => Ok i
           | None => Raise KeyError
           end
  | _ => Raise ValueError
  end.

(** Lines 63-106, one subject. *)
Definition process_subject (labels_dict : dict string Z)
    (files_dict : dict Z (list info)) (s : subject)
  : result (dict Z (list info)) :=
  label ←! subject_label labels_dict s;
  Ok (foldl (process_seq label) (files_dict, None) (sequence s)).1.

Definition aggregate (labels_dict : dict string Z) (box_ : list subject)
  : result (dict Z (list info)) :=
  for_each (process_subject labels_dict) [] box_.

(** [sorted(files_dict.items())]: the keys of a dictionary are distinct, so
    the pairs are ordered by key. *)
Definition key_le (a b : Z * list info) : Prop := a.1 ≤ b.1.

Global Instance key_le_dec : RelDecision key_le.
Proof. intros a b. unfold key_le. apply _. Defined.

Definition sorted_items (files_dict : dict Z (list info)) : dict Z (list info) :=
  merge_sort key_le files_dict.

(** [max(keys)]; [ValueError] on an empty sequence. *)
Definition py_max (keys : list Z) : result Z :=
  match keys with
  | [] => Raise ValueError
  | k :: keys' => Ok (foldl Z.max k keys')
  end.

(** [f'frame_{n:0{padding}d}'] followed by the extension. *)
Definition frame_name (padding : nat) (n : Z) (ext : string) : string :=
  "frame_" +:+ format_0d padding n +:+ ext.

(** Lines 122-126: the label files written, in order, and how the loop
    ended. *)
Fixpoint write_labels (availableFrames : list bool) (offset : Z) (padding : nat)
    (items : dict Z (list info)) : list (string * list info) * result unit :=
  match items with
  | [] => ([], Ok ())
  | (frame, lines) :: rest =>
      match py_getitem availableFrames frame with
      | Raise e => ([], Raise e)
      | Ok true =>
          let '(out, r) := write_labels availableFrames offset padding rest in
          ((frame_name padding (offset + frame) ".txt", lines) :: out, r)
      | Ok false => write_labels availableFrames offset padding rest
      end
  end.

(** Lines 132-140: the image files written; a failed read ends the loop. *)
Fixpoint extract_frames (E : env) (video_path : string)
    (availableFrames : list bool) (offset : Z) (padding : nat)
    (items : dict Z (list info)) : list string * result unit :=
  match items with
  | [] => ([], Ok ())
  | (frame, _) :: rest =>
      match py_getitem availableFrames frame with
      | Raise e => ([], Raise e)
      | Ok true =>
          if read_frame E video_path (frame - 1) then
            let '(out, r) :=
              extract_frames E video_path availableFrames offset padding rest in
            (frame_name padding (offset + frame) ".jpg" :: out, r)
          else ([], Ok ())
      | Ok false =>
          extract_frames E video_path availableFrames offset padding rest
      end
  end.

(** What one call of [main] leaves behind: the files written under
    [labels/] and [images/], and the value returned or the exception. *)
Record outcome : Type := mkOutcome {
  labels_out : list (string * list info);
  images_out : list string;
  returned : result Z
}.

(** Lines 108-119: sort the aggregated lines and take the largest frame
    number, given the mask and the aggregated lines (or the exception that
    ended either loop; the mask is built first). *)
Definition prepare_with (availableFrames_ : result (list bool))
    (files_dict_ : result (dict Z (list info)))
  : result (list bool * dict Z (list info) * Z) :=
  availableFrames ←! availableFrames_;
  files_dict ←! files_dict_;
  let files_dict := sorted_items files_dict in
  max_frame ←! py_max (dict_keys files_dict);
  Ok (availableFrames, files_dict, max_frame).

(** Lines 38-119: everything computed before the first file is written. *)
Definition prepare (video_label_ : video_label) (labels : list string)
  : result (list bool * dict Z (list info) * Z) :=
  let labels_dict := make_labels_dict labels in
  prepare_with (available_frames (box video_label_))
               (aggregate labels_dict (box video_label_)).

(** Lines 119-144: the two export loops and the value returned. *)
Definition export (E : env) (video_path : string) (offset : Z)
    (prepared : result (list bool * dict Z (list info) * Z)) : outcome :=
  match prepared with
  | Raise e => mkOutcome [] [] (Raise e)
  | Ok (availableFrames, files_dict, max_frame) =>
      let padding := String.length (str_int max_frame) in
      let '(written, r) := write_labels availableFrames offset padding files_dict in
      match r with
      | Raise e => mkOutcome written [] (Raise e)
      | Ok _ =>
          let '(images, r') :=
            if isfile E video_path
            then extract_frames E video_path availableFrames offset padding files_dict
            else ([], Ok ()) in
          match r' with
          | Raise e => mkOutcome written images (Raise e)
          | Ok _ =>
              mkOutcome written images
                        (Ok (offset + Z.of_nat (length files_dict)))
          end
      end
  end.

Definition main (E : env) (video_label_ : video_label) (offset : Z)
    (labels : list string) : outcome :=
  export E (video video_label_) offset (prepare video_label_ labels).

(** ** The driver ([__main__]) *)

(** [sorted] on [str] values uses [String.le]; on UTF-8 text the byte order
    is the code point order Python compares by. *)

(** Line 178: the labels of the subject are unpacked into [labels.add], which
    takes exactly one argument. *)
Definition add_labels (labels : gset string) (s : subject) : result (gset string) :=
  match subject_labels s with
  | [l] => Ok ({[l]} ∪ labels)
  | _ => Raise TypeError
  end.

(** Lines 175-179 *)
Definition extract_labels (video_labels : list video_label) : result (list string) :=
  labels ←! for_each (λ labels v, for_each add_labels labels (box v)) ∅ video_labels;
  Ok (merge_sort String.le (elements labels)).

(** Lines 183-186: the calls of [main] made, each with the offset it was
    given, and the final [frame_count]. *)
Fixpoint run_videos (E : env) (labels : list string) (frame_count : Z)
    (video_labels : list video_label) : list (Z * outcome) * result Z :=
  match video_labels with
  | [] => ([], Ok frame_count)
  | v :: rest =>
      let o := main E v frame_count labels in
      match returned o with
      | Raise e => ([(frame_count, o)], Raise e)
      | Ok n =>
          let '(calls, r) := run_videos E labels (frame_count + n) rest in
          ((frame_count, o) :: calls, r)
      end
  end.

Record run_outcome : Type := mkRun {
  calls : list (Z * outcome);
  classes_txt : option (list string);
  finished : result Z
}.

(** Lines 174-190, for a bundle with at least one video. [classes.txt] is
    opened in the output directory, which only [main] creates (line 116):
    with no video at all, whether line 189 succeeds depends on the directory
    being there already, which [env] does not tell. *)
Definition run (E : env) (video_labels : list video_label) : run_outcome :=
  match extract_labels video_labels with
  | Raise e => mkRun [] None (Raise e)
  | Ok labels =>
      let '(calls_, r) := run_videos E labels 0 video_labels in
      match r with
      | Raise e => mkRun calls_ None (Raise e)
      | Ok n => mkRun calls_ (Some labels) (Ok n)
      end
  end.

(** The row synthesized for one intermediate frame. *)
Definition interpolated_info (prev_seq seq : keyframe) (label : Z) (frame : Z) : info :=
  let t := fraction (seq_frame prev_seq) (seq_frame seq) frame in
  (label,
   [dec_str (lerp t (seq_x prev_seq) (seq_x seq));
    dec_str (lerp t (seq_y prev_seq) (seq_y seq));
    dec_str (lerp t (seq_width prev_seq) (seq_width seq));
    dec_str (lerp t (seq_height prev_seq) (seq_height seq))]).


(** The key frame [seq] with its ['enabled'] flag set to [b]. *)
Definition with_enabled (b : bool) (seq : keyframe) : keyframe :=
  {| seq_frame := seq_frame seq; seq_x := seq_x seq; seq_y := seq_y seq;
     seq_width := seq_width seq; seq_height := seq_height seq;
     seq_enabled := b |}.


(** ** Vocabulary of the statements *)

(** Frame [i] lies in the half-open range from the first to the last key
    frame of the track. *)
Definition in_track_range (s : subject) (i : Z) : Prop :=
  ∃ first last_, head (sequence s) = Some first ∧ last (sequence s) = Some last_
                 ∧ seq_frame first ≤ i < seq_frame last_.

Definition in_some_range (box_ : list subject) (i : Z) : Prop :=
  ∃ s, s ∈ box_ ∧ in_track_range s i.

(** Every key frame number is non-negative, as the frames of a video are. *)
Definition frames_nonneg (box_ : list subject) : Prop :=
  ∀ s k, s ∈ box_ → k ∈ sequence s → 0 ≤ seq_frame k.

(** The number a string of decimal digits stands for. *)
Definition digit_value (c : ascii) : N := (N_of_ascii c - 48)%N.

Fixpoint digits_value (s : string) : N :=
  match s with
  | EmptyString => 0
  | String c s' => digit_value c * 10 ^ N.of_nat (String.length s') + digits_value s'
  end%N.

(** [availableFrames[frame]] evaluates, and to [True]. *)
Definition is_available (availableFrames : list bool) (frame : Z) : bool :=
  match py_getitem availableFrames frame with
  | Ok true => true
  | _ => false
  end.

(** All subjects of a bundle, in input order. *)
Definition all_subjects (video_labels : list video_label) : list subject :=
  video_labels ≫= box.

Definition single_label (s : subject) : bool :=
  match subject_labels s with
  | [_] => true
  | _ => false
  end.

(** ** [main] over a store

    The key frames are Python dictionaries that [main] assigns to; here they
    live in a store, a bundle refers to them by location, and two places of a
    bundle may refer to the same key frame. The lists and the subject
    dictionaries are only read by [main] and stay values.
    [copy.deepcopy] gives every key frame it reaches a new location, once
    (its memo keeps shared key frames shared in the copy). *)

Abbreviation loc := positive.
Abbreviation heap := (gmap positive keyframe).

Record subject_ref : Type := mkSubjectRef {
  ref_labels : list string;
  ref_framesCount : option Z;
  ref_sequence : list loc
}.

Record video_ref : Type := mkVideoRef {
  ref_video : string;
  ref_box : list subject_ref
}.

(** The bundle a store holds at the given references. *)
Definition load_subject (h : heap) (s : subject_ref) : subject :=
  mkSubject (ref_labels s) (ref_framesCount s) (omap (h !!.) (ref_sequence s)).

Definition load_video (h : heap) (v : video_ref) : video_label :=
  mkVideo (ref_video v) (load_subject h <$> ref_box v).

(** [copy.deepcopy] of one key frame; a reference always points to a key
    frame, and one that does not is left as it is. *)
Definition copy_keyframe (st : heap * gmap loc loc) (l : loc)
  : heap * gmap loc loc * loc :=
  match st.2 !! l with
  | Some l' => (st, l')
  | None =>
      match st.1 !! l with
      | Some k =>
          let l' := fresh (dom st.1) in
          ((<[l' := k]> st.1, <[l := l']> st.2), l')
      | None => (st, l)
      end
  end.

Fixpoint copy_sequence (st : heap * gmap loc loc) (ls : list loc)
  : heap * gmap loc loc * list loc :=
  match ls with
  | [] => (st, [])
  | l :: ls' =>
      let '(st1, l') := copy_keyframe st l in
      let '(st2, ls'') := copy_sequence st1 ls' in
      (st2, l' :: ls'')
  end.

Fixpoint copy_box (st : heap * gmap loc loc) (box_ : list subject_ref)
  : heap * gmap loc loc * list subject_ref :=
  match box_ with
  | [] => (st, [])
  | s :: box' =>
      let '(st1, ls) := copy_sequence st (ref_sequence s) in
      let '(st2, box'') := copy_box st1 box' in
      (st2, mkSubjectRef (ref_labels s) (ref_framesCount s) ls :: box'')
  end.

(** [copy.deepcopy(video_label['box'])] *)
Definition deepcopy (h : heap) (box_ : list subject_ref) : heap * list subject_ref :=
  let '(st, box') := copy_box (h, ∅) box_ in (st.1, box').

(** Lines 76-106 over the store: the key frame at [l] is normalized in
    place; [prev_seq] is a reference and is read after that assignment. *)
Definition process_seq_heap (label : Z)
    (st : heap * dict Z (list info) * option loc) (l : loc)
  : heap * dict Z (list info) * option loc :=
  let '(h, files_dict, prev) := st in
  match h !! l with
  | Some seq0 =>
      let seq := normalize seq0 in
      let h' := <[l := seq]> h in
      let prev_seq := prev ≫= (h' !!.) in
      let lines := seq_lines prev_seq seq label in
      (h', foldl (λ fd fi, files_dict_add fd fi.1 fi.2) files_dict lines, Some l)
  | None => st
  end.

(** Lines 63-106 over the store, on the copied box. *)
Fixpoint aggregate_heap (labels_dict : dict string Z) (h : heap)
    (files_dict : dict Z (list info)) (box_ : list subject_ref)
  : heap * result (dict Z (list info)) :=
  match box_ with
  | [] => (h, Ok files_dict)
  | s :: box' =>
      match subject_label labels_dict (load_subject h s) with
      | Raise e => (h, Raise e)
      | Ok label =>
          let st := foldl (process_seq_heap label) (h, files_dict, None)
                          (ref_sequence s) in
          aggregate_heap labels_dict st.1.1 st.1.2 box'
      end
  end.

(** [main] over the store: the store it leaves, and its outcome. *)
Definition main_heap (E : env) (h : heap) (v : video_ref) (offset : Z)
    (labels : list string) : heap * outcome :=
  let labels_dict := make_labels_dict labels in
  match available_frames (box (load_video h v)) with
  | Raise e => (h, export E (ref_video v) offset (Raise e))
  | Ok availableFrames =>
      let '(h1, box_copy) := deepcopy h (ref_box v) in
      let '(h2, files_dict) := aggregate_heap labels_dict h1 [] box_copy in
      (h2, export E (ref_video v) offset
             (prepare_with (Ok availableFrames) files_dict))
  end.

(** The locations a box refers to. *)
Definition box_locs (box_ : list subject_ref) : list loc :=
  box_ ≫= ref_sequence.

(** While a copy is made, the store only grows and the memo only points
    outside the store the copy started from. *)
Definition copy_inv (h0 : heap) (st : heap * gmap loc loc) : Prop :=
  h0 ⊆ st.1 ∧ ∀ l l', st.2 !! l = Some l' → l' ∉ dom h0.

(** What the loops keep true of [files_dict] and [prev_seq]. *)
Definition files_dict_ok (st : dict Z (list info) * option keyframe) : Prop :=
  NoDup (dict_keys st.1)
  ∧ (∀ k, k ∈ dict_keys st.1 → 0 ≤ k)
  ∧ (∀ p, st.2 = Some p → 0 ≤ seq_frame p).

(** A [Decimal] of absolute value at most 1 with at most [p] decimal places,
    as a normalized coordinate is. *)
Definition fits (p : Z) (d : Decimal) : Prop :=
  - p ≤ dexp d ≤ 0 ∧ Z.abs (coef d) ≤ 10 ^ (- dexp d).

(** ** Vocabulary of the further statements *)

(** Frame [f] gets a line when the key frame [k] is processed after the key
    frame [prev] (if any): it is the frame of [k] itself, or lies strictly
    between the two when [prev] is enabled and more than one frame back. *)
Definition contributes (prev : option keyframe) (k : keyframe) (f : Z) : Prop :=
  f = seq_frame k
  ∨ ∃ p, prev = Some p ∧ seq_enabled p = true
         ∧ 1 < seq_frame k - seq_frame p
         ∧ seq_frame p < f < seq_frame k.

(** The key frame before position [i] of a sequence that starts after
    [p0]. *)
Definition prev_of (p0 : option keyframe) (seqs : list keyframe) (i : nat)
  : option keyframe :=
  match i with
  | O => p0
  | S i' => seqs !! i'
  end.

(** Frame [f] gets a line from the track [s]. *)
Definition track_covers (s : subject) (f : Z) : Prop :=
  ∃ i k, sequence s !! i = Some k ∧ contributes (prev_of None (sequence s) i) k f.

(** A video [main] can process: it has a subject, every subject has one
    label of the class list and a key frame, and every key frame number lies
    between 0 and the largest declared frame count. *)
Definition well_formed (labels : list string) (v : video_label) : Prop :=
  box v ≠ []
  ∧ ∀ s, s ∈ box v →
         (∃ l, subject_labels s = [l] ∧ l ∈ labels)
         ∧ sequence s ≠ []
         ∧ ∀ k, k ∈ sequence s → 0 ≤ seq_frame k ≤ max_frames_of (box v).

(** Every frame of [files_dict] has at least one row, and every row
    satisfies [P]. *)
Definition rows_ok (P : info → Prop) (files_dict : dict Z (list info)) : Prop :=
  ∀ f rows, (f, rows) ∈ files_dict → rows ≠ [] ∧ ∀ row, row ∈ rows → P row.

(** A row of the subject [s]: its class index is that of the label of [s],
    and it has four coordinates. *)
Definition row_of (labels_dict : dict string Z) (box_ : list subject) (row : info)
  : Prop :=
  length row.2 = 4%nat
  ∧ ∃ s l, s ∈ box_ ∧ subject_labels s = [l] ∧ dict_get l labels_dict = Some row.1.

(** The frames of the sorted map whose mask entry is set, in the order of
    the map. *)
Definition exported_frames (avail : list bool) (files_dict : dict Z (list info))
  : list Z :=
  filter (λ f, is_available avail f = true) (dict_keys files_dict).

(** The frames with lines of every video are numbered from 0 without going
    past their count, as for tracks that together cover every frame from 0
    on. *)
Definition frames_contiguous (labels : list string) (video_labels : list video_label)
  : Prop :=
  ∀ v avail files_dict max_frame,
    v ∈ video_labels → prepare v labels = Ok (avail, files_dict, max_frame) →
    ∀ f, f ∈ dict_keys files_dict → 0 ≤ f < Z.of_nat (length files_dict).

(** A percentage between 0 and 100 with at most [p] decimal places, as the
    corner and the size of a box are exported. *)
Definition percent (p : Z) (d : Decimal) : Prop :=
  - p ≤ dexp d ≤ 0 ∧ 0 ≤ coef d ≤ 100 * 10 ^ (- dexp d).

(** A key frame as exported: corner and size are percentages with at most
    [p] decimal places, and the box lies inside the image. *)
Definition exported_box (p : Z) (k : keyframe) : Prop :=
  percent p (seq_x k) ∧ percent p (seq_y k)
  ∧ percent p (seq_width k) ∧ percent p (seq_height k)
  ∧ (dec_Q (seq_x k) + dec_Q (seq_width k) <= 100)%Q
  ∧ (dec_Q (seq_y k) + dec_Q (seq_height k) <= 100)%Q.

(** The centre and the size of the box of an exported key frame, as
    fractions of the image: what lines 80-85 compute when nothing is
    rounded. *)
Definition yolo_box (k : keyframe) : list Q :=
  [ (dec_Q (seq_x k) + dec_Q (seq_width k) / 2) / 100;
    (dec_Q (seq_y k) + dec_Q (seq_height k) / 2) / 100;
    dec_Q (seq_width k) / 100;
    dec_Q (seq_height k) / 100 ]%Q.

(** The point at [q] of the way from [v0] to [v1]. *)
Definition on_line (q v0 v1 : Q) : Q := (v0 + q * (v1 - v0))%Q.

(** ** The driver: the video paths (lines 165-172)

    An entry of the export may lack the ['video'] key. The path functions
    are those of a POSIX system. *)

Record entry : Type := mkEntry {
  entry_video : option string;
  entry_box : list subject
}.

Definition is_slash (c : ascii) : bool := Ascii.eqb c "/".

(** [s.rfind("/")]: the index of the last ["/"], -1 when there is none. *)
Fixpoint rfind_slash (s : string) : Z :=
  match s with
  | EmptyString => -1
  | String c s' =>
      let r := rfind_slash s' in
      if r =? -1 then (if is_slash c then 0 else -1) else r + 1
  end.

Fixpoint string_drop (n : nat) (s : string) : string :=
  match n, s with
  | O, _ => s
  | S n', String _ s' => string_drop n' s'
  | S _, EmptyString => EmptyString
  end.

(** [s[i:]] *)
Definition py_slice_from (s : string) (i : Z) : string :=
  let n := Z.of_nat (String.length s) in
  let j := if i <? 0 then Z.max 0 (i + n) else i in
  string_drop (Z.to_nat j) s.

Definition starts_with_slash (s : string) : bool :=
  match s with
  | String c _ => is_slash c
  | EmptyString => false
  end.

Fixpoint ends_with_slash (s : string) : bool :=
  match s with
  | EmptyString => false
  | String c EmptyString => is_slash c
  | String _ s' => ends_with_slash s'
  end.

(** [os.path.join(a, b)]; [a] is [None] when [--video_path] is not given,
    and [os.fspath(None)] raises [TypeError]. *)
Definition os_path_join (a : option string) (b : string) : result string :=
  match a with
  | None => Raise TypeError
  | Some a =>
      Ok (if starts_with_slash b then b
          else if String.eqb a "" || ends_with_slash a then a +:+ b
          else a +:+ "/" +:+ b)
  end.

(** [video_path[pos+1:]] for [pos = video_path.rfind("/")]. *)
Definition basename (video_path : string) : string :=
  py_slice_from video_path (rfind_slash video_path + 1).

(** Lines 166-172, one entry. [pos != None] always holds. *)
Definition replace_video (E : env) (args_video_path : option string) (e : entry)
  : result entry :=
  match entry_video e with
  | None => Ok e
  | Some video_path =>
      video_path' ←! os_path_join args_video_path (basename video_path);
      Ok (if isfile E video_path'
          then mkEntry (Some video_path') (entry_box e)
          else e)
  end.

(** Lines 165-172: the entries after the loop, or the exception. *)
Definition replace_videos (E : env) (args_video_path : option string)
    (entries : list entry) : result (list entry) :=
  for_each (λ done_ e, e' ←! replace_video E args_video_path e; Ok (done_ ++ [e']))
           [] entries.

Fixpoint has_slash (s : string) : bool :=
  match s with
  | EmptyString => false
  | String c s' => is_slash c || has_slash s'
  end.

(** How an entry may differ after the loop: not at all, or by a video path
    that is a file made of the directory given and the last component of
    the path exported. *)
Definition replaced (E : env) (dir : string) (e e' : entry) : Prop :=
  entry_box e' = entry_box e
  ∧ (e' = e
     ∨ ∃ video_path joined,
         entry_video e = Some video_path
         ∧ os_path_join (Some dir) (basename video_path) = Ok joined
         ∧ isfile E joined = true
         ∧ entry_video e' = Some joined).

(** The tracks of the data model: each has a first and a last key frame, a
    label (line 54 prints it) and a non-negative first frame number. *)
Definition tracks_ok (box_ : list subject) : Prop :=
  ∀ s, s ∈ box_ →
    ∃ first last_, head (sequence s) = Some first ∧ last (sequence s) = Some last_
                   ∧ subject_labels s ≠ [] ∧ 0 ≤ seq_frame first.

(** A track that spans at least one frame and whose last key frame lies
    beyond [n]: marking [range(first, last)] in a mask of [n] entries runs
    off its end. *)
Definition overruns (n : Z) (s : subject) : Prop :=
  ∃ first last_, head (sequence s) = Some first ∧ last (sequence s) = Some last_
                 ∧ seq_frame first < seq_frame last_ ∧ n < seq_frame last_.

(** ** Line 104: the ['time'] of a key frame

    [float(seq['time'])] is evaluated for every key frame once its lines are
    added; the value goes to [frame_times], which is never read. A key frame
    of the export has the key, with a JSON number, or lacks it, and then
    line 104 raises [KeyError]. The records below carry the key next to the
    key frame; [main_timed] is [main] with line 104. *)

Record timed_keyframe : Type := mkTimed {
  timed_seq : keyframe;
  seq_time : option Decimal
}.

Record timed_subject : Type := mkTimedSubject {
  timed_labels : list string;
  timed_framesCount : option Z;
  timed_sequence : list timed_keyframe
}.

Record timed_video : Type := mkTimedVideo {
  timed_path : string;
  timed_box : list timed_subject
}.

(** The bundle without the ['time'] keys. *)
Definition untimed_subject (s : timed_subject) : subject :=
  mkSubject (timed_labels s) (timed_framesCount s) (timed_seq <$> timed_sequence s).

Definition untimed (v : timed_video) : video_label :=
  mkVideo (timed_path v) (untimed_subject <$> timed_box v).

(** Lines 76-106 with line 104. *)
Definition process_seq_timed (label : Z)
    (st : dict Z (list info) * option keyframe) (seq0 : timed_keyframe)
  : result (dict Z (list info) * option keyframe) :=
  let st' := process_seq label st (timed_seq seq0) in
  match seq_time seq0 with
  | Some _ => Ok st'
  | None => Raise KeyError
  end.

(** Lines 63-106, one subject. *)
Definition process_subject_timed (labels_dict : dict string Z)
    (files_dict : dict Z (list info)) (s : timed_subject)
  : result (dict Z (list info)) :=
  label ←! subject_label labels_dict (untimed_subject s);
  st ←! for_each (process_seq_timed label) (files_dict, None) (timed_sequence s);
  Ok st.1.

Definition aggregate_timed (labels_dict : dict string Z) (box_ : list timed_subject)
  : result (dict Z (list info)) :=
  for_each (process_subject_timed labels_dict) [] box_.

Definition prepare_timed (video_label_ : timed_video) (labels : list string)
  : result (list bool * dict Z (list info) * Z) :=
  let labels_dict := make_labels_dict labels in
  prepare_with (available_frames (box (untimed video_label_)))
               (aggregate_timed labels_dict (timed_box video_label_)).

Definition main_timed (E : env) (video_label_ : timed_video) (offset : Z)
    (labels : list string) : outcome :=
  export E (timed_path video_label_) offset (prepare_timed video_label_ labels).

(** Every key frame of the video has a ['time'] and a box of exported
    percentages with at most [p] decimal places. *)
Definition timed_ok (p : Z) (v : timed_video) : Prop :=
  ∀ s k, s ∈ timed_box v → k ∈ timed_sequence s →
         is_Some (seq_time k) ∧ exported_box p (timed_seq k).
(** ** Examples *)

Definition kf (f : Z) (x y w h : Z) (en : bool) : keyframe :=
  mkKeyframe f (Decimal_of_int x) (Decimal_of_int y) (Decimal_of_int w)
             (Decimal_of_int h) en.

Definition demo_video : video_label :=
  mkVideo "a.mp4" [mkSubject ["ball"%string] (Some 5) [kf 1 10 20 30 40 true; kf 4 50 20 30 40 true]].

Definition demo_env : env := mkEnv (λ _, true) (λ _ _, true).


(** A track that is enabled at frame 0 and disabled at frame 3. *)
Definition gap_P : keyframe := kf 0 10 10 20 20 true.
Definition gap_C : keyframe := kf 3 40 10 20 20 false.

(** Normalized key frames with centre x 0.5 at frame 0 and 0.9 at frame
    [f]; y, width and height are 0.5, 0.2 and 0.2 at both. *)
Definition line_P : keyframe :=
  mkKeyframe 0 (mkDecimal 5 (-1)) (mkDecimal 5 (-1)) (mkDecimal 2 (-1))
             (mkDecimal 2 (-1)) true.
Definition line_C (f : Z) : keyframe :=
  mkKeyframe f (mkDecimal 9 (-1)) (mkDecimal 5 (-1)) (mkDecimal 2 (-1))
             (mkDecimal 2 (-1)) true.

(** The centre x synthesized at frame [f] between [line_P] and [line_C a1]. *)
Definition line_x (a1 f : Z) : Decimal :=
  lerp (fraction 0 a1 f) (seq_x line_P) (seq_x (line_C a1)).

(** One track from frame 0 to frame 3 that declares no ['framesCount']. *)
Definition uncounted_box : list subject :=
  [mkSubject ["ball"%string] None [kf 0 10 10 20 20 true; kf 3 40 10 20 20 true]].

(** One track from frame 0 to frame 8 in a video declared 5 frames long. *)
Definition short_count_box : list subject :=
  [mkSubject ["ball"%string] (Some 5) [kf 0 10 10 20 20 true; kf 8 40 10 20 20 true]].

(** A world in which the video file exists but none of its frames can be
    read. *)
Definition unreadable_env : env := mkEnv (λ _, true) (λ _ _, false).

(** A video whose second subject carries two labels. *)
Definition two_label_video : video_label :=
  mkVideo "b.mp4"
    [mkSubject ["ball"%string] (Some 5) [kf 1 10 20 30 40 true; kf 4 50 20 30 40 true];
     mkSubject ["refA"; "teamB"]%string (Some 5) [kf 2 10 20 30 40 true]].

(** A video with one enabled track of label "ball" from frame [a] to frame
    [b], declared [count] frames long. *)
Definition track_video (a b count : Z) : video_label :=
  mkVideo "c.mp4"
    [mkSubject ["ball"%string] (Some count)
       [kf a 10 20 30 40 true; kf b 50 20 30 40 true]].

(** A video with a single key frame at frame 0. *)
Definition still_video : video_label :=
  mkVideo "d.mp4" [mkSubject ["ball"%string] (Some 1) [kf 0 10 20 30 40 true]].

(** Three videos that export 10, 0 and 5 label files. *)
Definition three_videos : list video_label :=
  [track_video 0 10 10; still_video; track_video 0 5 5].

(** Two videos with frames 1 to 9 each. *)
Definition two_videos : list video_label :=
  [track_video 1 9 9; track_video 1 9 9].

(** The names of the label files of a run, in the order they are written. *)
Definition label_names (r : run_outcome) : list string :=
  (calls r) ≫= (λ c, (labels_out c.2).*1).

(** A store with the two key frames of [demo_video], and two bundles over
    it: one that refers to each key frame once, one whose track visits the
    first key frame twice. *)
Definition demo_heap : gmap positive keyframe :=
  {[ 1%positive := kf 1 10 20 30 40 true; 2%positive := kf 4 50 20 30 40 true ]}.

Definition demo_video_ref : video_ref :=
  mkVideoRef "a.mp4" [mkSubjectRef ["ball"%string] (Some 5) [1%positive; 2%positive]].

Definition shared_video_ref : video_ref :=
  mkVideoRef "a.mp4"
    [mkSubjectRef ["ball"%string] (Some 5) [1%positive; 1%positive; 2%positive]].

(** Two bundles with the subjects ball, teamB and refA in different order. *)
Definition labelled (l : string) : subject :=
  mkSubject [l] (Some 5) [kf 1 10 20 30 40 true; kf 4 50 20 30 40 true].

Definition bundle1 : list video_label :=
  [mkVideo "a.mp4" [labelled "teamB"; labelled "ball"];
   mkVideo "b.mp4" [labelled "refA"; labelled "ball"]].

Definition bundle2 : list video_label :=
  [mkVideo "b.mp4" [labelled "ball"; labelled "refA"];
   mkVideo "a.mp4" [labelled "ball"; labelled "teamB"]].

(** A video without subjects, one whose subject has no key frames, and a
    bundle whose second video has no subjects. *)
Definition empty_video : video_label := mkVideo "e.mp4" [].

Definition no_keyframes_video : video_label :=
  mkVideo "f.mp4" [mkSubject ["ball"%string] (Some 5) []].

Definition broken_bundle : list video_label := [track_video 0 10 10; empty_video].

(** Two exported key frames with one decimal place: the corner moves from
    12.5 to 52.5 percent, the size stays 30.5 by 40 percent. *)
Definition moving_P : keyframe :=
  mkKeyframe 0 (mkDecimal 125 (-1)) (mkDecimal 20 0) (mkDecimal 305 (-1))
             (mkDecimal 40 0) true.
Definition moving_C : keyframe :=
  mkKeyframe 4 (mkDecimal 525 (-1)) (mkDecimal 20 0) (mkDecimal 305 (-1))
             (mkDecimal 40 0) true.

(** The same box at frames 0 and 3. *)
Definition resting_P : keyframe := kf 0 10 20 30 40 true.
Definition resting_C : keyframe := kf 3 10 20 30 40 true.

(** An export with one entry that names its video and one that does not. *)
Definition demo_entries : list entry :=
  [mkEntry (Some "/data/upload/1/clip.mp4"%string) []; mkEntry None []].

(** [demo_video] with the ['time'] of its key frames, 0.04 and 0.16 s. *)
Definition timed_demo_video : timed_video :=
  mkTimedVideo "a.mp4"
    [mkTimedSubject ["ball"%string] (Some 5)
       [mkTimed (kf 1 10 20 30 40 true) (Some (mkDecimal 4 (-2)));
        mkTimed (kf 4 50 20 30 40 true) (Some (mkDecimal 16 (-2)))]].

(** The same video when the second key frame has no ['time']. *)
Definition untimed_demo_video : timed_video :=
  mkTimedVideo "a.mp4"
    [mkTimedSubject ["ball"%string] (Some 5)
       [mkTimed (kf 1 10 20 30 40 true) (Some (mkDecimal 4 (-2)));
        mkTimed (kf 4 50 20 30 40 true) None]].
(** ** Dictionaries: basic facts *)

Section DictFacts.
Context {K V : Type} `{EqDecision K}.
Implicit Types (d : dict K V) (k : K) (v : V).

Lemma dict_get_set_eq k v d : dict_get k (dict_set k v d) = Some v.
Proof.
  induction d as [|[k' v'] d IH]; simpl.
  - by rewrite decide_True.
  - destruct (decide (k = k')) as [->|Hne]; simpl.
    + by rewrite decide_True.
    + by rewrite decide_False.
Qed.

Lemma dict_get_set_ne k k' v d :
  k ≠ k' → dict_get k' (dict_set k v d) = dict_get k' d.
Proof.
  intros Hne. induction d as [|[k0 v0] d IH]; simpl.
  - by rewrite decide_False.
  - destruct (decide (k = k0)) as [->|Hne0]; simpl.
    + by rewrite !decide_False.
    + by rewrite IH.
Qed.

Lemma dict_get_Some_keys k v d : dict_get k d = Some v → k ∈ dict_keys d.
Proof.
  induction d as [|[k' v'] d IH]; simpl; [done|].
  destruct (decide (k = k')) as [->|Hne]; intros Hg.
  - apply list_elem_of_here.
  - apply list_elem_of_further, IH, Hg.
Qed.

Lemma dict_get_None_keys k d : dict_get k d = None ↔ k ∉ dict_keys d.
Proof.
  induction d as [|[k' v'] d IH]; simpl.
  - split; [intros _; apply not_elem_of_nil | done].
  - unfold dict_keys in *. cbn [fmap list_fmap fst]. rewrite not_elem_of_cons.
    destruct (decide (k = k')) as [->|Hne]; [split; [done|tauto]|].
    rewrite IH. tauto.
Qed.

Lemma dict_keys_is_Some k d : k ∈ dict_keys d ↔ is_Some (dict_get k d).
Proof.
  destruct (dict_get k d) as [v|] eqn:Hg.
  - split; [eauto | intros _; by eapply dict_get_Some_keys].
  - split; [|intros [? ?]; done].
    intros Hin. by apply dict_get_None_keys in Hg.
Qed.

Lemma dict_get_elem_of k v d : dict_get k d = Some v → (k, v) ∈ d.
Proof.
  induction d as [|[k' v'] d IH]; simpl; [done|].
  destruct (decide (k = k')) as [->|Hne]; intros Hg.
  - injection Hg as ->. apply list_elem_of_here.
  - apply list_elem_of_further, IH, Hg.
Qed.

Lemma dict_elem_of_get k v d : NoDup (dict_keys d) → (k, v) ∈ d → dict_get k d = Some v.
Proof.
  induction d as [|[k' v'] d IH]; simpl; intros Hnd Hin.
  - by apply elem_of_nil in Hin.
  - unfold dict_keys in Hnd. cbn [fmap list_fmap fst] in Hnd.
    apply NoDup_cons in Hnd as [Hk' Hnd].
    apply elem_of_cons in Hin as [Heq|Hin].
    + injection Heq as -> ->. by rewrite decide_True.
    + destruct (decide (k = k')) as [->|Hne]; [|by apply IH].
      exfalso. apply Hk'. simpl.
      apply list_elem_of_fmap. by exists (k', v).
Qed.

Lemma dict_set_fresh k v d : k ∉ dict_keys d → dict_set k v d = d ++ [(k, v)].
Proof.
  induction d as [|[k' v'] d IH]; simpl; [done|].
  unfold dict_keys. cbn [fmap list_fmap fst]. rewrite not_elem_of_cons.
  intros [Hne Hnin]. rewrite decide_False by done. by rewrite IH.
Qed.

Lemma dict_keys_set k v d :
  dict_keys (dict_set k v d) =
  if decide (k ∈ dict_keys d) then dict_keys d else dict_keys d ++ [k].
Proof.
  induction d as [|[k' v'] d IH].
  - case_decide as Hin; [by apply elem_of_nil in Hin|done].
  - unfold dict_keys in *. cbn [dict_set].
    destruct (decide (k = k')) as [->|Hne]; cbn [fmap list_fmap fst].
    + rewrite decide_True; [done|apply list_elem_of_here].
    + rewrite IH. destruct (decide (k ∈ d.*1)) as [Hin|Hnin].
      * rewrite decide_True; [done|by apply list_elem_of_further].
      * rewrite decide_False; [done|].
        rewrite not_elem_of_cons. done.
Qed.

Lemma elem_of_dict_keys_set k k' v d :
  k' ∈ dict_keys (dict_set k v d) ↔ k' = k ∨ k' ∈ dict_keys d.
Proof.
  rewrite dict_keys_set. case_decide as Hin.
  - split; [auto|intros [->|?]; done].
  - rewrite elem_of_app, list_elem_of_singleton. tauto.
Qed.

Lemma NoDup_dict_keys_set k v d :
  NoDup (dict_keys d) → NoDup (dict_keys (dict_set k v d)).
Proof.
  intros Hnd. rewrite dict_keys_set. case_decide as Hin; [done|].
  apply NoDup_app. split_and!; [done| |apply NoDup_singleton].
  intros x Hx Hx'. apply list_elem_of_singleton in Hx' as ->. done.
Qed.

(** A loop that stores one fresh key per iteration builds the dictionary
    of its iterations, in order. *)
Lemma foldl_dict_set_items {A} (key : A → K) (val : A → V) (l : list A) d :
  NoDup (key <$> l) → (∀ a, a ∈ l → key a ∉ dict_keys d) →
  foldl (λ acc a, dict_set (key a) (val a) acc) d l
  = d ++ ((λ a, (key a, val a)) <$> l).
Proof.
  revert d. induction l as [|a l IH]; intros d Hnd Hfresh; simpl.
  - by rewrite app_nil_r.
  - cbn [fmap list_fmap] in Hnd. apply NoDup_cons in Hnd as [Hk Hnd].
    rewrite dict_set_fresh by (apply Hfresh, list_elem_of_here).
    rewrite IH; [by rewrite <- app_assoc|done|].
    intros a' Ha'. unfold dict_keys. rewrite fmap_app, elem_of_app. simpl.
    rewrite list_elem_of_singleton. intros [Hin|Heq].
    + by apply (Hfresh a'); [apply list_elem_of_further|].
    + apply Hk. rewrite <- Heq. apply list_elem_of_fmap. by exists a'.
Qed.

Lemma foldl_dict_set_fresh (g : K → V) (l : list K) d :
  NoDup l → (∀ k, k ∈ l → k ∉ dict_keys d) →
  foldl (λ acc k, dict_set k (g k) acc) d l = d ++ ((λ k, (k, g k)) <$> l).
Proof.
  intros Hnd Hfresh. apply (foldl_dict_set_items id g); [|done].
  by rewrite list_fmap_id.
Qed.
End DictFacts.

(** ** Facts about [linear_interpolation] *)

Lemma linear_interpolation_closed prev_seq seq label :
  linear_interpolation prev_seq seq label =
  (λ frame, (frame, interpolated_info prev_seq seq label frame))
    <$> py_range (seq_frame prev_seq + 1) (seq_frame seq).
Proof.
  unfold linear_interpolation.
  rewrite (foldl_dict_set_fresh
             (λ frame, interpolated_info prev_seq seq label frame)).
  - done.
  - apply NoDup_seqZ.
  - intros k _. apply not_elem_of_nil.
Qed.

Lemma linear_interpolation_keys prev_seq seq label :
  dict_keys (linear_interpolation prev_seq seq label) =
  py_range (seq_frame prev_seq + 1) (seq_frame seq).
Proof.
  rewrite linear_interpolation_closed. unfold dict_keys.
  rewrite <- list_fmap_compose. apply list_fmap_id.
Qed.

Lemma elem_of_py_range a b i : i ∈ py_range a b ↔ a ≤ i < b.
Proof. unfold py_range. rewrite elem_of_seqZ. lia. Qed.

Lemma linear_interpolation_get prev_seq seq label frame :
  seq_frame prev_seq < frame < seq_frame seq →
  dict_get frame (linear_interpolation prev_seq seq label) =
  Some (interpolated_info prev_seq seq label frame).
Proof.
  intros Hf. apply dict_elem_of_get.
  - rewrite linear_interpolation_keys. apply NoDup_seqZ.
  - rewrite linear_interpolation_closed. apply list_elem_of_fmap.
    exists frame. split; [done|]. apply elem_of_py_range. lia.
Qed.

Lemma normalize_frame seq : seq_frame (normalize seq) = seq_frame seq.
Proof. done. Qed.

Lemma normalize_enabled seq : seq_enabled (normalize seq) = seq_enabled seq.
Proof. done. Qed.

(** The key frame a step of the sequence loop sees as [prev_seq]: none for
    the first one, otherwise the normalized key frame just before it. *)
Lemma process_seq_prev label st seqs :
  (foldl (process_seq label) st seqs).2 =
  match last seqs with
  | Some k => Some (normalize k)
  | None => st.2
  end.
Proof.
  revert st. induction seqs as [|k seqs IH]; intros st; [done|].
  simpl foldl. rewrite IH. destruct seqs as [|k' seqs]; [reflexivity|].
  rewrite last_cons_cons.
  destruct (last (k' :: seqs)) eqn:Hlast; [done|by apply last_None in Hlast].
Qed.

(** ** The trigger of the interpolation *)

Lemma interpolated_trigger p seq label :
  seq_enabled p = true → 1 < seq_frame seq - seq_frame p →
  interpolated (Some p) seq label = linear_interpolation p seq label.
Proof.
  intros Hen Hgap. unfold interpolated. rewrite Hen. simpl.
  destruct (Z.ltb_spec 1 (seq_frame seq - seq_frame p)); [done|lia].
Qed.

Lemma interpolated_nil prev_seq seq label :
  interpolated prev_seq seq label = [] ↔
  ¬ ∃ p, prev_seq = Some p ∧ seq_enabled p = true
         ∧ 1 < seq_frame seq - seq_frame p.
Proof.
  split.
  - intros Hnil (p & -> & Hen & Hgap).
    rewrite interpolated_trigger in Hnil by done.
    assert (Hk : seq_frame p + 1 ∈ dict_keys (linear_interpolation p seq label)).
    { rewrite linear_interpolation_keys. apply elem_of_py_range. lia. }
    rewrite Hnil in Hk. by apply elem_of_nil in Hk.
  - intros Hno. unfold interpolated. destruct prev_seq as [p|]; [|done].
    destruct (seq_enabled p) eqn:Hen; [|done]. simpl.
    destruct (Z.ltb_spec 1 (seq_frame seq - seq_frame p)); [|done].
    exfalso. apply Hno. by exists p.
Qed.

Lemma elem_of_interpolated_keys prev_seq seq label frame :
  frame ∈ dict_keys (interpolated prev_seq seq label) ↔
  ∃ p, prev_seq = Some p ∧ seq_enabled p = true
       ∧ 1 < seq_frame seq - seq_frame p
       ∧ seq_frame p < frame < seq_frame seq.
Proof.
  split.
  - intros Hin.
    destruct (decide (interpolated prev_seq seq label = [])) as [Hnil|Hne].
    { rewrite Hnil in Hin. by apply elem_of_nil in Hin. }
    unfold interpolated in Hin, Hne. destruct prev_seq as [p|]; [|done].
    destruct (seq_enabled p) eqn:Hen; [|done]. simpl in Hin, Hne.
    destruct (Z.ltb_spec 1 (seq_frame seq - seq_frame p)); [|done].
    rewrite linear_interpolation_keys in Hin.
    apply elem_of_py_range in Hin.
    exists p. split_and!; [done..|lia|lia].
  - intros (p & -> & Hen & Hgap & Hf).
    rewrite interpolated_trigger, linear_interpolation_keys by done.
    apply elem_of_py_range. lia.
Qed.

(** C3. Lines are synthesized before a key frame [seq] exactly when it has a
    predecessor [p] that is enabled and lies more than one frame back, and
    then for exactly the frames strictly between the two; a disabled or
    adjacent predecessor, or none (the first key frame of a track), gives no
    synthesized line. *)
Theorem interpolation_trigger_policy (prev_seq : option keyframe)
    (seq : keyframe) (label : Z) :
  (∀ frame,
      frame ∈ dict_keys (interpolated prev_seq seq label) ↔
      ∃ p, prev_seq = Some p ∧ seq_enabled p = true
           ∧ 1 < seq_frame seq - seq_frame p
           ∧ seq_frame p < frame < seq_frame seq)
  ∧ (interpolated prev_seq seq label ≠ [] ↔
     ∃ p, prev_seq = Some p ∧ seq_enabled p = true
          ∧ 1 < seq_frame seq - seq_frame p)
  ∧ (prev_seq = None → interpolated prev_seq seq label = [])
  ∧ (∀ p, prev_seq = Some p →
          seq_enabled p = false ∨ seq_frame seq - seq_frame p = 1 →
          interpolated prev_seq seq label = []).
Proof.
  split_and!.
  - intros frame. apply elem_of_interpolated_keys.
  - rewrite interpolated_nil. split.
    + intros Hnn. unfold interpolated in *.
      destruct prev_seq as [p|]; [|exfalso; apply Hnn; by intros (? & ? & _)].
      destruct (seq_enabled p) eqn:Hen;
        [|exfalso; apply Hnn; intros (? & [= <-] & ? & _); congruence].
      destruct (Z.ltb_spec 1 (seq_frame seq - seq_frame p)) as [Hlt|Hge].
      * by exists p.
      * exfalso. apply Hnn. intros (? & [= <-] & _ & ?). lia.
    + intros Hex Hno. by apply Hno.
  - by intros ->.
  - intros p -> Hor. apply interpolated_nil.
    intros (? & [= <-] & Hen & Hgap). destruct Hor as [Hdis|Hadj]; [congruence|lia].
Qed.

(** ** A key frame that is disabled *)

(** C4 as stated fails: between an enabled key frame at frame 0 and a
    disabled one at frame 3, the lines of frames 1 and 2 are synthesized and
    reach [files_dict]. *)
Lemma disabled_current_counterexample :
  seq_enabled gap_C = false
  ∧ dict_keys (interpolated (Some (normalize gap_P)) (normalize gap_C) 0) = [1; 2]
  ∧ dict_keys (foldl (process_seq 0) ([], None) [gap_P; gap_C]).1 = [0; 1; 2; 3].
Proof. by vm_compute. Qed.

(** C4, amended. The line of a key frame is always emitted as it is,
    whatever its ['enabled'] flag; that flag has no influence on the lines
    synthesized before it, which are there whenever the previous key frame
    is enabled and more than one frame back. *)
Theorem disabled_current_keyframe (prev_seq : option keyframe)
    (seq : keyframe) (label : Z) (b : bool) :
  dict_get (seq_frame seq) (seq_lines prev_seq seq label)
    = Some (keyframe_line seq label)
  ∧ interpolated prev_seq (with_enabled b seq) label
    = interpolated prev_seq seq label
  ∧ (∀ frame, frame ≠ seq_frame seq →
       dict_get frame (seq_lines prev_seq (with_enabled b seq) label)
       = dict_get frame (interpolated prev_seq seq label))
  ∧ (∀ p frame, prev_seq = Some p → seq_enabled p = true →
       seq_frame p < frame < seq_frame seq →
       dict_get frame (seq_lines prev_seq (with_enabled false seq) label)
       = Some (interpolated_info p seq label frame)).
Proof.
  assert (Hsame : interpolated prev_seq (with_enabled b seq) label
                  = interpolated prev_seq seq label) by done.
  split_and!.
  - unfold seq_lines. apply dict_get_set_eq.
  - done.
  - intros frame Hne. unfold seq_lines.
    rewrite dict_get_set_ne by (simpl; congruence). done.
  - intros p frame -> Hen Hf. unfold seq_lines.
    rewrite dict_get_set_ne by (simpl; lia).
    change (interpolated (Some p) (with_enabled false seq) label)
      with (interpolated (Some p) seq label).
    rewrite interpolated_trigger by (done || lia).
    by apply linear_interpolation_get.
Qed.

(** ** Python lists: indexing with a non-negative index *)

Lemma py_getitem_nonneg {A} (l : list A) (i : Z) :
  0 ≤ i →
  py_getitem l i = match l !! Z.to_nat i with
                   | Some a => Ok a
                   | None => Raise IndexError
                   end.
Proof.
  intros Hi. unfold py_getitem. cbv zeta.
  assert (Hneg : (i <? 0) = false) by lia. rewrite !Hneg. simpl.
  destruct (Z.leb_spec (Z.of_nat (length l)) i) as [Hge|Hlt]; simpl.
  - rewrite lookup_ge_None_2 by lia. done.
  - done.
Qed.

Lemma py_setitem_nonneg {A} (l : list A) (i : Z) (v : A) :
  0 ≤ i →
  py_setitem l i v = if decide (i < Z.of_nat (length l))
                     then Ok (<[Z.to_nat i := v]> l)
                     else Raise IndexError.
Proof.
  intros Hi. unfold py_setitem. cbv zeta.
  assert (Hneg : (i <? 0) = false) by lia. rewrite !Hneg. simpl.
  destruct (Z.leb_spec (Z.of_nat (length l)) i) as [Hge|Hlt]; simpl.
  - by rewrite decide_False by lia.
  - by rewrite decide_True by lia.
Qed.

Lemma py_getitem_head {A} (l : list A) : 
  py_getitem l 0 = match head l with Some a => Ok a | None => Raise IndexError end.
Proof. by destruct l. Qed.

Lemma py_getitem_last {A} (l : list A) (a : A) :
  last l = Some a → py_getitem l (Z.of_nat (length l) - 1) = Ok a.
Proof.
  intros Hlast. assert (length l ≠ 0%nat) by (by destruct l).
  rewrite py_getitem_nonneg by lia.
  rewrite last_lookup in Hlast.
  replace (Z.to_nat (Z.of_nat (length l) - 1)) with (pred (length l)) by lia.
  by rewrite Hlast.
Qed.

(** ** The availability mask *)

Lemma mark_range_empty av a b : b ≤ a → mark_range av a b = Ok av.
Proof. intros. unfold mark_range, py_range. by rewrite seqZ_nil by lia. Qed.

Lemma mark_range_step av a b :
  a < b → 0 ≤ a →
  mark_range av a b =
  if decide (a < Z.of_nat (length av))
  then mark_range (<[Z.to_nat a := true]> av) (a + 1) b
  else Raise IndexError.
Proof.
  intros Hab Ha. unfold mark_range, py_range.
  rewrite seqZ_cons by lia. simpl.
  rewrite py_setitem_nonneg by done. case_decide; [|done]. simpl.
  by replace (Z.pred (b - a)) with (b - (a + 1)) by lia.
Qed.

(** Marking from a non-negative start either runs off the end of the mask,
    or sets exactly the entries of the range. *)
Lemma mark_range_spec av a b :
  0 ≤ a →
  (a < b ∧ Z.of_nat (length av) < b ∧ mark_range av a b = Raise IndexError)
  ∨ ((a < b → b ≤ Z.of_nat (length av))
     ∧ ∃ av', mark_range av a b = Ok av'
              ∧ length av' = length av
              ∧ ∀ j, 0 ≤ j →
                     (av' !! Z.to_nat j = Some true ↔
                      a ≤ j < b ∨ av !! Z.to_nat j = Some true)).
Proof.
  intros Ha.
  destruct (decide (b ≤ a)) as [Hle|Hlt].
  { right. split; [lia|]. exists av. rewrite mark_range_empty by done.
    split_and!; [done..|]. intros j Hj. split; [auto|]. intros [?|?]; [lia|done]. }
  remember (Z.to_nat (b - a)) as n eqn:Hn.
  revert av a Ha Hlt Hn. induction n as [|n IH]; intros av a Ha Hlt Hn; [lia|].
  rewrite mark_range_step by lia.
  case_decide as Hin; [|left; split_and!; [lia|lia|done]].
  destruct (decide (b ≤ a + 1)) as [Hlast|Hmore].
  - right. split; [lia|]. exists (<[Z.to_nat a := true]> av).
    rewrite mark_range_empty by done. split_and!; [done|apply length_insert|].
    intros j Hj. destruct (decide (j = a)) as [->|Hne].
    + rewrite list_lookup_insert_eq by lia. split; [intros _; left; lia|done].
    + rewrite list_lookup_insert_ne by lia. split; [auto|]. intros [?|?]; [lia|done].
  - destruct (IH (<[Z.to_nat a := true]> av) (a + 1)) as [(? & ? & ->)|(Hb & av' & -> & Hlen & Hav')];
      [lia..| |].
    + left. rewrite length_insert in *. split_and!; [lia|lia|done].
    + right. rewrite length_insert in *. split; [lia|]. exists av'.
      split_and!; [done..|]. intros j Hj. rewrite Hav' by done.
      destruct (decide (j = a)) as [->|Hne].
      * rewrite list_lookup_insert_eq by lia. split; intros _; [left; lia|by right].
      * rewrite list_lookup_insert_ne by lia.
        split; (intros [?|?]; [left; lia|by right]).
Qed.

(** [mark_subject] in terms of the first and last key frame. *)
Lemma mark_subject_unfold av s first last_ l ls :
  head (sequence s) = Some first → last (sequence s) = Some last_ →
  subject_labels s = l :: ls →
  mark_subject av s = mark_range av (seq_frame first) (seq_frame last_).
Proof.
  intros Hh Hl Hlab. unfold mark_subject.
  rewrite py_getitem_head, Hh. simpl.
  rewrite (py_getitem_last _ _ Hl). simpl.
  rewrite py_getitem_head, Hlab. done.
Qed.

Lemma mark_subject_Ok av s av' :
  mark_subject av s = Ok av' →
  ∃ first last_, head (sequence s) = Some first ∧ last (sequence s) = Some last_
                 ∧ subject_labels s ≠ []
                 ∧ mark_range av (seq_frame first) (seq_frame last_) = Ok av'.
Proof.
  unfold mark_subject. rewrite py_getitem_head.
  destruct (head (sequence s)) as [first|] eqn:Hh; [|done]. simpl.
  destruct (last (sequence s)) as [last_|] eqn:Hl.
  2:{ apply last_None in Hl. by rewrite Hl in Hh. }
  rewrite (py_getitem_last _ _ Hl). simpl.
  rewrite py_getitem_head. destruct (subject_labels s) as [|l ls]; [done|].
  simpl. intros Hm. exists first, last_. done.
Qed.

Lemma for_each_mark_Ok av box_ av' :
  (∀ s first, s ∈ box_ → head (sequence s) = Some first → 0 ≤ seq_frame first) →
  for_each mark_subject av box_ = Ok av' →
  length av' = length av
  ∧ (∀ s, s ∈ box_ →
       ∃ first last_, head (sequence s) = Some first
                      ∧ last (sequence s) = Some last_
                      ∧ subject_labels s ≠ []
                      ∧ (seq_frame first < seq_frame last_ →
                         seq_frame last_ ≤ Z.of_nat (length av)))
  ∧ (∀ j, 0 ≤ j →
       (av' !! Z.to_nat j = Some true ↔
        in_some_range box_ j ∨ av !! Z.to_nat j = Some true)).
Proof.
  revert av. induction box_ as [|s box_ IH]; intros av Hnn Hm; simpl in Hm.
  - injection Hm as <-. split_and!; [done| |].
    + intros s Hs. by apply elem_of_nil in Hs.
    + intros j _. split; [auto|]. intros [(s & Hs & _)|?]; [|done].
      by apply elem_of_nil in Hs.
  - destruct (mark_subject av s) as [av1|] eqn:Hs; [|done]. simpl in Hm.
    apply mark_subject_Ok in Hs as (first & last_ & Hh & Hl & Hlab & Hr).
    assert (Hfirst : 0 ≤ seq_frame first).
    { apply (Hnn s); [apply list_elem_of_here|done]. }
    destruct (mark_range_spec av (seq_frame first) (seq_frame last_) Hfirst)
      as [(_ & _ & Hbad)|(Hfit & av1' & Hr' & Hlen1 & Hav1)]; [congruence|].
    rewrite Hr in Hr'. injection Hr' as <-.
    destruct (IH av1) as (Hlen & Hall & Hav'); [|done|].
    { intros s' f' Hs'. apply Hnn. by apply list_elem_of_further. }
    split_and!.
    + congruence.
    + intros s' Hs'. apply elem_of_cons in Hs' as [->|Hs'].
      * exists first, last_. done.
      * destruct (Hall s' Hs') as (f' & l' & ? & ? & ? & ?).
        exists f', l'. rewrite <- Hlen1. done.
    + intros j Hj. rewrite Hav', Hav1 by done. split.
      * intros [(s' & Hs' & Hin)|[Hin|Hin]].
        -- left. exists s'. split; [by apply list_elem_of_further|done].
        -- left. exists s. split; [apply list_elem_of_here|]. by exists first, last_.
        -- by right.
      * intros [(s' & Hs' & Hin)|Hin]; [|by right; right].
        apply elem_of_cons in Hs' as [->|Hs'].
        -- right. left. destruct Hin as (f' & l' & Hh' & Hl' & Hin). congruence.
        -- left. by exists s'.
Qed.

Lemma for_each_mark_succeeds av box_ :
  (∀ s, s ∈ box_ →
     ∃ first last_, head (sequence s) = Some first
                    ∧ last (sequence s) = Some last_
                    ∧ subject_labels s ≠ []
                    ∧ 0 ≤ seq_frame first
                    ∧ seq_frame last_ ≤ Z.of_nat (length av)) →
  ∃ av', for_each mark_subject av box_ = Ok av'.
Proof.
  revert av. induction box_ as [|s box_ IH]; intros av Hok; simpl; [by eexists|].
  destruct (Hok s) as (first & last_ & Hh & Hl & Hlab & Hfirst & Hlast);
    [apply list_elem_of_here|].
  destruct (subject_labels s) as [|l ls] eqn:Hlabs; [done|].
  rewrite (mark_subject_unfold av s first last_ l ls) by done.
  destruct (mark_range_spec av (seq_frame first) (seq_frame last_) Hfirst)
    as [(? & ? & _)|(_ & av1 & -> & Hlen1 & _)]; [lia|]. simpl.
  apply IH. intros s' Hs'. rewrite Hlen1. apply Hok. by apply list_elem_of_further.
Qed.

Lemma for_each_Raise {A S} (body : S → A → result S) (s : S) (l : list A) (e : exn) :
  for_each body s l = Raise e → ∃ s' a, a ∈ l ∧ body s' a = Raise e.
Proof.
  revert s. induction l as [|a l IH]; intros s; simpl; [done|].
  destruct (body s a) as [s'|e'] eqn:Hb; simpl.
  - intros Hfe. destruct (IH s' Hfe) as (s'' & a' & Ha' & Hb').
    exists s'', a'. split; [by apply list_elem_of_further|done].
  - intros [= ->]. exists s, a. split; [apply list_elem_of_here|done].
Qed.

Lemma py_getitem_Raise {A} (l : list A) (i : Z) (e : exn) :
  py_getitem l i = Raise e → e = IndexError.
Proof.
  unfold py_getitem. cbv zeta.
  destruct ((_ <? 0) || _); [congruence|].
  destruct (l !! _); [done|congruence].
Qed.

Lemma py_setitem_Raise {A} (l : list A) (i : Z) (v : A) (e : exn) :
  py_setitem l i v = Raise e → e = IndexError.
Proof. unfold py_setitem. cbv zeta. destruct ((_ <? 0) || _); congruence. Qed.

Lemma mark_subject_Raise av s e : mark_subject av s = Raise e → e = IndexError.
Proof.
  unfold mark_subject.
  destruct (py_getitem (sequence s) 0) as [first|e1] eqn:H1; simpl.
  2:{ intros ?; simplify_eq; by eapply py_getitem_Raise. }
  destruct (py_getitem (sequence s) (Z.of_nat (length (sequence s)) - 1))
    as [last_|e2] eqn:H2; simpl.
  2:{ intros ?; simplify_eq; by eapply py_getitem_Raise. }
  destruct (py_getitem (subject_labels s) 0) as [l|e3] eqn:H3; simpl.
  2:{ intros ?; simplify_eq; by eapply py_getitem_Raise. }
  unfold mark_range. intros Hfe.
  apply for_each_Raise in Hfe as (av' & i & _ & Hset).
  by apply py_setitem_Raise in Hset.
Qed.

Lemma mark_subject_empty av s :
  sequence s = [] ∨ subject_labels s = [] → mark_subject av s = Raise IndexError.
Proof.
  intros Hs. destruct (mark_subject av s) as [av'|e] eqn:Hm.
  - apply mark_subject_Ok in Hm as (first & last_ & Hh & _ & Hl & _).
    destruct Hs as [Hs|Hs]; [by rewrite Hs in Hh|done].
  - by apply mark_subject_Raise in Hm as ->.
Qed.

(** The mask loop over tracks that have key frames, a label and a
    non-negative first frame: it finishes when no track overruns the mask,
    and raises [IndexError] at the first one that does. *)
Lemma for_each_mark_cases av box_ :
  tracks_ok box_ →
  (∃ av', for_each mark_subject av box_ = Ok av'
          ∧ ∀ s, s ∈ box_ → ¬ overruns (Z.of_nat (length av)) s)
  ∨ (for_each mark_subject av box_ = Raise IndexError
     ∧ ∃ s, s ∈ box_ ∧ overruns (Z.of_nat (length av)) s).
Proof.
  revert av. induction box_ as [|s box_ IH]; intros av Hok.
  { left. exists av. split; [done|]. intros s Hs. by apply elem_of_nil in Hs. }
  destruct (Hok s) as (first & last_ & Hh & Hl & Hlab & Hfirst);
    [apply list_elem_of_here|].
  destruct (subject_labels s) as [|l ls] eqn:Hlabs; [done|].
  cbn [for_each]. rewrite (mark_subject_unfold av s first last_ l ls) by done.
  destruct (mark_range_spec av (seq_frame first) (seq_frame last_) Hfirst)
    as [(Hlt & Hover & ->)|(Hfit & av1 & -> & Hlen1 & _)]; cbn [bind].
  - right. split; [done|]. exists s. split; [apply list_elem_of_here|].
    by exists first, last_.
  - destruct (IH av1) as [(av' & Hav' & Hnone)|(Hraise & s' & Hs' & Hover)].
    { intros s' Hs'. apply Hok. by apply list_elem_of_further. }
    + left. exists av'. split; [done|].
      intros s' [->|Hs']%elem_of_cons.
      * intros (f' & l' & Hh' & Hl' & Hlt & Hover).
        assert (f' = first) by congruence. assert (l' = last_) by congruence.
        subst. lia.
      * rewrite <- Hlen1. by apply Hnone.
    + right. split; [done|]. exists s'. split; [by apply list_elem_of_further|].
      by rewrite <- Hlen1.
Qed.

Lemma max_frames_fold (m : Z) (box_ : list subject) :
  let r := foldl (λ max_frames s,
                    match framesCount s with
                    | Some _frame_count =>
                        if max_frames <? _frame_count then _frame_count else max_frames
                    | None => max_frames
                    end) m box_ in
  m ≤ r
  ∧ (∀ s c, s ∈ box_ → framesCount s = Some c → c ≤ r)
  ∧ (r = m ∨ ∃ s, s ∈ box_ ∧ framesCount s = Some r).
Proof.
  revert m. induction box_ as [|s box_ IH]; intros m; simpl.
  - split_and!; [lia| |by left]. intros s c Hs. by apply elem_of_nil in Hs.
  - set (m' := match framesCount s with
               | Some c => if m <? c then c else m
               | None => m
               end).
    destruct (IH m') as (Hge & Hall & Hex).
    assert (Hm' : m ≤ m' ∧ (∀ c, framesCount s = Some c → c ≤ m')
                  ∧ (m' = m ∨ framesCount s = Some m')).
    { unfold m'. destruct (framesCount s) as [c|]; [|split_and!; [lia|done|by left]].
      destruct (Z.ltb_spec m c); split_and!; try lia.
      - by intros ? [= ->].
      - by right.
      - intros ? [= ->]. lia. }
    destruct Hm' as (Hm1 & Hm2 & Hm3).
    split_and!.
    + lia.
    + intros s' c Hs' Hc. apply elem_of_cons in Hs' as [->|Hs'].
      * specialize (Hm2 c Hc). lia.
      * by apply (Hall s').
    + destruct Hex as [Heq|(s' & Hs' & Hc)].
      * destruct Hm3 as [Hm3|Hm3].
        -- left. congruence.
        -- right. exists s. split; [apply list_elem_of_here|]. congruence.
      * right. exists s'. split; [by apply list_elem_of_further|done].
Qed.

(** ** The size of the availability mask *)

(** C6 on the code. The mask has one entry more than the largest declared
    ['framesCount'] of the video's tracks, which counts as 0 when no track
    declares one: key frame numbers play no part in its size, there is no
    fall-back to them. The mask loop raises nothing but [IndexError]; over
    tracks that have key frames, a label and a non-negative first frame it
    finishes exactly when no track that spans at least one frame ends beyond
    that count plus one, and raises [IndexError] exactly when one does. A
    track from frame 0 to frame 3 that declares no count, which line 44
    provides for, gets a mask of one entry and [main] ends with
    [IndexError] before any file is written. *)
Theorem availability_mask_sizing (box_ : list subject) :
  let max_frames := max_frames_of box_ in
  0 ≤ max_frames
  ∧ (∀ s c, s ∈ box_ → framesCount s = Some c → c ≤ max_frames)
  ∧ (max_frames = 0 ∨ ∃ s, s ∈ box_ ∧ framesCount s = Some max_frames)
  ∧ (∀ avail, available_frames box_ = Ok avail →
              Z.of_nat (length avail) = max_frames + 1)
  ∧ ((∀ s, s ∈ box_ →
        ∃ first last_, head (sequence s) = Some first
                       ∧ last (sequence s) = Some last_
                       ∧ subject_labels s ≠ []
                       ∧ 0 ≤ seq_frame first
                       ∧ seq_frame last_ ≤ max_frames + 1) →
     ∃ avail, available_frames box_ = Ok avail)
  ∧ (∀ avail s first last_,
       (∀ s first, s ∈ box_ → head (sequence s) = Some first → 0 ≤ seq_frame first) →
       available_frames box_ = Ok avail →
       s ∈ box_ → head (sequence s) = Some first → last (sequence s) = Some last_ →
       seq_frame first < seq_frame last_ →
       seq_frame last_ ≤ max_frames + 1)
  ∧ (∀ e, available_frames box_ = Raise e → e = IndexError)
  ∧ (tracks_ok box_ →
     ((∃ avail, available_frames box_ = Ok avail)
      ↔ ∀ s, s ∈ box_ → ¬ overruns (max_frames + 1) s)
     ∧ (available_frames box_ = Raise IndexError
        ↔ ∃ s, s ∈ box_ ∧ overruns (max_frames + 1) s))
  ∧ (max_frames_of uncounted_box = 0
     ∧ available_frames uncounted_box = Raise IndexError
     ∧ main demo_env (mkVideo "a.mp4" uncounted_box) 0 ["ball"%string]
       = mkOutcome [] [] (Raise IndexError)).
Proof.
  intros max_frames.
  destruct (max_frames_fold 0 box_) as (Hge & Hall & Hex).
  fold (max_frames_of box_) in Hge, Hall, Hex. fold max_frames in Hge, Hall, Hex.
  assert (Hlen0 : Z.of_nat (length (replicate (Z.to_nat (max_frames + 1)) false))
                  = max_frames + 1).
  { rewrite length_replicate. lia. }
  split_and!; [done|done|done| | | | | |by vm_compute|by vm_compute|by vm_compute].
  - intros avail Hav. unfold available_frames in Hav. fold max_frames in Hav.
    assert (Hlen : length avail = length (replicate (Z.to_nat (max_frames + 1)) false)).
    { clear Hlen0. revert Hav. generalize (replicate (Z.to_nat (max_frames + 1)) false).
      clear. revert avail. induction box_ as [|s box_ IH]; intros avail av Hm; simpl in Hm.
      - by injection Hm as <-.
      - destruct (mark_subject av s) as [av1|] eqn:Hs; [|done]. simpl in Hm.
        rewrite (IH _ _ Hm).
        apply mark_subject_Ok in Hs as (first & last_ & _ & _ & _ & Hr).
        clear -Hr. unfold mark_range in Hr. revert av Hr.
        induction (py_range (seq_frame first) (seq_frame last_)) as [|i l IHl];
          intros av Hr; simpl in Hr.
        + by injection Hr as <-.
        + destruct (py_setitem av i true) as [av2|] eqn:Hset; [|done]. simpl in Hr.
          rewrite (IHl _ Hr). unfold py_setitem in Hset.
          destruct (_ || _) in Hset; [done|]. injection Hset as <-.
          apply length_insert. }
    rewrite Hlen. done.
  - intros Hok. unfold available_frames. fold max_frames.
    apply for_each_mark_succeeds. intros s Hs. rewrite Hlen0. by apply Hok.
  - intros avail s first last_ Hnn Hav Hs Hh Hl Hlt.
    unfold available_frames in Hav. fold max_frames in Hav.
    apply for_each_mark_Ok in Hav as (_ & Hall' & _); [|done].
    destruct (Hall' s Hs) as (f' & l' & Hh' & Hl' & _ & Hfit).
    rewrite Hlen0 in Hfit. assert (f' = first) by congruence.
    assert (l' = last_) by congruence. subst. by apply Hfit.
  - intros e Hav. unfold available_frames in Hav.
    apply for_each_Raise in Hav as (av & s & _ & Hm).
    by apply mark_subject_Raise in Hm.
  - intros Htracks. unfold available_frames. fold max_frames.
    destruct (for_each_mark_cases (replicate (Z.to_nat (max_frames + 1)) false)
                box_ Htracks) as [(av' & -> & Hnone)|(-> & s & Hs & Hover)];
      rewrite Hlen0 in *.
    + split; split.
      * by intros _.
      * intros _. by exists av'.
      * by intros [=].
      * intros (s & Hs & Hover). by destruct (Hnone s Hs).
    + split; split.
      * by intros [avail [=]].
      * intros Hnone. by destruct (Hnone s Hs).
      * intros _. by exists s.
      * done.
Qed.

(** ** File names: distinct frame numbers give distinct names *)

Lemma digit_value_pretty (d : N) : (d < 10)%N → digit_value (pretty_N_char d) = d.
Proof.
  intros Hd.
  assert (d = 0 ∨ d = 1 ∨ d = 2 ∨ d = 3 ∨ d = 4 ∨ d = 5 ∨ d = 6 ∨ d = 7
          ∨ d = 8 ∨ d = 9)%N as Hcases by lia.
  repeat (destruct Hcases as [->|Hcases]; [done|]). by subst.
Qed.

Lemma digits_value_pretty_go (x : N) (s : string) :
  digits_value (pretty_N_go x s)
  = (x * 10 ^ N.of_nat (String.length s) + digits_value s)%N.
Proof.
  revert s. induction (N.lt_wf_0 x) as [x _ IH]; intros s.
  destruct (decide (x = 0%N)) as [->|Hx].
  { rewrite pretty_N_go_0. lia. }
  rewrite pretty_N_go_step by lia.
  rewrite IH by (apply N.div_lt; lia).
  cbn [digits_value String.length].
  rewrite digit_value_pretty by (apply N.mod_lt; lia).
  rewrite Nat2N.inj_succ, N.pow_succ_r'.
  pose proof (N.div_mod x 10). lia.
Qed.

Lemma digits_value_pretty (n : Z) : 0 ≤ n → Z.of_N (digits_value (pretty n)) = n.
Proof.
  intros Hn. destruct n as [|p|p]; [done| |lia].
  unfold pretty, pretty_Z, pretty, pretty_positive, pretty, pretty_N.
  rewrite decide_False by done. rewrite digits_value_pretty_go. simpl. lia.
Qed.

Lemma digits_value_zeros (k : nat) (s : string) :
  digits_value (zeros k +:+ s) = digits_value s.
Proof.
  induction k as [|k IH]; [done|].
  change (zeros (S k) +:+ s) with (String "0" (zeros k +:+ s)).
  cbn [digits_value]. rewrite IH. change (digit_value "0") with 0%N. lia.
Qed.

Lemma format_0d_value (width : nat) (n : Z) :
  0 ≤ n → Z.of_N (digits_value (format_0d width n)) = n.
Proof.
  intros Hn. unfold format_0d.
  assert (Hneg : (n <? 0) = false) by lia. rewrite Hneg.
  change ("" +:+ ?s) with s. rewrite digits_value_zeros.
  unfold str_int. rewrite Z.abs_eq by done. by apply digits_value_pretty.
Qed.

Lemma string_app_length (s t : string) :
  String.length (s +:+ t) = (String.length s + String.length t)%nat.
Proof.
  induction s as [|c s IH]; [done|].
  change (String c s +:+ t) with (String c (s +:+ t)).
  cbn [String.length]. by rewrite IH.
Qed.

Lemma string_app_inv (s1 s2 t1 t2 : string) :
  String.length s1 = String.length s2 → s1 +:+ t1 = s2 +:+ t2 → s1 = s2.
Proof.
  revert s2. induction s1 as [|c s1 IH]; intros [|c2 s2] Hlen Heq; try done.
  change (String c (s1 +:+ t1) = String c2 (s2 +:+ t2)) in Heq.
  injection Heq as -> Heq. f_equal. apply IH; [|done].
  by injection Hlen.
Qed.

Lemma frame_name_inj (padding : nat) (n m : Z) (ext : string) :
  0 ≤ n → 0 ≤ m →
  frame_name padding n ext = frame_name padding m ext → n = m.
Proof.
  intros Hn Hm Heq. unfold frame_name in Heq.
  apply (inj (String.app "frame_")) in Heq.
  assert (Hfmt : format_0d padding n = format_0d padding m).
  { apply (string_app_inv _ _ ext ext); [|done].
    apply (f_equal String.length) in Heq. rewrite !string_app_length in Heq. lia. }
  rewrite <- (format_0d_value padding n), <- (format_0d_value padding m) by done.
  by rewrite Hfmt.
Qed.

(** ** The keys of [files_dict] *)

Lemma files_dict_add_keys fd frame i k :
  k ∈ dict_keys (files_dict_add fd frame i) ↔ k = frame ∨ k ∈ dict_keys fd.
Proof.
  unfold files_dict_add. destruct (dict_get frame fd); apply elem_of_dict_keys_set.
Qed.

Lemma files_dict_add_NoDup fd frame i :
  NoDup (dict_keys fd) → NoDup (dict_keys (files_dict_add fd frame i)).
Proof.
  unfold files_dict_add. destruct (dict_get frame fd); apply NoDup_dict_keys_set.
Qed.

Lemma foldl_files_dict_add (lines : dict Z info) fd :
  let fd' := foldl (λ fd fi, files_dict_add fd fi.1 fi.2) fd lines in
  (NoDup (dict_keys fd) → NoDup (dict_keys fd'))
  ∧ ∀ k, k ∈ dict_keys fd' ↔ k ∈ dict_keys lines ∨ k ∈ dict_keys fd.
Proof.
  revert fd. induction lines as [|[f i] lines IH]; intros fd; simpl.
  - split; [done|]. intros k. split; [auto|]. intros [Hk|Hk]; [|done].
    by apply elem_of_nil in Hk.
  - destruct (IH (files_dict_add fd f i)) as [Hnd Hkeys]. split.
    + intros Hfd. by apply Hnd, files_dict_add_NoDup.
    + intros k. rewrite Hkeys, files_dict_add_keys.
      unfold dict_keys. cbn [fmap list_fmap fst]. rewrite elem_of_cons. tauto.
Qed.

Lemma seq_lines_keys prev_seq seq label k :
  k ∈ dict_keys (seq_lines prev_seq seq label) →
  k = seq_frame seq
  ∨ ∃ p, prev_seq = Some p ∧ seq_frame p < k < seq_frame seq.
Proof.
  unfold seq_lines. rewrite elem_of_dict_keys_set. intros [->|Hk]; [by left|].
  right. apply elem_of_interpolated_keys in Hk as (p & -> & _ & _ & Hk).
  by exists p.
Qed.

Lemma process_seq_ok label st seq0 :
  0 ≤ seq_frame seq0 → files_dict_ok st → files_dict_ok (process_seq label st seq0).
Proof.
  intros Hseq (Hnd & Hnn & Hprev). unfold process_seq.
  destruct (foldl_files_dict_add (seq_lines st.2 (normalize seq0) label) st.1)
    as [Hnd' Hkeys].
  split_and!; simpl.
  - by apply Hnd'.
  - intros k Hk. apply Hkeys in Hk as [Hk|Hk]; [|by apply Hnn].
    apply seq_lines_keys in Hk as [->|(p & Hp & Hk)]; [done|].
    specialize (Hprev p Hp). lia.
  - intros p [= <-]. done.
Qed.

Lemma process_subject_ok labels_dict fd s fd' :
  (∀ k, k ∈ sequence s → 0 ≤ seq_frame k) →
  NoDup (dict_keys fd) → (∀ k, k ∈ dict_keys fd → 0 ≤ k) →
  process_subject labels_dict fd s = Ok fd' →
  NoDup (dict_keys fd') ∧ (∀ k, k ∈ dict_keys fd' → 0 ≤ k).
Proof.
  intros Hseq Hnd Hnn. unfold process_subject.
  destruct (subject_label labels_dict s) as [label|]; [|done]. simpl.
  intros [= <-].
  assert (Hok : files_dict_ok (foldl (process_seq label) (fd, None) (sequence s))).
  { assert (H0 : files_dict_ok (fd, None : option keyframe)) by (split_and!; done).
    revert H0 Hseq. generalize (fd, None : option keyframe).
    induction (sequence s) as [|k l IH]; intros st Hst Hl; [done|].
    simpl. apply IH.
    - apply process_seq_ok; [apply Hl, list_elem_of_here|done].
    - intros k' Hk'. by apply Hl, list_elem_of_further. }
  destruct Hok as (? & ? & _). done.
Qed.

Lemma aggregate_ok labels_dict box_ fd :
  frames_nonneg box_ →
  aggregate labels_dict box_ = Ok fd →
  NoDup (dict_keys fd) ∧ (∀ k, k ∈ dict_keys fd → 0 ≤ k).
Proof.
  unfold aggregate.
  assert (H0 : NoDup (dict_keys ([] : dict Z (list info)))
               ∧ (∀ k, k ∈ dict_keys ([] : dict Z (list info)) → 0 ≤ k)).
  { split; [apply NoDup_nil_2|]. intros k Hk. by apply elem_of_nil in Hk. }
  revert H0. generalize ([] : dict Z (list info)).
  induction box_ as [|s box_ IH]; intros fd0 H0 Hnn Hagg; simpl in Hagg.
  - by injection Hagg as <-.
  - destruct (process_subject labels_dict fd0 s) as [fd1|] eqn:Hs; [|done].
    simpl in Hagg. apply (IH fd1); [| |done].
    + destruct H0 as [Hnd0 Hnn0]. eapply process_subject_ok; [|done..].
      intros k Hk. apply (Hnn s k); [apply list_elem_of_here|done].
    + intros s' k Hs' Hk. apply (Hnn s' k); [by apply list_elem_of_further|done].
Qed.

(** Sorting keeps the entries and puts the keys in ascending order. *)
Global Instance key_le_total : Total key_le.
Proof. intros a b. unfold key_le. lia. Qed.

Global Instance key_le_trans : Transitive key_le.
Proof. intros a b c. unfold key_le. lia. Qed.

Lemma sorted_items_keys fd k : k ∈ dict_keys (sorted_items fd) ↔ k ∈ dict_keys fd.
Proof.
  unfold dict_keys, sorted_items. by rewrite (merge_sort_Permutation key_le fd).
Qed.

Lemma sorted_items_NoDup fd : NoDup (dict_keys fd) → NoDup (dict_keys (sorted_items fd)).
Proof.
  unfold dict_keys, sorted_items. by rewrite (merge_sort_Permutation key_le fd).
Qed.

Lemma sorted_items_sorted fd : StronglySorted Z.le (dict_keys (sorted_items fd)).
Proof.
  unfold dict_keys, sorted_items.
  apply (StronglySorted_fmap fst key_le Z.le); [by intros ??|].
  apply StronglySorted_merge_sort; apply _.
Qed.

(** ** The two export loops *)

Lemma write_labels_Ok avail offset padding items out :
  write_labels avail offset padding items = (out, Ok ()) →
  (∀ k, k ∈ dict_keys items → ∃ b, py_getitem avail k = Ok b)
  ∧ ∀ name, name ∈ out.*1 ↔
            ∃ frame, frame ∈ dict_keys items ∧ is_available avail frame = true
                     ∧ name = frame_name padding (offset + frame) ".txt".
Proof.
  revert out. induction items as [|[frame lines] items IH]; intros out Hw; simpl in Hw.
  - injection Hw as <-. split.
    + intros k Hk. by apply elem_of_nil in Hk.
    + intros name. split; [intros Hn; by apply elem_of_nil in Hn|].
      intros (f & Hf & _). by apply elem_of_nil in Hf.
  - unfold dict_keys in *. cbn [fmap list_fmap fst].
    destruct (py_getitem avail frame) as [b|] eqn:Hget; [|done].
    destruct (write_labels avail offset padding items) as [out' r] eqn:Hrest.
    assert (Hr : r = Ok () ∧ out = (if b then [(frame_name padding (offset + frame) ".txt", lines)] else []) ++ out').
    { destruct b; [by injection Hw as <- <-|by injection Hw as <- <-]. }
    destruct Hr as [-> ->]. destruct (IH out' eq_refl) as [Hall Hnames]. split.
    + intros k Hk. apply elem_of_cons in Hk as [->|Hk]; [by exists b|by apply Hall].
    + intros name. rewrite fmap_app, elem_of_app, Hnames. split.
      * intros [Hn|(f & Hf & Ha & ->)].
        -- destruct b; [|by apply elem_of_nil in Hn].
           apply list_elem_of_singleton in Hn as ->. exists frame.
           split_and!; [apply list_elem_of_here| |done].
           unfold is_available. by rewrite Hget.
        -- exists f. split_and!; [by apply list_elem_of_further|done..].
      * intros (f & Hf & Ha & ->). apply elem_of_cons in Hf as [->|Hf].
        -- left. unfold is_available in Ha. rewrite Hget in Ha. destruct b; [|done].
           apply list_elem_of_here.
        -- right. by exists f.
Qed.

Lemma extract_frames_spec E path avail offset padding items :
  (∀ k, k ∈ dict_keys items → ∃ b, py_getitem avail k = Ok b) →
  StronglySorted Z.lt (dict_keys items) →
  ∃ out,
    extract_frames E path avail offset padding items = (out, Ok ())
    ∧ ∀ name, name ∈ out ↔
        ∃ frame, frame ∈ dict_keys items ∧ is_available avail frame = true
                 ∧ (∀ f, f ∈ dict_keys items → f ≤ frame →
                         is_available avail f = true →
                         read_frame E path (f - 1) = true)
                 ∧ name = frame_name padding (offset + frame) ".jpg".
Proof.
  induction items as [|[frame lines] items IH]; intros Hget Hsorted.
  - exists []. split; [done|]. intros name.
    split; [intros Hn; by apply elem_of_nil in Hn|].
    intros (f & Hf & _). by apply elem_of_nil in Hf.
  - unfold dict_keys in *. cbn [fmap list_fmap fst] in *.
    apply StronglySorted_inv in Hsorted as [Hsorted Hlt].
    rewrite Forall_forall in Hlt.
    destruct IH as (out' & Hout' & Hnames).
    { intros k Hk. by apply Hget, list_elem_of_further. }
    { done. }
    destruct (Hget frame) as [b Hb]; [apply list_elem_of_here|].
    assert (Hframe : is_available avail frame = b).
    { unfold is_available. rewrite Hb. by destruct b. }
    cbn [extract_frames]. rewrite Hb, Hout'.
    destruct b; [destruct (read_frame E path (frame - 1)) eqn:Hread|].
    + eexists. split; [done|]. intros name. rewrite elem_of_cons, Hnames. split.
      * intros [->|(f & Hf & Ha & Hreads & ->)].
        -- exists frame. split_and!; [apply list_elem_of_here|done| |done].
           intros f Hf Hle _. apply elem_of_cons in Hf as [->|Hf]; [done|].
           specialize (Hlt f Hf). lia.
        -- exists f. split_and!; [by apply list_elem_of_further|done| |done].
           intros f' Hf' Hle Ha'. apply elem_of_cons in Hf' as [->|Hf']; [done|].
           by apply Hreads.
      * intros (f & Hf & Ha & Hreads & ->). apply elem_of_cons in Hf as [->|Hf].
        -- by left.
        -- right. exists f. split_and!; [done..| |done].
           intros f' Hf' Hle Ha'. apply Hreads; [by apply list_elem_of_further|done..].
    + exists []. split; [done|]. intros name.
      split; [intros Hn; by apply elem_of_nil in Hn|].
      intros (f & Hf & Ha & Hreads & _).
      assert (frame ≤ f).
      { apply elem_of_cons in Hf as [->|Hf]; [lia|]. specialize (Hlt f Hf). lia. }
      rewrite Hreads in Hread; [done|apply list_elem_of_here|done..].
    + exists out'. split; [done|]. intros name. rewrite Hnames. split.
      * intros (f & Hf & Ha & Hreads & ->).
        exists f. split_and!; [by apply list_elem_of_further|done| |done].
        intros f' Hf' Hle Ha'. apply elem_of_cons in Hf' as [->|Hf']; [congruence|].
        by apply Hreads.
      * intros (f & Hf & Ha & Hreads & ->). apply elem_of_cons in Hf as [->|Hf];
          [congruence|].
        exists f. split_and!; [done..| |done].
        intros f' Hf' Hle Ha'. apply Hreads; [by apply list_elem_of_further|done..].
Qed.

Lemma StronglySorted_le_lt (l : list Z) :
  StronglySorted Z.le l → NoDup l → StronglySorted Z.lt l.
Proof.
  induction 1 as [|x l Hs IH Hall]; intros Hnd; constructor.
  - apply IH. by apply NoDup_cons in Hnd as [_ ?].
  - apply NoDup_cons in Hnd as [Hx _]. rewrite Forall_forall in *.
    intros y Hy. specialize (Hall y Hy).
    assert (x ≠ y) by (intros ->; done). lia.
Qed.

(** On a mask marked from non-negative starts, an entry is set exactly for
    the frames of the ranges. *)
Lemma available_frames_spec box_ avail frame :
  frames_nonneg box_ → available_frames box_ = Ok avail → 0 ≤ frame →
  (is_available avail frame = true ↔ in_some_range box_ frame).
Proof.
  intros Hnn Hav Hframe. unfold available_frames in Hav.
  apply for_each_mark_Ok in Hav as (_ & _ & Hav).
  2:{ intros s first Hs Hh. apply (Hnn s first Hs).
      destruct (sequence s); [done|]. injection Hh as ->. apply list_elem_of_here. }
  unfold is_available. rewrite py_getitem_nonneg by done.
  specialize (Hav frame Hframe). split.
  - intros Hget.
    assert (Hl : avail !! Z.to_nat frame = Some true).
    { by destruct (avail !! Z.to_nat frame) as [[]|]. }
    apply Hav in Hl as [?|Hl]; [done|].
    apply lookup_replicate in Hl as [? _]. done.
  - intros Hin. by rewrite (proj2 Hav (or_introl Hin)).
Qed.

Lemma prepare_Ok v labels avail files_dict max_frame :
  prepare v labels = Ok (avail, files_dict, max_frame) →
  available_frames (box v) = Ok avail
  ∧ ∃ fd, aggregate (make_labels_dict labels) (box v) = Ok fd
          ∧ files_dict = sorted_items fd
          ∧ py_max (dict_keys files_dict) = Ok max_frame.
Proof.
  unfold prepare, prepare_with.
  destruct (available_frames (box v)) as [av|]; [|done]. simpl.
  destruct (aggregate (make_labels_dict labels) (box v)) as [fd|]; [|done]. simpl.
  destruct (py_max (dict_keys (sorted_items fd))) as [mf|] eqn:Hmax; [|done]. simpl.
  intros [= <- <- <-]. split; [done|]. by exists fd.
Qed.

(** ** Availability gating *)

(** C5 as stated fails for the images: when the video file is there but a
    frame cannot be read, the frames of the ranges get their label file and
    no image. *)
Lemma availability_gating_counterexample :
  let o := main unreadable_env demo_video 0 ["ball"%string] in
  isfile unreadable_env (video demo_video) = true
  ∧ returned o = Ok 4
  ∧ in_some_range (box demo_video) 1
  ∧ "frame_1.txt"%string ∈ (labels_out o).*1
  ∧ "frame_1.jpg"%string ∉ images_out o.
Proof.
  split_and!.
  - done.
  - by vm_compute.
  - eexists. split; [apply list_elem_of_here|].
    do 2 eexists. split_and!; [done|done|by vm_compute|by vm_compute].
  - vm_compute. apply list_elem_of_here.
  - vm_compute. apply not_elem_of_nil.
Qed.

(** C5, amended. When [main] returns, a frame of the per-frame label map has
    its label file written exactly when it lies in the half-open range of
    some track; its image is written exactly when, in addition, the video
    file is there and reading succeeded for it and for every earlier frame
    of the map that lies in such a range. Key frame numbers and the offset
    are taken non-negative. *)
Theorem availability_gating (E : env) (v : video_label) (offset : Z)
    (labels : list string) (avail : list bool)
    (files_dict : dict Z (list info)) (max_frame n : Z) (frame : Z) :
  prepare v labels = Ok (avail, files_dict, max_frame) →
  returned (main E v offset labels) = Ok n →
  frames_nonneg (box v) → 0 ≤ offset →
  frame ∈ dict_keys files_dict →
  let padding := String.length (str_int max_frame) in
  let o := main E v offset labels in
  (frame_name padding (offset + frame) ".txt" ∈ (labels_out o).*1
   ↔ in_some_range (box v) frame)
  ∧ (frame_name padding (offset + frame) ".jpg" ∈ images_out o
     ↔ isfile E (video v) = true
       ∧ in_some_range (box v) frame
       ∧ ∀ f, f ∈ dict_keys files_dict → f ≤ frame →
              in_some_range (box v) f →
              read_frame E (video v) (f - 1) = true).
Proof.
  intros Hprep Hret Hnn Hoff Hframe padding o.
  destruct (prepare_Ok _ _ _ _ _ Hprep) as (Hav & fd & Hagg & -> & Hmax).
  destruct (aggregate_ok _ _ _ Hnn Hagg) as [Hnd Hkeys].
  assert (Hkeys' : ∀ k, k ∈ dict_keys (sorted_items fd) → 0 ≤ k).
  { intros k Hk. by apply Hkeys, sorted_items_keys. }
  assert (Hsorted : StronglySorted Z.lt (dict_keys (sorted_items fd))).
  { apply StronglySorted_le_lt; [apply sorted_items_sorted|by apply sorted_items_NoDup]. }
  assert (Hrange : ∀ k, k ∈ dict_keys (sorted_items fd) →
                        (is_available avail k = true ↔ in_some_range (box v) k)).
  { intros k Hk. apply available_frames_spec; auto. }
  subst o. unfold main, export in *. rewrite Hprep in *. fold padding in Hret |- *.
  destruct (write_labels avail offset padding (sorted_items fd))
    as [written r] eqn:Hw.
  destruct r as [[]|]; [|done].
  destruct (write_labels_Ok _ _ _ _ _ Hw) as [Hget Hnames].
  destruct (extract_frames_spec E (video v) avail offset padding (sorted_items fd)
              Hget Hsorted) as (images & Himg & Himages).
  rewrite Himg in *.
  assert (Hinj : ∀ f ext, f ∈ dict_keys (sorted_items fd) →
            frame_name padding (offset + frame) ext
            = frame_name padding (offset + f) ext → f = frame).
  { intros f ext Hf Heq. apply frame_name_inj in Heq; [lia|..].
    - specialize (Hkeys' _ Hframe). lia.
    - specialize (Hkeys' _ Hf). lia. }
  destruct (isfile E (video v)) eqn:Hfile; cbn [labels_out images_out]; split.
  - rewrite Hnames. split.
    + intros (f & Hf & Ha & Heq). apply Hinj in Heq as ->; [|done]. by apply Hrange.
    + intros Hin. exists frame. split_and!; [done| |done]. by apply Hrange.
  - rewrite Himages. split.
    + intros (f & Hf & Ha & Hreads & Heq). apply Hinj in Heq as ->; [|done].
      split_and!; [done|by apply Hrange|].
      intros f' Hf' Hle Hin. apply Hreads; [done..|by apply Hrange].
    + intros (_ & Hin & Hreads). exists frame.
      split_and!; [done|by apply Hrange| |done].
      intros f' Hf' Hle Ha. apply Hreads; [done..|by apply Hrange].
  - rewrite Hnames. split.
    + intros (f & Hf & Ha & Heq). apply Hinj in Heq as ->; [|done]. by apply Hrange.
    + intros Hin. exists frame. split_and!; [done| |done]. by apply Hrange.
  - split; [intros Hn; by apply elem_of_nil in Hn|]. by intros (? & _).
Qed.

(** ** The label registry *)

Lemma for_each_app {A S} (body : S → A → result S) (s : S) (l1 l2 : list A) :
  for_each body s (l1 ++ l2) = (s' ←! for_each body s l1; for_each body s' l2).
Proof.
  revert s. induction l1 as [|a l1 IH]; intros s; simpl; [done|].
  destruct (body s a); simpl; [apply IH|done].
Qed.

Lemma for_each_all_subjects (labels : gset string) video_labels :
  for_each (λ labels v, for_each add_labels labels (box v)) labels video_labels
  = for_each add_labels labels (all_subjects video_labels).
Proof.
  revert labels. unfold all_subjects.
  induction video_labels as [|v vs IH]; intros labels; simpl; [done|].
  rewrite for_each_app. destruct (for_each add_labels labels (box v)); simpl; [apply IH|done].
Qed.

Lemma for_each_add_labels (labels : gset string) (subjects : list subject) :
  for_each add_labels labels subjects
  = if forallb single_label subjects
    then Ok (list_to_set (subjects ≫= subject_labels) ∪ labels)
    else Raise TypeError.
Proof.
  revert labels. induction subjects as [|s subjects IH]; intros labels; simpl.
  - f_equal. by rewrite (left_id_L ∅ (∪)).
  - unfold add_labels at 1, single_label at 1.
    destruct (subject_labels s) as [|l [|l' ls]] eqn:Hs; simpl; [done| |done].
    rewrite IH. destruct (forallb single_label subjects); [|done].
    f_equal. apply set_eq. intros x. rewrite !elem_of_union. tauto.
Qed.

Lemma extract_labels_unfold video_labels :
  extract_labels video_labels
  = if forallb single_label (all_subjects video_labels)
    then Ok (merge_sort String.le
               (elements (list_to_set (all_subjects video_labels ≫= subject_labels)
                          : gset string)))
    else Raise TypeError.
Proof.
  unfold extract_labels. rewrite for_each_all_subjects, for_each_add_labels.
  destruct (forallb single_label (all_subjects video_labels)); [|done]. simpl.
  by rewrite (right_id_L ∅ (∪)).
Qed.

Lemma elem_of_all_subjects s video_labels :
  s ∈ all_subjects video_labels ↔ ∃ v, v ∈ video_labels ∧ s ∈ box v.
Proof.
  unfold all_subjects. rewrite list_elem_of_bind. split.
  - intros (v & Hs & Hv). by exists v.
  - intros (v & Hv & Hs). by exists v.
Qed.

Lemma make_labels_dict_get labels i l :
  NoDup labels → labels !! i = Some l →
  dict_get l (make_labels_dict labels) = Some (Z.of_nat i).
Proof.
  intros Hnd Hi. unfold make_labels_dict.
  assert (Hkeys : snd <$> imap (λ i k, (Z.of_nat i, k)) labels = labels).
  { apply list_eq. intros j. rewrite list_lookup_fmap, list_lookup_imap.
    by destruct (labels !! j). }
  rewrite (foldl_dict_set_items snd fst); simpl.
  - apply dict_elem_of_get.
    + unfold dict_keys. rewrite <- list_fmap_compose.
      rewrite <- Hkeys in Hnd. exact Hnd.
    + apply list_elem_of_fmap. exists (Z.of_nat i, l). split; [done|].
      apply elem_of_lookup_imap. by exists i, l.
  - by rewrite Hkeys.
  - intros a _. apply not_elem_of_nil.
Qed.

(** C7. The class list is the sorted list of the distinct labels of all
    subjects of all videos; the index of a label is its position in that
    list; bundles with the same subjects in another order get the same
    list; and labels ball, refA, teamB are numbered 0, 1, 2. The list is
    produced for every bundle whose subjects have exactly one label each
    (and for no other: the driver then raises [TypeError]), so a bundle
    whose labels are ball, refA and teamB gets exactly that list. *)
Theorem label_registry_stability :
  (∀ video_labels labels,
      extract_labels video_labels = Ok labels →
      Sorted String.le labels
      ∧ NoDup labels
      ∧ (∀ l, l ∈ labels ↔
              ∃ v s, v ∈ video_labels ∧ s ∈ box v ∧ subject_labels s = [l])
      ∧ (∀ i l, labels !! i = Some l →
                dict_get l (make_labels_dict labels) = Some (Z.of_nat i)))
  ∧ (∀ video_labels1 video_labels2,
       all_subjects video_labels1 ≡ₚ all_subjects video_labels2 →
       extract_labels video_labels1 = extract_labels video_labels2)
  ∧ (∀ video_labels labels,
       extract_labels video_labels = Ok labels →
       (∀ l, l ∈ labels ↔ l ∈ ["ball"; "refA"; "teamB"]%string) →
       labels = ["ball"; "refA"; "teamB"]%string
       ∧ make_labels_dict labels = [("ball", 0); ("refA", 1); ("teamB", 2)]%string)
  ∧ (∀ video_labels,
       (∃ labels, extract_labels video_labels = Ok labels)
       ↔ ∀ v s, v ∈ video_labels → s ∈ box v → ∃ l, subject_labels s = [l])
  ∧ (∀ video_labels e, extract_labels video_labels = Raise e → e = TypeError)
  ∧ (∀ video_labels,
       (∀ v s, v ∈ video_labels → s ∈ box v → ∃ l, subject_labels s = [l]) →
       (∀ l, (∃ v s, v ∈ video_labels ∧ s ∈ box v ∧ subject_labels s = [l])
             ↔ l ∈ ["ball"; "refA"; "teamB"]%string) →
       extract_labels video_labels = Ok ["ball"; "refA"; "teamB"]%string).
Proof.
  assert (Hfirst : ∀ video_labels labels,
      extract_labels video_labels = Ok labels →
      Sorted String.le labels
      ∧ NoDup labels
      ∧ (∀ l, l ∈ labels ↔
              ∃ v s, v ∈ video_labels ∧ s ∈ box v ∧ subject_labels s = [l])).
  { intros video_labels labels. rewrite extract_labels_unfold.
    destruct (forallb single_label (all_subjects video_labels)) eqn:Hall; [|done].
    intros [= <-]. split_and!.
    - apply Sorted_merge_sort, _.
    - rewrite merge_sort_Permutation. apply NoDup_elements.
    - intros l. rewrite merge_sort_Permutation, elem_of_elements, elem_of_list_to_set.
      rewrite list_elem_of_bind. setoid_rewrite elem_of_all_subjects.
      rewrite forallb_forall in Hall. split.
      + intros (s & Hl & v & Hv & Hs). exists v, s. split_and!; [done..|].
        assert (Hsingle : single_label s = true).
        { apply Hall, list_elem_of_In, elem_of_all_subjects. by exists v. }
        unfold single_label in Hsingle.
        destruct (subject_labels s) as [|l' [|]]; [done| |done].
        by apply list_elem_of_singleton in Hl as ->.
      + intros (v & s & Hv & Hs & Hl). exists s. split; [|by exists v].
        rewrite Hl. apply list_elem_of_here. }
  assert (Hreturns : ∀ video_labels,
      (∃ labels, extract_labels video_labels = Ok labels)
      ↔ ∀ v s, v ∈ video_labels → s ∈ box v → ∃ l, subject_labels s = [l]).
  { intros video_labels. rewrite extract_labels_unfold.
    destruct (forallb single_label (all_subjects video_labels)) eqn:Hall.
    - split; [intros _|by eexists]. intros v s Hv Hs.
      rewrite forallb_forall in Hall.
      assert (Hsingle : single_label s = true).
      { apply Hall, list_elem_of_In, elem_of_all_subjects. by exists v. }
      unfold single_label in Hsingle.
      destruct (subject_labels s) as [|l [|]]; [done| |done]. by exists l.
    - split; [by intros [labels [=]]|]. intros Hsingle. exfalso.
      apply not_true_iff_false in Hall. apply Hall, forallb_forall.
      intros s Hs. apply list_elem_of_In, elem_of_all_subjects in Hs as (v & Hv & Hs).
      destruct (Hsingle v s Hv Hs) as [l Hl]. unfold single_label. by rewrite Hl. }
  split_and!.
  - intros video_labels labels Hex.
    destruct (Hfirst _ _ Hex) as (Hs & Hnd & Hin). split_and!; [done..|].
    intros i l Hi. by apply make_labels_dict_get.
  - intros vs1 vs2 Hperm. rewrite !extract_labels_unfold.
    assert (Hall : forallb single_label (all_subjects vs1)
                   = forallb single_label (all_subjects vs2)).
    { apply eq_true_iff_eq. rewrite !forallb_forall.
      setoid_rewrite <- list_elem_of_In. by setoid_rewrite Hperm. }
    rewrite Hall. destruct (forallb single_label (all_subjects vs2)); [|done].
    do 3 f_equal. apply set_eq. intros l. rewrite !elem_of_list_to_set.
    by rewrite Hperm.
  - intros video_labels labels Hex Hin.
    destruct (Hfirst _ _ Hex) as (Hs & Hnd & _).
    assert (Heq : labels = ["ball"; "refA"; "teamB"]%string).
    { apply (Sorted_unique String.le); [done| |].
      - apply (bool_decide_unpack _). by vm_compute.
      - apply NoDup_Permutation; [done| |done].
        apply (bool_decide_unpack _). by vm_compute. }
    by rewrite Heq.
  - intros video_labels. apply Hreturns.
  - intros video_labels e. rewrite extract_labels_unfold.
    destruct (forallb single_label (all_subjects video_labels)); [done|].
    by intros [= <-].
  - intros video_labels Hsingle Hin.
    destruct (proj2 (Hreturns video_labels) Hsingle) as [labels Hex].
    rewrite Hex. f_equal.
    destruct (Hfirst _ _ Hex) as (Hs & Hnd & Hlabels).
    apply (Sorted_unique String.le); [done| |].
    + apply (bool_decide_unpack _). by vm_compute.
    + apply NoDup_Permutation; [done| |].
      * apply (bool_decide_unpack _). by vm_compute.
      * intros l. by rewrite Hlabels, Hin.
Qed.

(** ** Subjects without exactly one label *)

Lemma for_each_raises {A S} (body : S → A → result S) (s : S) (l : list A) (a : A) :
  a ∈ l → (∀ s', ∃ e, body s' a = Raise e) → ∃ e, for_each body s l = Raise e.
Proof.
  intros Ha Hbody. revert s. induction l as [|b l IH]; intros s.
  - by apply elem_of_nil in Ha.
  - simpl. destruct (body s b) as [s'|e] eqn:Hb; [|by exists e]. simpl.
    apply elem_of_cons in Ha as [->|Ha].
    + destruct (Hbody s) as [e He]. congruence.
    + by apply IH.
Qed.

Lemma single_label_false s : length (subject_labels s) ≠ 1%nat → single_label s = false.
Proof. unfold single_label. by destruct (subject_labels s) as [|l [|l' ls]]. Qed.

Lemma prepare_raises v labels s :
  s ∈ box v → length (subject_labels s) ≠ 1%nat →
  ∃ e, prepare v labels = Raise e.
Proof.
  intros Hs Hlen. unfold prepare, prepare_with.
  destruct (available_frames (box v)) as [avail|e]; [|by exists e]. simpl.
  destruct (for_each_raises (process_subject (make_labels_dict labels)) [] (box v) s Hs)
    as [e He].
  { intros fd. exists ValueError. unfold process_subject, subject_label.
    by destruct (subject_labels s) as [|l [|l' ls]]. }
  unfold aggregate. rewrite He. by exists e.
Qed.

(** C8. A subject whose list of labels does not have exactly one element
    makes [main] raise before any file of that video is written, and makes
    the driver raise while it collects the labels, before any video is
    processed. *)
Theorem single_label_enforcement (E : env) (v : video_label) (offset : Z)
    (labels : list string) (s : subject) :
  s ∈ box v → length (subject_labels s) ≠ 1%nat →
  (∃ e, main E v offset labels = mkOutcome [] [] (Raise e))
  ∧ (∀ video_labels, v ∈ video_labels →
       run E video_labels = mkRun [] None (Raise TypeError)).
Proof.
  intros Hs Hlen. split.
  - destruct (prepare_raises v labels s Hs Hlen) as [e He].
    exists e. unfold main, export. by rewrite He.
  - intros video_labels Hv. unfold run. rewrite extract_labels_unfold.
    assert (Hall : forallb single_label (all_subjects video_labels) = false).
    { apply not_true_is_false. rewrite forallb_forall. intros Hall.
      specialize (Hall s). rewrite single_label_false in Hall by done.
      assert (false = true); [|done].
      apply Hall, list_elem_of_In, elem_of_all_subjects. by exists v. }
    by rewrite Hall.
Qed.


(** ** The running offset and the file names, evaluated *)

(** What [main] returns, when it returns: its offset plus the number of
    frames that have lines. *)
Lemma main_returned E v offset labels n :
  returned (main E v offset labels) = Ok n →
  ∃ avail files_dict max_frame,
    prepare v labels = Ok (avail, files_dict, max_frame)
    ∧ n = offset + Z.of_nat (length files_dict).
Proof.
  unfold main, export.
  destruct (prepare v labels) as [[[avail fd] mf]|]; [|done].
  destruct (write_labels avail offset (String.length (str_int mf)) fd) as [written r].
  destruct r as [[]|]; [|done].
  destruct (if isfile E (video v)
            then extract_frames E (video v) avail offset (String.length (str_int mf)) fd
            else ([], Ok ())) as [images r'].
  destruct r' as [[]|]; [|done].
  cbn [returned]. intros [= <-]. by exists avail, fd, mf.
Qed.

(** C1 on the code. [main] returns its offset plus the number of frames that
    have lines, and the driver adds that sum to the count it already holds,
    so the next offset is twice the current one plus that number. For three
    videos that export 10, 0 and 5 label files (11, 1 and 6 frames with
    lines) the offsets passed are 0, 11 and 23, the third video is numbered
    23 to 27, and the final count is 52. *)
Theorem offset_coordination_three_videos :
  (∀ E labels frame_count v rest n,
     returned (main E v frame_count labels) = Ok n →
     (∃ avail files_dict max_frame,
        prepare v labels = Ok (avail, files_dict, max_frame)
        ∧ n = frame_count + Z.of_nat (length files_dict))
     ∧ run_videos E labels frame_count (v :: rest)
       = ((frame_count, main E v frame_count labels)
            :: (run_videos E labels (frame_count + n) rest).1,
          (run_videos E labels (frame_count + n) rest).2))
  ∧ (let r := run demo_env three_videos in
     (calls r).*1 = [0; 11; 23]
     ∧ (λ c, length (labels_out c.2)) <$> calls r = [10; 0; 5]%nat
     ∧ (λ c, returned c.2) <$> calls r = [Ok 11; Ok 12; Ok 29]
     ∧ label_names r
       = ["frame_00.txt"; "frame_01.txt"; "frame_02.txt"; "frame_03.txt";
          "frame_04.txt"; "frame_05.txt"; "frame_06.txt"; "frame_07.txt";
          "frame_08.txt"; "frame_09.txt";
          "frame_23.txt"; "frame_24.txt"; "frame_25.txt"; "frame_26.txt";
          "frame_27.txt"]%string
     ∧ finished r = Ok 52).
Proof.
  split; [|by vm_compute].
  intros E labels frame_count v rest n Hret. split; [by apply (main_returned E)|].
  cbn [run_videos]. rewrite Hret.
  by destruct (run_videos E labels (frame_count + n) rest).
Qed.

(** C9 on the code: the width of the number in a file name is the number of
    digits of the largest frame number of the video at hand, without the
    offset. Two videos with frames 1 to 9 give the names frame_1 to frame_8
    and frame_10 to frame_17, and frame_10.txt sorts before frame_2.txt. *)
Theorem filename_padding_two_videos :
  let r := run demo_env two_videos in
  (calls r).*1 = [0; 9]
  ∧ label_names r
    = ["frame_1.txt"; "frame_2.txt"; "frame_3.txt"; "frame_4.txt";
       "frame_5.txt"; "frame_6.txt"; "frame_7.txt"; "frame_8.txt";
       "frame_10.txt"; "frame_11.txt"; "frame_12.txt"; "frame_13.txt";
       "frame_14.txt"; "frame_15.txt"; "frame_16.txt"; "frame_17.txt"]%string
  ∧ String.ltb "frame_10.txt" "frame_2.txt" = true
  ∧ merge_sort String.le (label_names r) ≠ label_names r.
Proof. 
  split_and!; [by vm_compute..|].
  intros Heq. vm_compute in Heq. discriminate.
Qed.

(** ** The input of [main] is left as it was *)

Lemma copy_keyframe_inv h0 st l st' l' :
  copy_inv h0 st → copy_keyframe st l = (st', l') →
  copy_inv h0 st' ∧ l' ∉ dom h0.
Proof.
  intros [Hsub Hmemo]. unfold copy_keyframe.
  destruct (st.2 !! l) as [l1|] eqn:Hm.
  - intros [= <- <-]. split; [done|]. by apply (Hmemo l).
  - destruct (st.1 !! l) as [k|] eqn:Hl.
    + intros [= <- <-]. simpl.
      assert (Hfresh : fresh (dom st.1) ∉ dom h0).
      { intros Hin. apply (is_fresh (dom st.1)).
        by apply (subseteq_dom _ _ Hsub). }
      split; [|done]. split; simpl.
      * etrans; [done|]. apply insert_subseteq. apply not_elem_of_dom, is_fresh.
      * intros l1 l2 Hl12. destruct (decide (l = l1)) as [->|Hne].
        -- rewrite lookup_insert_eq in Hl12. by injection Hl12 as <-.
        -- rewrite lookup_insert_ne in Hl12 by done. by apply (Hmemo l1).
    + intros [= <- <-]. split; [done|].
      apply not_elem_of_dom. apply not_elem_of_dom in Hl. 
      destruct (h0 !! l) as [k|] eqn:Hh0; [|done].
      apply (lookup_weaken _ _ _ _ Hh0) in Hsub. 
      apply not_elem_of_dom in Hl. congruence.
Qed.

Lemma copy_sequence_inv h0 st ls st' ls' :
  copy_inv h0 st → copy_sequence st ls = (st', ls') →
  copy_inv h0 st' ∧ ∀ l, l ∈ ls' → l ∉ dom h0.
Proof.
  revert st st' ls'. induction ls as [|l ls IH]; intros st st' ls' Hinv; simpl.
  - intros [= <- <-]. split; [done|]. intros l Hl. by apply elem_of_nil in Hl.
  - destruct (copy_keyframe st l) as [st1 l1] eqn:Hk.
    destruct (copy_sequence st1 ls) as [st2 ls2] eqn:Hs.
    intros [= <- <-].
    destruct (copy_keyframe_inv _ _ _ _ _ Hinv Hk) as [Hinv1 Hl1].
    destruct (IH _ _ _ Hinv1 Hs) as [Hinv2 Hls2]. split; [done|].
    intros l' Hl'. apply elem_of_cons in Hl' as [->|Hl']; [done|by apply Hls2].
Qed.

Lemma copy_box_inv h0 st box_ st' box' :
  copy_inv h0 st → copy_box st box_ = (st', box') →
  copy_inv h0 st' ∧ ∀ l, l ∈ box_locs box' → l ∉ dom h0.
Proof.
  revert st st' box'. induction box_ as [|s box_ IH]; intros st st' box' Hinv; simpl.
  - intros [= <- <-]. split; [done|]. intros l Hl. by apply elem_of_nil in Hl.
  - destruct (copy_sequence st (ref_sequence s)) as [st1 ls] eqn:Hs.
    destruct (copy_box st1 box_) as [st2 box2] eqn:Hb.
    intros [= <- <-].
    destruct (copy_sequence_inv _ _ _ _ _ Hinv Hs) as [Hinv1 Hls].
    destruct (IH _ _ _ Hinv1 Hb) as [Hinv2 Hbox2]. split; [done|].
    intros l. unfold box_locs. cbn [mbind list_bind ref_sequence].
    rewrite elem_of_app. intros [Hl|Hl]; [by apply Hls|by apply Hbox2].
Qed.

Lemma deepcopy_fresh h box_ h1 box_copy :
  deepcopy h box_ = (h1, box_copy) →
  h ⊆ h1 ∧ ∀ l, l ∈ box_locs box_copy → l ∉ dom h.
Proof.
  unfold deepcopy. destruct (copy_box (h, ∅) box_) as [st box'] eqn:Hc.
  intros [= <- <-].
  destruct (copy_box_inv h (h, ∅) box_ st box') as [[Hsub _] Hlocs]; [|done|done].
  split; [done|]. intros l l' Hl. simpl in Hl. by rewrite lookup_empty in Hl.
Qed.

Lemma process_seq_heap_grows h0 label st l :
  h0 ⊆ st.1.1 → l ∉ dom h0 → h0 ⊆ (process_seq_heap label st l).1.1.
Proof.
  destruct st as [[h fd] prev]. simpl. intros Hsub Hl.
  destruct (h !! l) as [seq0|] eqn:Hh; [|done]. simpl.
  apply map_subseteq_spec. intros l0 k Hl0.
  rewrite lookup_insert_ne.
  - by apply (lookup_weaken _ _ _ _ Hl0).
  - intros ->. apply Hl. apply elem_of_dom. by exists k.
Qed.

Lemma foldl_process_seq_heap_grows h0 label st ls :
  h0 ⊆ st.1.1 → (∀ l, l ∈ ls → l ∉ dom h0) →
  h0 ⊆ (foldl (process_seq_heap label) st ls).1.1.
Proof.
  revert st. induction ls as [|l ls IH]; intros st Hsub Hls; [done|].
  simpl. apply IH.
  - apply process_seq_heap_grows; [done|]. apply Hls, list_elem_of_here.
  - intros l' Hl'. by apply Hls, list_elem_of_further.
Qed.

Lemma aggregate_heap_grows h0 labels_dict h fd box_ :
  h0 ⊆ h → (∀ l, l ∈ box_locs box_ → l ∉ dom h0) →
  h0 ⊆ (aggregate_heap labels_dict h fd box_).1.
Proof.
  revert h fd. induction box_ as [|s box_ IH]; intros h fd Hsub Hlocs; [done|].
  simpl. destruct (subject_label labels_dict (load_subject h s)); [|done].
  apply IH.
  - apply foldl_process_seq_heap_grows; [done|].
    intros l Hl. apply Hlocs. unfold box_locs. cbn [mbind list_bind].
    apply elem_of_app. by left.
  - intros l Hl. apply Hlocs. unfold box_locs. cbn [mbind list_bind].
    apply elem_of_app. by right.
Qed.

(** ** The store model computes what the value model computes

    When no key frame is referred to twice, [main] over the store gives the
    outcome of [main] over the bundle the store holds. *)

Lemma omap_lookup_cons (h : heap) (l : loc) (ls : list loc) (k : keyframe) :
  h !! l = Some k → omap (h !!.) (l :: ls) = k :: omap (h !!.) ls.
Proof. intros Hl. csimpl. by rewrite Hl. Qed.

Lemma omap_lookup_ext (h h' : heap) (ls : list loc) :
  (∀ l, l ∈ ls → h' !! l = h !! l) → omap (h' !!.) ls = omap (h !!.) ls.
Proof.
  induction ls as [|l ls IH]; intros Hls; [done|]. csimpl.
  rewrite (Hls l) by apply list_elem_of_here.
  rewrite IH; [done|]. intros l' Hl'. by apply Hls, list_elem_of_further.
Qed.

Lemma foldl_process_seq_heap_refines label (ls : list loc) (h : heap)
    (fd : dict Z (list info)) (prev : option loc) :
  NoDup ls → (∀ l, l ∈ ls → l ∈ dom h) → (∀ l, prev = Some l → l ∉ ls) →
  let st := foldl (process_seq_heap label) (h, fd, prev) ls in
  (st.1.2, st.2 ≫= (st.1.1 !!.))
  = foldl (process_seq label) (fd, prev ≫= (h !!.)) (omap (h !!.) ls)
  ∧ (∀ l, l ∉ ls → st.1.1 !! l = h !! l)
  ∧ dom st.1.1 = dom h.
Proof.
  revert h fd prev. induction ls as [|l ls IH]; intros h fd prev Hnd Hdom Hprev.
  - simpl. done.
  - apply NoDup_cons in Hnd as [Hl Hnd].
    assert (Hin : l ∈ dom h) by apply Hdom, list_elem_of_here.
    apply elem_of_dom in Hin as [seq0 Hseq0].
    rewrite (omap_lookup_cons h l ls seq0 Hseq0).
    set (h' := <[l := normalize seq0]> h).
    assert (Hprev' : prev ≫= (h' !!.) = prev ≫= (h !!.)).
    { destruct prev as [p|]; [|done]. simpl. unfold h'.
      rewrite lookup_insert_ne; [done|]. intros <-.
      apply (Hprev l eq_refl), list_elem_of_here. }
    assert (Hstep : process_seq_heap label (h, fd, prev) l
                    = (h',
                       foldl (λ fd fi, files_dict_add fd fi.1 fi.2) fd
                         (seq_lines (prev ≫= (h !!.)) (normalize seq0) label),
                       Some l)).
    { unfold process_seq_heap. rewrite Hseq0. fold h'. by rewrite Hprev'. }
    cbn [foldl]. rewrite Hstep.
    assert (Hrest : omap (h !!.) ls = omap (h' !!.) ls).
    { symmetry. apply omap_lookup_ext. intros l' Hl'. unfold h'.
      rewrite lookup_insert_ne; [done|]. by intros <-. }
    rewrite Hrest.
    destruct (IH h'
                (foldl (λ fd fi, files_dict_add fd fi.1 fi.2) fd
                   (seq_lines (prev ≫= (h !!.)) (normalize seq0) label))
                (Some l)) as (Heq & Hkeep & Hd).
    + done.
    + intros l' Hl'. unfold h'. rewrite dom_insert_L. apply elem_of_union. right.
      by apply Hdom, list_elem_of_further.
    + by intros ? [= <-].
    + split_and!.
      * rewrite Heq. f_equal. unfold process_seq. simpl. f_equal.
        unfold h'. by rewrite lookup_insert_eq.
      * intros l' Hl'. apply not_elem_of_cons in Hl' as [Hne Hl'].
        rewrite Hkeep by done. unfold h'. by rewrite lookup_insert_ne.
      * rewrite Hd. unfold h'. rewrite dom_insert_L.
        apply set_eq. intros x. rewrite elem_of_union, elem_of_singleton.
        split; [intros [->|?]; [|done]|by right].
        apply elem_of_dom. by exists seq0.
Qed.

Lemma aggregate_heap_refines labels_dict (box_ : list subject_ref) (h : heap)
    (fd : dict Z (list info)) :
  NoDup (box_locs box_) → (∀ l, l ∈ box_locs box_ → l ∈ dom h) →
  (aggregate_heap labels_dict h fd box_).2
  = for_each (process_subject labels_dict) fd (load_subject h <$> box_).
Proof.
  revert h fd. induction box_ as [|s box_ IH]; intros h fd Hnd Hdom; [done|].
  unfold box_locs in Hnd, Hdom. cbn [mbind list_bind] in Hnd, Hdom.
  fold (box_locs box_) in Hnd, Hdom.
  apply NoDup_app in Hnd as (Hnd_s & Hdisj & Hnd_box).
  cbn [aggregate_heap fmap list_fmap for_each].
  unfold process_subject at 1.
  destruct (subject_label labels_dict (load_subject h s)) as [label|e]; [|done].
  simpl bind.
  destruct (foldl_process_seq_heap_refines label (ref_sequence s) h fd None)
    as (Heq & Hkeep & Hd).
  { done. }
  { intros l Hl. apply Hdom, elem_of_app. by left. }
  { done. }
  set (st := foldl (process_seq_heap label) (h, fd, None) (ref_sequence s)) in *.
  rewrite IH.
  - change (sequence (load_subject h s)) with (omap (h !!.) (ref_sequence s)).
    simpl in Heq. rewrite <- Heq. simpl. f_equal.
    apply list_fmap_ext. intros i s' Hs'. unfold load_subject. f_equal.
    apply omap_lookup_ext. intros l Hl. apply Hkeep. intros Hl_s.
    apply (Hdisj l Hl_s). unfold box_locs. apply list_elem_of_bind.
    exists s'. split; [done|]. by apply list_elem_of_lookup_2 in Hs'.
  - done.
  - intros l Hl. rewrite Hd. apply Hdom, elem_of_app. by right.
Qed.

Lemma lookup_subseteq_dom (h h' : heap) (l : loc) :
  h ⊆ h' → l ∈ dom h → h' !! l = h !! l.
Proof.
  intros Hsub Hl. apply elem_of_dom in Hl as [k Hk].
  rewrite Hk. by apply (lookup_weaken _ _ _ _ Hk).
Qed.

Lemma omap_lookup_subseteq (h h' : heap) (ls : list loc) :
  h ⊆ h' → (∀ l, l ∈ ls → l ∈ dom h) → omap (h' !!.) ls = omap (h !!.) ls.
Proof.
  intros Hsub Hls. apply omap_lookup_ext. intros l Hl.
  by apply lookup_subseteq_dom, Hls.
Qed.

Lemma copy_keyframe_miss st l :
  l ∈ dom st.1 → st.2 !! l = None →
  ∃ k, st.1 !! l = Some k
       ∧ copy_keyframe st l
         = ((<[fresh (dom st.1) := k]> st.1, <[l := fresh (dom st.1)]> st.2),
            fresh (dom st.1)).
Proof.
  intros Hl Hm. apply elem_of_dom in Hl as [k Hk]. exists k. split; [done|].
  unfold copy_keyframe. by rewrite Hm, Hk.
Qed.

Lemma copy_sequence_distinct st ls st' ls' :
  copy_sequence st ls = (st', ls') →
  NoDup ls → (∀ l, l ∈ ls → l ∈ dom st.1 ∧ st.2 !! l = None) →
  st.1 ⊆ st'.1
  ∧ NoDup ls'
  ∧ (∀ l', l' ∈ ls' → (l' ∉ dom st.1) ∧ l' ∈ dom st'.1)
  ∧ omap (st'.1 !!.) ls' = omap (st.1 !!.) ls
  ∧ (∀ l, l ∉ ls → st'.2 !! l = st.2 !! l).
Proof.
  revert st st' ls'. induction ls as [|l ls IH]; intros st st' ls' Hc Hnd Hls.
  - injection Hc as <- <-. split_and!; [done|apply NoDup_nil_2| |done|done].
    intros l' Hl'. by apply elem_of_nil in Hl'.
  - apply NoDup_cons in Hnd as [Hl Hnd].
    destruct (Hls l) as [Hdom Hmemo]; [apply list_elem_of_here|].
    destruct (copy_keyframe_miss st l Hdom Hmemo) as (k & Hk & Hcopy).
    cbn [copy_sequence] in Hc. rewrite Hcopy in Hc.
    set (l1 := fresh (dom st.1)) in *.
    set (st1 := (<[l1 := k]> st.1, <[l := l1]> st.2)) in *.
    destruct (copy_sequence st1 ls) as [st2 ls2] eqn:Hrest.
    injection Hc as <- <-.
    assert (Hfresh : l1 ∉ dom st.1) by apply is_fresh.
    assert (Hsub1 : st.1 ⊆ st1.1).
    { apply insert_subseteq. by apply not_elem_of_dom. }
    destruct (IH st1 st2 ls2 Hrest Hnd) as (Hsub & Hnd2 & Hnew & Hload & Hmemo2).
    { intros l' Hl'. destruct (Hls l') as [Hd' Hm']; [by apply list_elem_of_further|].
      split.
      - by apply (subseteq_dom _ _ Hsub1).
      - unfold st1. simpl. rewrite lookup_insert_ne; [done|]. by intros <-. }
    assert (Hl1 : l1 ∈ dom st1.1).
    { unfold st1. simpl. rewrite dom_insert_L. apply elem_of_union. left.
      by apply elem_of_singleton. }
    split_and!.
    + by etrans.
    + apply NoDup_cons. split; [|done]. intros Hin.
      by destruct (Hnew l1 Hin) as [Hne _].
    + intros l' Hl'. apply elem_of_cons in Hl' as [->|Hl'].
      * split; [done|]. by apply (subseteq_dom _ _ Hsub).
      * destruct (Hnew l' Hl') as [Hne Hin]. split; [|done].
        intros Hd. apply Hne. by apply (subseteq_dom _ _ Hsub1).
    + rewrite (omap_lookup_cons st.1 l ls k Hk).
      assert (Hk1 : st2.1 !! l1 = Some k).
      { apply (lookup_weaken st1.1); [|done]. unfold st1. simpl.
        apply lookup_insert_eq. }
      rewrite (omap_lookup_cons st2.1 l1 ls2 k Hk1). f_equal.
      rewrite Hload. apply omap_lookup_subseteq; [done|].
      intros l' Hl'. by apply Hls, list_elem_of_further.
    + intros l' Hl'. apply not_elem_of_cons in Hl' as [Hne Hl'].
      rewrite Hmemo2 by done. unfold st1. simpl. by rewrite lookup_insert_ne.
Qed.

Lemma load_subject_subseteq (h h' : heap) (box_ : list subject_ref) :
  h ⊆ h' → (∀ l, l ∈ box_locs box_ → l ∈ dom h) →
  load_subject h' <$> box_ = load_subject h <$> box_.
Proof.
  intros Hsub Hdom. apply list_fmap_ext. intros i s Hs.
  unfold load_subject. f_equal. apply omap_lookup_subseteq; [done|].
  intros l Hl. apply Hdom. unfold box_locs. apply list_elem_of_bind.
  exists s. split; [done|]. by apply list_elem_of_lookup_2 in Hs.
Qed.

Lemma copy_box_distinct st box_ st' box' :
  copy_box st box_ = (st', box') →
  NoDup (box_locs box_) →
  (∀ l, l ∈ box_locs box_ → l ∈ dom st.1 ∧ st.2 !! l = None) →
  st.1 ⊆ st'.1
  ∧ NoDup (box_locs box')
  ∧ (∀ l', l' ∈ box_locs box' → (l' ∉ dom st.1) ∧ l' ∈ dom st'.1)
  ∧ load_subject st'.1 <$> box' = load_subject st.1 <$> box_
  ∧ (∀ l, l ∉ box_locs box_ → st'.2 !! l = st.2 !! l).
Proof.
  revert st st' box'. induction box_ as [|s box_ IH]; intros st st' box' Hc Hnd Hlocs.
  - injection Hc as <- <-. split_and!; [done|apply NoDup_nil_2| |done|done].
    intros l' Hl'. by apply elem_of_nil in Hl'.
  - unfold box_locs in Hnd, Hlocs. cbn [mbind list_bind] in Hnd, Hlocs.
    fold (box_locs box_) in Hnd, Hlocs.
    apply NoDup_app in Hnd as (Hnd_s & Hdisj & Hnd_box).
    cbn [copy_box] in Hc.
    destruct (copy_sequence st (ref_sequence s)) as [st1 ls1] eqn:Hseq.
    destruct (copy_box st1 box_) as [st2 box2] eqn:Hbox.
    injection Hc as <- <-.
    destruct (copy_sequence_distinct _ _ _ _ Hseq Hnd_s)
      as (Hsub1 & Hnd1 & Hnew1 & Hload1 & Hmemo1).
    { intros l Hl. apply Hlocs, elem_of_app. by left. }
    destruct (IH st1 st2 box2 Hbox Hnd_box) as (Hsub2 & Hnd2 & Hnew2 & Hload2 & Hmemo2).
    { intros l Hl. destruct (Hlocs l) as [Hd Hm]; [apply elem_of_app; by right|].
      split; [by apply (subseteq_dom _ _ Hsub1)|].
      rewrite Hmemo1; [done|]. intros Hl_s. by apply (Hdisj l Hl_s). }
    unfold box_locs. cbn [mbind list_bind ref_sequence]. fold (box_locs box2).
    split_and!.
    + by etrans.
    + apply NoDup_app. split_and!; [done| |done].
      intros l' Hl1 Hl2. destruct (Hnew1 l' Hl1) as [_ Hin].
      by destruct (Hnew2 l' Hl2) as [Hne _].
    + intros l' Hl'. apply elem_of_app in Hl' as [Hl'|Hl'].
      * destruct (Hnew1 l' Hl') as [Hne Hin]. split; [done|].
        by apply (subseteq_dom _ _ Hsub2).
      * destruct (Hnew2 l' Hl') as [Hne Hin]. split; [|done].
        intros Hd. apply Hne. by apply (subseteq_dom _ _ Hsub1).
    + cbn [fmap list_fmap]. f_equal.
      * unfold load_subject. cbn [ref_labels ref_framesCount ref_sequence]. f_equal.
        rewrite <- Hload1. apply omap_lookup_subseteq; [done|].
        intros l' Hl'. by apply Hnew1.
      * rewrite Hload2. apply load_subject_subseteq; [done|].
        intros l Hl. apply Hlocs, elem_of_app. by right.
    + intros l Hl. apply not_elem_of_app in Hl as [Hl1 Hl2].
      rewrite Hmemo2 by done. by apply Hmemo1.
Qed.

(** On a store where no key frame is referred to twice, the outcome of
    [main] over the store is the outcome of [main] over the bundle read from
    the store. *)
Lemma main_heap_refines (E : env) (h : heap) (v : video_ref) (offset : Z)
    (labels : list string) :
  NoDup (box_locs (ref_box v)) → (∀ l, l ∈ box_locs (ref_box v) → l ∈ dom h) →
  (main_heap E h v offset labels).2 = main E (load_video h v) offset labels.
Proof.
  intros Hnd Hdom. unfold main_heap, main, prepare.
  change (video (load_video h v)) with (ref_video v).
  destruct (available_frames (box (load_video h v))) as [avail|e]; [|done].
  unfold deepcopy.
  destruct (copy_box (h, ∅) (ref_box v)) as [st box_copy] eqn:Hcopy.
  destruct (copy_box_distinct _ _ _ _ Hcopy Hnd) as (Hsub & Hnd' & Hnew & Hload & _).
  { intros l Hl. split; [by apply Hdom|]. simpl. apply lookup_empty. }
  pose proof (aggregate_heap_refines (make_labels_dict labels) box_copy st.1 [] Hnd')
    as Hagg.
  destruct (aggregate_heap (make_labels_dict labels) st.1 [] box_copy) as [h2 r].
  simpl in Hagg. simpl. rewrite Hagg.
  - unfold aggregate. simpl in Hload. by rewrite Hload.
  - intros l Hl. by apply Hnew.
Qed.

(** C10. Whatever the store and the bundle, every key frame that was in the
    store when [main] was called is there unchanged when it is done, so the
    bundle reads back as it was, percentages and top-left corners included:
    the normalization assigns only to the key frames of the deep copy, which
    sit at locations that were not in the store before. The outcome is the
    one computed from the values of the bundle when no key frame is referred
    to twice. *)
Theorem input_immutability (E : env) (h : heap) (v : video_ref) (offset : Z)
    (labels : list string) :
  let h' := (main_heap E h v offset labels).1 in
  (∀ l k, h !! l = Some k → h' !! l = Some k)
  ∧ (∀ l, h' !! l ≠ h !! l → l ∉ dom h)
  ∧ ((∀ l, l ∈ box_locs (ref_box v) → l ∈ dom h) →
     load_video h' v = load_video h v)
  ∧ (NoDup (box_locs (ref_box v)) →
     (∀ l, l ∈ box_locs (ref_box v) → l ∈ dom h) →
     (main_heap E h v offset labels).2 = main E (load_video h v) offset labels).
Proof.
  assert (Hsub : h ⊆ (main_heap E h v offset labels).1).
  { unfold main_heap.
    destruct (available_frames (box (load_video h v))); [|done].
    destruct (deepcopy h (ref_box v)) as [h1 box_copy] eqn:Hcopy.
    apply deepcopy_fresh in Hcopy as [Hsub Hfresh].
    pose proof (aggregate_heap_grows h (make_labels_dict labels) h1 [] box_copy
                  Hsub Hfresh) as Hgrow.
    by destruct (aggregate_heap (make_labels_dict labels) h1 [] box_copy). }
  intros h'. fold h' in Hsub.
  assert (Hkeep : ∀ l k, h !! l = Some k → h' !! l = Some k).
  { intros l k Hl. by apply (lookup_weaken _ _ _ _ Hl). }
  split_and!; [done| | |by apply main_heap_refines].
  - intros l Hne Hin. apply elem_of_dom in Hin as [k Hk].
    apply Hne. rewrite Hk. by apply Hkeep.
  - intros Hdom. unfold load_video. f_equal. apply list_fmap_ext. intros i s Hs.
    unfold load_subject. f_equal.
    assert (Hls : ∀ l, l ∈ ref_sequence s → l ∈ dom h).
    { intros l Hl. apply Hdom. unfold box_locs. apply list_elem_of_bind.
      exists s. split; [done|]. by apply list_elem_of_lookup_2 in Hs. }
    induction (ref_sequence s) as [|l ls IH]; [done|]. csimpl.
    assert (Hin : l ∈ dom h) by apply Hls, list_elem_of_here.
    apply elem_of_dom in Hin as [k Hk].
    rewrite Hk, (Hkeep l k Hk). csimpl. f_equal.
    apply IH. intros l' Hl'. by apply Hls, list_elem_of_further.
Qed.


(** ** [Decimal] operations that do not round *)

Lemma ndigits_go_upper (fuel : nat) (n k : Z) :
  0 ≤ n < 10 ^ k → 1 ≤ k → ndigits_go fuel n ≤ k.
Proof.
  revert n k. induction fuel as [|fuel IH]; intros n k Hn Hk; simpl; [lia|].
  destruct (Z.ltb_spec n 10) as [Hlt|Hge]; [lia|].
  assert (2 ≤ k).
  { destruct (decide (k = 1)) as [->|]; [|lia]. change (10 ^ 1) with 10 in Hn. lia. }
  assert (ndigits_go fuel (n / 10) ≤ k - 1); [|lia].
  apply IH; [|lia]. split; [apply Z.div_pos; lia|].
  apply Z.div_lt_upper_bound; [lia|].
  replace k with (Z.succ (k - 1)) in Hn by lia. rewrite Z.pow_succ_r in Hn by lia. lia.
Qed.

Lemma ndigits_go_lower (fuel : nat) (n : Z) :
  1 ≤ n → 1 ≤ ndigits_go fuel n ∧ 10 ^ (ndigits_go fuel n - 1) ≤ n.
Proof.
  revert n. induction fuel as [|fuel IH]; intros n Hn; simpl.
  - change (10 ^ (1 - 1)) with 1. lia.
  - destruct (Z.ltb_spec n 10) as [Hlt|Hge].
    + change (10 ^ (1 - 1)) with 1. lia.
    + destruct (IH (n / 10)) as [H1 H2].
      { apply Z.div_le_lower_bound; lia. }
      split; [lia|].
      replace (1 + ndigits_go fuel (n / 10) - 1)
        with (Z.succ (ndigits_go fuel (n / 10) - 1)) by lia.
      rewrite Z.pow_succ_r by lia.
      pose proof (Z.mul_div_le n 10). lia.
Qed.

Lemma ndigits_go_enough (fuel : nat) (n : Z) :
  0 ≤ n < 2 ^ Z.of_nat fuel → n < 10 ^ ndigits_go fuel n.
Proof.
  revert n. induction fuel as [|fuel IH]; intros n Hn.
  - simpl in *. lia.
  - cbn [ndigits_go]. destruct (Z.ltb_spec n 10) as [Hlt|Hge].
    + change (10 ^ 1) with 10. lia.
    + assert (Hdiv : 0 ≤ n / 10 < 2 ^ Z.of_nat fuel).
      { split; [apply Z.div_pos; lia|]. apply Z.div_lt_upper_bound; [lia|].
        rewrite Nat2Z.inj_succ, Z.pow_succ_r in Hn by lia. lia. }
      specialize (IH _ Hdiv).
      assert (1 ≤ ndigits_go fuel (n / 10)).
      { apply ndigits_go_lower. apply Z.div_le_lower_bound; lia. }
      replace (1 + ndigits_go fuel (n / 10))
        with (Z.succ (ndigits_go fuel (n / 10))) by lia.
      rewrite Z.pow_succ_r by lia.
      pose proof (Z.div_mod n 10). pose proof (Z.mod_pos_bound n 10). lia.
Qed.

(** [ndigits] counts the decimal digits: [10^(len-1) <= n < 10^len]. *)
Lemma ndigits_spec (n : Z) :
  1 ≤ n → 1 ≤ ndigits n ∧ 10 ^ (ndigits n - 1) ≤ n < 10 ^ ndigits n.
Proof.
  intros Hn. unfold ndigits.
  destruct (ndigits_go_lower (S (Z.to_nat (Z.log2 n))) n Hn) as [H1 H2].
  split_and!; [done..|]. apply ndigits_go_enough. split; [lia|].
  rewrite Nat2Z.inj_succ, Z2Nat.id by apply Z.log2_nonneg.
  apply Z.log2_spec. lia.
Qed.

Lemma ndigits_le (n k : Z) : 0 ≤ n < 10 ^ k → 1 ≤ k → ndigits n ≤ k.
Proof. apply ndigits_go_upper. Qed.

(** A coefficient of at most 28 digits is left as it is. *)
Lemma dfix_small (d : Decimal) : Z.abs (coef d) < 10 ^ prec → dfix d = d.
Proof.
  intros Hc. unfold dfix.
  assert (Hlen : ndigits (Z.abs (coef d)) ≤ prec).
  { apply ndigits_le; [lia|done]. }
  destruct (Z.abs (coef d) =? 0); [done|]. simpl.
  destruct (Z.leb_spec (ndigits (Z.abs (coef d))) prec); [done|lia].
Qed.

Lemma dmul_small (a b : Decimal) :
  Z.abs (coef a * coef b) < 10 ^ prec →
  dmul a b = mkDecimal (coef a * coef b) (dexp a + dexp b).
Proof. intros Hc. unfold dmul. by apply dfix_small. Qed.

Lemma pow10_pos (k : Z) : 0 ≤ k → 0 < 10 ^ k.
Proof. intros. apply Z.pow_pos_nonneg; lia. Qed.

(** A nonzero coefficient that stays below [10^28] when shifted by [k]
    places has at most [28 - k] digits. *)
Lemma ndigits_shift (c k : Z) :
  c ≠ 0 → 0 ≤ k → Z.abs c * 10 ^ k < 10 ^ prec →
  1 ≤ ndigits (Z.abs c) ∧ ndigits (Z.abs c) + k ≤ prec.
Proof.
  intros Hc Hk Hlt.
  destruct (ndigits_spec (Z.abs c)) as (H1 & H2 & _); [lia|]. split; [done|].
  assert (Hpow : 10 ^ (ndigits (Z.abs c) - 1 + k) < 10 ^ prec).
  { rewrite Z.pow_add_r by lia. pose proof (pow10_pos k Hk). nia. }
  apply Z.pow_lt_mono_r_iff in Hpow; [lia|lia|done].
Qed.

Lemma dnormalize_small (a b : Decimal) :
  let m := Z.min (dexp a) (dexp b) in
  coef a ≠ 0 → coef b ≠ 0 →
  Z.abs (coef a) * 10 ^ (dexp a - m) + Z.abs (coef b) * 10 ^ (dexp b - m) < 10 ^ prec →
  dnormalize a b = (coef a * 10 ^ (dexp a - m), coef b * 10 ^ (dexp b - m), m).
Proof.
  intros m Ha Hb Hlt. unfold dnormalize.
  assert (Hm0 : m ≤ dexp a ∧ m ≤ dexp b) by (unfold m; lia).
  assert (Hpa : 0 < 10 ^ (dexp a - m)) by (apply pow10_pos; lia).
  assert (Hpb : 0 < 10 ^ (dexp b - m)) by (apply pow10_pos; lia).
  assert (Hna : 0 ≤ Z.abs (coef a) * 10 ^ (dexp a - m)) by (apply Z.mul_nonneg_nonneg; lia).
  assert (Hnb : 0 ≤ Z.abs (coef b) * 10 ^ (dexp b - m)) by (apply Z.mul_nonneg_nonneg; lia).
  destruct (Z.ltb_spec (dexp a) (dexp b)) as [Hab|Hab]; cbv zeta beta iota.
  - assert (Hm : m = dexp a) by (unfold m; lia).
    destruct (ndigits_shift (coef b) (dexp b - m)) as [Hb1 Hb2]; [done|lia|lia|].
    destruct (ndigits_spec (Z.abs (coef a))) as (Ha1 & _); [lia|].
    destruct (Z.ltb_spec (ndigits (Z.abs (coef a)) + dexp a - 1)
                (dexp b + Z.min (-1) (ndigits (Z.abs (coef b)) - prec - 2)))
      as [Hrep|Hkeep]; [unfold prec in *; lia|].
    rewrite Hm. replace (dexp a - dexp a) with 0 by lia.
    rewrite Z.pow_0_r, Z.mul_1_r. done.
  - assert (Hm : m = dexp b) by (unfold m; lia).
    destruct (ndigits_shift (coef a) (dexp a - m)) as [Ha1 Ha2]; [done|lia|lia|].
    destruct (ndigits_spec (Z.abs (coef b))) as (Hb1 & _); [lia|].
    destruct (Z.ltb_spec (ndigits (Z.abs (coef b)) + dexp b - 1)
                (dexp a + Z.min (-1) (ndigits (Z.abs (coef a)) - prec - 2)))
      as [Hrep|Hkeep]; [unfold prec in *; lia|].
    rewrite Hm. replace (dexp b - dexp b) with 0 by lia.
    rewrite Z.pow_0_r, Z.mul_1_r. done.
Qed.

(** A sum whose aligned coefficients stay below [10^28] is exact. *)
Lemma dadd_small (a b : Decimal) :
  let m := Z.min (dexp a) (dexp b) in
  Z.abs (coef a) * 10 ^ (dexp a - m) + Z.abs (coef b) * 10 ^ (dexp b - m) < 10 ^ prec →
  ∃ c e, dadd a b = mkDecimal c e
         ∧ m ≤ e ≤ Z.max (dexp a) (dexp b)
         ∧ c * 10 ^ (e - m)
           = coef a * 10 ^ (dexp a - m) + coef b * 10 ^ (dexp b - m).
Proof.
  intros m Hlt. unfold dadd. fold m.
  assert (Hm : m ≤ dexp a ∧ m ≤ dexp b) by (unfold m; lia).
  assert (Hpa : 0 < 10 ^ (dexp a - m)) by (apply pow10_pos; lia).
  assert (Hpb : 0 < 10 ^ (dexp b - m)) by (apply pow10_pos; lia).
  destruct (Z.eqb_spec (coef a) 0) as [Ha|Ha];
    destruct (Z.eqb_spec (coef b) 0) as [Hb|Hb]; cbn [andb].
  - exists 0, m. rewrite dfix_small by done.
    split_and!; [done|lia|lia|]. rewrite Ha, Hb. lia.
  - set (e' := Z.max m (dexp b - prec - 1)).
    assert (He' : m ≤ e' ≤ dexp b) by (unfold e', m, prec; lia).
    assert (Hp : 0 < 10 ^ (dexp b - e')) by (apply pow10_pos; lia).
    assert (Hsplit : 10 ^ (dexp b - m) = 10 ^ (dexp b - e') * 10 ^ (e' - m)).
    { rewrite <- Z.pow_add_r by lia. f_equal. lia. }
    assert (Hp' : 0 < 10 ^ (e' - m)) by (apply pow10_pos; lia).
    exists (coef b * 10 ^ (dexp b - e')), e'. rewrite dfix_small.
    + split_and!; [done|lia|lia|]. rewrite Ha, Hsplit. lia.
    + simpl. rewrite Z.abs_mul, (Z.abs_eq (10 ^ _)) by lia.
      rewrite Ha, Hsplit in Hlt. simpl in Hlt. nia.
  - set (e' := Z.max m (dexp a - prec - 1)).
    assert (He' : m ≤ e' ≤ dexp a) by (unfold e', m, prec; lia).
    assert (Hp : 0 < 10 ^ (dexp a - e')) by (apply pow10_pos; lia).
    assert (Hsplit : 10 ^ (dexp a - m) = 10 ^ (dexp a - e') * 10 ^ (e' - m)).
    { rewrite <- Z.pow_add_r by lia. f_equal. lia. }
    assert (Hp' : 0 < 10 ^ (e' - m)) by (apply pow10_pos; lia).
    exists (coef a * 10 ^ (dexp a - e')), e'. rewrite dfix_small.
    + split_and!; [done|lia|lia|]. rewrite Hb, Hsplit. lia.
    + simpl. rewrite Z.abs_mul, (Z.abs_eq (10 ^ _)) by lia.
      rewrite Hb, Hsplit in Hlt. simpl in Hlt. nia.
  - rewrite (dnormalize_small a b Ha Hb Hlt). fold m.
    exists (coef a * 10 ^ (dexp a - m) + coef b * 10 ^ (dexp b - m)), m.
    replace (m - m) with 0 by lia. rewrite Z.pow_0_r, Z.mul_1_r.
    split_and!; [|lia|lia|done].
    destruct (Z.eqb_spec (coef a * 10 ^ (dexp a - m) + coef b * 10 ^ (dexp b - m)) 0)
      as [Hz|Hnz].
    + rewrite Hz. by apply dfix_small.
    + apply dfix_small. simpl. 
      rewrite <- (Z.abs_eq (10 ^ (dexp a - m))), <- (Z.abs_eq (10 ^ (dexp b - m))),
        <- !Z.abs_mul in Hlt by lia.
      pose proof (Z.abs_triangle (coef a * 10 ^ (dexp a - m))
                    (coef b * 10 ^ (dexp b - m))). lia.
Qed.

(** The loop that drops trailing zeros of an exact quotient: it drops at
    least the [n] zeros that are known to be there, and keeps the value. *)
Lemma strip_zeros_spec (fuel : nat) (c e ideal m0 n : Z) :
  0 ≤ n ≤ Z.of_nat fuel → c = m0 * 10 ^ n → e + n ≤ ideal →
  ∃ i, n ≤ i
       ∧ (strip_zeros fuel c e ideal).1 * 10 ^ i = c
       ∧ (strip_zeros fuel c e ideal).2 = e + i
       ∧ e + i ≤ ideal.
Proof.
  revert c e m0 n. induction fuel as [|fuel IH]; intros c e m0 n Hn Hc He.
  - exists 0. simpl. split_and!; [lia|lia|lia|lia].
  - cbn [strip_zeros].
    destruct (Z.ltb_spec e ideal) as [Hlt|Hge];
      [destruct (Z.eqb_spec (c mod 10) 0) as [Hmod|Hmod]|]; cbn [andb].
    + assert (Hc10 : c = 10 * (c / 10)).
      { pose proof (Z.div_mod c 10). lia. }
      destruct (decide (n = 0)) as [->|Hn0].
      * destruct (IH (c / 10) (e + 1) (c / 10) 0) as (i & Hi & Hval & Hexp & Hle);
          [lia|lia|lia|].
        exists (i + 1). rewrite Z.pow_add_r, Z.pow_1_r by lia.
        split_and!; [lia|lia|lia|lia].
      * destruct (IH (c / 10) (e + 1) m0 (n - 1)) as (i & Hi & Hval & Hexp & Hle);
          [lia| |lia|].
        { rewrite Hc. replace n with (Z.succ (n - 1)) at 1 by lia.
          rewrite Z.pow_succ_r by lia.
          replace (m0 * (10 * 10 ^ (n - 1))) with (m0 * 10 ^ (n - 1) * 10) by lia.
          by rewrite Z.div_mul. }
        exists (i + 1). rewrite Z.pow_add_r, Z.pow_1_r by lia.
        split_and!; [lia|lia|lia|lia].
    + assert (n = 0) as ->.
      { destruct (decide (n = 0)) as [|Hn0]; [done|]. exfalso. apply Hmod.
        rewrite Hc. replace n with (Z.succ (n - 1)) by lia.
        rewrite Z.pow_succ_r by lia.
        replace (m0 * (10 * 10 ^ (n - 1))) with (m0 * 10 ^ (n - 1) * 10) by lia.
        apply Z.mod_mul. lia. }
      exists 0. simpl. split_and!; [lia|lia|lia|lia].
    + exists 0. assert (n = 0) as -> by lia. simpl. split_and!; [lia|lia|lia|lia].
Qed.

(** The quotient of two positive integers [k < d] is exact when it has at
    most 28 decimal places. *)
Lemma ddiv_int_small (k d j : Z) :
  0 < k < d → 0 ≤ j ≤ prec → (k * 10 ^ j) mod d = 0 →
  ∃ c e, ddiv (Decimal_of_int k) (Decimal_of_int d) = mkDecimal c e
         ∧ - j ≤ e ≤ 0 ∧ 0 ≤ c < 10 ^ (- e) ∧ c * d = k * 10 ^ (- e).
Proof.
  intros Hk Hj Hdiv. unfold ddiv, Decimal_of_int. cbn [coef dexp].
  destruct (Z.eqb_spec d 0) as [|_]; [lia|].
  destruct (Z.eqb_spec k 0) as [|_]; [lia|].
  rewrite (Z.abs_eq k), (Z.abs_eq d) by lia.
  destruct (ndigits_spec k) as (Hk1 & Hk2 & Hk3); [lia|].
  destruct (ndigits_spec d) as (Hd1 & Hd2 & Hd3); [lia|].
  assert (Hlen : ndigits k ≤ ndigits d).
  { assert (Hpow : 10 ^ (ndigits k - 1) < 10 ^ ndigits d) by lia.
    apply Z.pow_lt_mono_r_iff in Hpow; lia. }
  set (shift := ndigits d - ndigits k + prec + 1).
  assert (Hshift : j ≤ shift ∧ 0 ≤ shift) by (unfold shift, prec in *; lia).
  destruct (Z.leb_spec 0 shift) as [_|]; [|lia].
  destruct (Z.div_eucl (k * 10 ^ shift) d) as [q r] eqn:Heucl.
  assert (Hq : q = (k * 10 ^ shift) / d) by (unfold Z.div; by rewrite Heucl).
  assert (Hr : r = (k * 10 ^ shift) mod d) by (unfold Z.modulo; by rewrite Heucl).
  assert (Hsplit : 10 ^ shift = 10 ^ j * 10 ^ (shift - j)).
  { rewrite <- Z.pow_add_r by lia. f_equal. lia. }
  assert (Hdivide : (d | k * 10 ^ j)) by (apply Z.mod_divide; [lia|done]).
  destruct Hdivide as [m0 Hm0].
  assert (Hprod : k * 10 ^ shift = m0 * 10 ^ (shift - j) * d).
  { rewrite Hsplit, Z.mul_assoc, Hm0. ring. }
  assert (Hr0 : r = 0).
  { rewrite Hr, Hprod. apply Z.mod_mul. lia. }
  assert (Hq0 : q = m0 * 10 ^ (shift - j)).
  { rewrite Hq, Hprod. apply Z.div_mul. lia. }
  rewrite Hr0. cbn [Z.eqb].
  replace (0 - 0 - shift) with (- shift) by lia. replace (0 - 0) with 0 by lia.
  destruct (strip_zeros_spec (Z.to_nat shift) q (- shift) 0 m0 (shift - j))
    as (i & Hi & Hval & Hexp & Hle); [lia|done|lia|].
  destruct (strip_zeros (Z.to_nat shift) q (- shift) 0) as [c e].
  cbn [fst snd] in Hval, Hexp. subst e.
  assert (Hsgn : Z.sgn k * Z.sgn d = 1).
  { rewrite !Z.sgn_pos by lia. done. }
  rewrite Hsgn, Z.mul_1_l.
  assert (Hpi : 0 < 10 ^ i) by (apply pow10_pos; lia).
  assert (Hsplit' : 10 ^ shift = 10 ^ i * 10 ^ (- (- shift + i))).
  { rewrite <- Z.pow_add_r by lia. f_equal. lia. }
  assert (Hcd : c * d = k * 10 ^ (- (- shift + i))).
  { assert (c * 10 ^ i * d = k * (10 ^ i * 10 ^ (- (- shift + i)))).
    { rewrite Hval, <- Hsplit', Hq0. lia. }
    nia. }
  assert (Hpe : 0 < 10 ^ (- (- shift + i))) by (apply pow10_pos; lia).
  assert (Hc : 0 ≤ c < 10 ^ (- (- shift + i))) by nia.
  exists c, (- shift + i). split_and!; [|lia|lia|lia|lia|done].
  apply dfix_small. cbn [coef]. rewrite Z.abs_eq by lia.
  assert (10 ^ (- (- shift + i)) ≤ 10 ^ prec); [|lia].
  apply Z.pow_le_mono_r; lia.
Qed.

(** *** Values *)

Local Open Scope Q_scope.

Lemma ten_not_0 : ¬ inject_Z 10 == 0.
Proof. intros H. apply Qeq_bool_iff in H. discriminate. Qed.

(** The value of a [Decimal] read at a lower exponent [m]. *)
Lemma dec_Q_scaled (c e m X : Z) :
  (m ≤ e)%Z → (c * 10 ^ (e - m))%Z = X →
  dec_Q (mkDecimal c e) == inject_Z X * inject_Z 10 ^ m.
Proof.
  intros Hm <-. unfold dec_Q. cbn [coef dexp].
  replace e with ((e - m) + m)%Z at 1 by lia.
  rewrite (Qpower_plus _ _ _ ten_not_0), inject_Z_mult.
  rewrite (Zpower_Qpower 10 (e - m)) by lia. ring.
Qed.

Lemma dec_Q_align (d : Decimal) (m : Z) :
  (m ≤ dexp d)%Z →
  dec_Q d == inject_Z (coef d * 10 ^ (dexp d - m)) * inject_Z 10 ^ m.
Proof. intros Hm. destruct d as [c e]. by apply dec_Q_scaled. Qed.

Lemma dadd_exact (a b : Decimal) :
  let m := Z.min (dexp a) (dexp b) in
  (Z.abs (coef a) * 10 ^ (dexp a - m) + Z.abs (coef b) * 10 ^ (dexp b - m)
   < 10 ^ prec)%Z →
  dec_Q (dadd a b) == dec_Q a + dec_Q b.
Proof.
  intros m Hlt. destruct (dadd_small a b Hlt) as (c & e & -> & He & Hc).
  fold m in He, Hc.
  rewrite (dec_Q_scaled c e m _ (proj1 He) Hc).
  rewrite (dec_Q_align a m), (dec_Q_align b m) by (unfold m; lia).
  rewrite inject_Z_plus. ring.
Qed.

Lemma dec_Q_neg (a : Decimal) : dec_Q (dneg a) == - dec_Q a.
Proof. unfold dec_Q, dneg. cbn [coef dexp]. rewrite inject_Z_opp. ring. Qed.

Lemma dsub_exact (a b : Decimal) :
  let m := Z.min (dexp a) (dexp b) in
  (Z.abs (coef a) * 10 ^ (dexp a - m) + Z.abs (coef b) * 10 ^ (dexp b - m)
   < 10 ^ prec)%Z →
  dec_Q (dsub a b) == dec_Q a - dec_Q b.
Proof.
  intros m Hlt. unfold dsub. rewrite dadd_exact.
  - rewrite dec_Q_neg. ring.
  - cbn [dneg coef dexp]. by rewrite Z.abs_opp.
Qed.

Lemma dmul_exact (a b : Decimal) :
  (Z.abs (coef a * coef b) < 10 ^ prec)%Z →
  dec_Q (dmul a b) == dec_Q a * dec_Q b.
Proof.
  intros Hlt. rewrite dmul_small by done. unfold dec_Q. cbn [coef dexp].
  rewrite inject_Z_mult, (Qpower_plus _ _ _ ten_not_0). ring.
Qed.

Lemma ddiv_int_exact (k d j : Z) :
  (0 < k < d)%Z → (0 ≤ j ≤ prec)%Z → ((k * 10 ^ j) mod d = 0)%Z →
  dec_Q (ddiv (Decimal_of_int k) (Decimal_of_int d)) == inject_Z k / inject_Z d.
Proof.
  intros Hk Hj Hdiv.
  destruct (ddiv_int_small k d j Hk Hj Hdiv) as (c & e & -> & He & Hc & Hcd).
  assert (Hd : ¬ inject_Z d == 0).
  { intros H. apply (inject_Z_injective d 0) in H. lia. }
  apply (Qmult_inj_r _ _ (inject_Z d) Hd).
  unfold dec_Q. cbn [coef dexp].
  transitivity (inject_Z (c * d) * inject_Z 10 ^ e).
  { rewrite inject_Z_mult. ring. }
  rewrite Hcd, inject_Z_mult, (Zpower_Qpower 10 (- e)) by lia.
  transitivity (inject_Z k * (inject_Z 10 ^ (- e) * inject_Z 10 ^ e)); [ring|].
  rewrite <- (Qpower_plus _ _ _ ten_not_0).
  replace (- e + e)%Z with 0%Z by lia. simpl. field. done.
Qed.

Local Close Scope Q_scope.

Lemma pow10_split (a b : Z) : 0 ≤ a → 0 ≤ b → 10 ^ (a + b) = 10 ^ a * 10 ^ b.
Proof. intros. by apply Z.pow_add_r. Qed.

Lemma pow10_le (a b : Z) : a ≤ b → 10 ^ a ≤ 10 ^ b.
Proof. intros. apply Z.pow_le_mono_r; lia. Qed.

(** A coefficient bounded by [n * 10^-e], read at a lower exponent [m], is
    bounded by [n * 10^-m]. *)
Lemma aligned_bound (c e m n : Z) :
  m ≤ e ≤ 0 → 0 ≤ n → Z.abs c ≤ n * 10 ^ (- e) →
  Z.abs c * 10 ^ (e - m) ≤ n * 10 ^ (- m).
Proof.
  intros He Hn Hc.
  replace (- m) with (- e + (e - m)) by lia. rewrite pow10_split by lia.
  pose proof (pow10_pos (e - m)). pose proof (pow10_pos (- e)). nia.
Qed.

(** Linear interpolation is exact for coordinates of absolute value at most
    1 with at most [p] decimal places when the fraction has at most [j]
    decimal places and [p + j <= 27]. *)
Lemma lerp_exact (a0 a1 frame p j : Z) (b0 b1 : Decimal) :
  a0 < frame < a1 → 0 ≤ p → 0 ≤ j → p + j ≤ 27 →
  fits p b0 → fits p b1 →
  ((frame - a0) * 10 ^ j) mod (a1 - a0) = 0 →
  (dec_Q (lerp (fraction a0 a1 frame) b0 b1)
   == dec_Q b0
      + inject_Z (frame - a0) / inject_Z (a1 - a0) * (dec_Q b1 - dec_Q b0))%Q.
Proof.
  intros Hf Hp Hj Hpj [He0 Hc0] [He1 Hc1] Hdiv.
  assert (H27 : ∀ x, - x ≤ 27 → 10 ^ (- x) ≤ 10 ^ 27) by (intros; by apply pow10_le).
  assert (H28 : 10 ^ prec = 10 * 10 ^ 27) by reflexivity.
  assert (Hpos27 : 0 < 10 ^ 27) by (by apply pow10_pos).
  (* the fraction *)
  assert (Ht := ddiv_int_exact (frame - a0) (a1 - a0) j).
  destruct (ddiv_int_small (frame - a0) (a1 - a0) j) as (ct & et & Hteq & Het & Hct & _);
    [lia|unfold prec; lia|done|].
  fold (fraction a0 a1 frame) in Ht, Hteq.
  (* the difference *)
  set (m1 := Z.min (dexp b1) (dexp b0)).
  assert (Hm1 : m1 ≤ dexp b1 ∧ m1 ≤ dexp b0 ∧ - p ≤ m1 ≤ 0) by (unfold m1; lia).
  assert (Hb1 := aligned_bound (coef b1) (dexp b1) m1 1).
  assert (Hb0 := aligned_bound (coef b0) (dexp b0) m1 1).
  assert (Hsub_lt : Z.abs (coef b1) * 10 ^ (dexp b1 - m1)
                    + Z.abs (coef (dneg b0)) * 10 ^ (dexp (dneg b0) - m1) < 10 ^ prec).
  { cbn [dneg coef dexp]. rewrite Z.abs_opp. specialize (H27 m1). lia. }
  assert (Hdiff := dsub_exact b1 b0). cbn zeta in Hdiff. fold m1 in Hdiff.
  destruct (dadd_small b1 (dneg b0) Hsub_lt) as (cd & ed & Hdeq & Hed & Hcd).
  cbn [dneg coef dexp] in Hed, Hcd, Hsub_lt. fold m1 in Hed, Hcd.
  fold (dsub b1 b0) in Hdeq.
  assert (Hed' : m1 ≤ ed ≤ 0) by lia.
  assert (Hcd_bound : Z.abs cd ≤ 2 * 10 ^ (- ed)).
  { assert (Habs : Z.abs cd * 10 ^ (ed - m1) ≤ 2 * 10 ^ (- m1)).
    { rewrite <- (Z.abs_eq (10 ^ (ed - m1))), <- Z.abs_mul, Hcd
        by (pose proof (pow10_pos (ed - m1)); lia).
      pose proof (Z.abs_triangle (coef b1 * 10 ^ (dexp b1 - m1))
                    (- coef b0 * 10 ^ (dexp b0 - m1))) as Htri.
      rewrite !Z.abs_mul, Z.abs_opp in Htri.
      rewrite !(Z.abs_eq (10 ^ _)) in Htri by (apply Z.lt_le_incl, pow10_pos; lia).
      lia. }
    replace (- m1) with (- ed + (ed - m1)) in Habs by lia.
    rewrite pow10_split in Habs by lia.
    pose proof (pow10_pos (ed - m1)). pose proof (pow10_pos (- ed)). nia. }
  (* the product *)
  assert (Hprod_bound : Z.abs (ct * cd) ≤ 2 * 10 ^ (- (et + ed))).
  { rewrite Z.abs_mul, (Z.abs_eq ct) by lia.
    replace (- (et + ed)) with (- et + - ed) by lia. rewrite pow10_split by lia.
    pose proof (pow10_pos (- et)). pose proof (pow10_pos (- ed)).
    pose proof (Z.abs_nonneg cd). nia. }
  assert (Hmul_lt : Z.abs (coef (fraction a0 a1 frame) * coef (dsub b1 b0)) < 10 ^ prec).
  { rewrite Hteq, Hdeq. cbn [coef]. specialize (H27 (et + ed)). lia. }
  assert (Hmul := dmul_exact _ _ Hmul_lt).
  assert (Hmul_eq : dmul (fraction a0 a1 frame) (dsub b1 b0)
                    = mkDecimal (ct * cd) (et + ed)).
  { rewrite (dmul_small _ _ Hmul_lt). by rewrite Hteq, Hdeq. }
  (* the sum *)
  set (m2 := Z.min (dexp b0) (et + ed)).
  assert (Hm2 : m2 ≤ dexp b0 ∧ m2 ≤ et + ed ∧ - 27 ≤ m2 ≤ 0) by (unfold m2; lia).
  assert (Hs0 := aligned_bound (coef b0) (dexp b0) m2 1).
  assert (Hs1 := aligned_bound (ct * cd) (et + ed) m2 2).
  assert (Hadd : (dec_Q (lerp (fraction a0 a1 frame) b0 b1)
                  == dec_Q b0 + dec_Q (dmul (fraction a0 a1 frame) (dsub b1 b0)))%Q).
  { unfold lerp. apply dadd_exact. rewrite Hmul_eq. cbn [coef dexp]. fold m2.
    specialize (H27 m2). lia. }
  rewrite Hadd, Hmul, Hdiff, Ht; [reflexivity|lia|unfold prec; lia|done|].
  specialize (H27 m1). lia.
Qed.

(** ** Linearity of the interpolation *)

(** C2 as stated fails: with centre x 0.5 at frame 0 and 0.9 at frame 3, the
    line of frame 1 carries 0.6333333333333333333333333333, because a third
    is rounded to 28 digits; the point on the line is 19/30. *)
Lemma interpolation_linearity_counterexample :
  dict_get 1 (linear_interpolation line_P (line_C 3) 0)
  = Some (0, ["0.6333333333333333333333333333"; "0.5000000000000000000000000000";
              "0.2000000000000000000000000000"; "0.2000000000000000000000000000"])
  ∧ line_x 3 1 = mkDecimal 6333333333333333333333333333 (-28)
  ∧ ¬ (dec_Q (line_x 3 1)
       == dec_Q (seq_x line_P)
          + (1 # 3) * (dec_Q (seq_x (line_C 3)) - dec_Q (seq_x line_P)))%Q.
Proof.
  split_and!; [by vm_compute..|].
  intros H. apply Qeq_bool_iff in H. vm_compute in H. discriminate.
Qed.

(** C2, amended. Every frame strictly between two key frames gets the row
    whose four values are [b0 + t*(b1-b0)] in [Decimal] arithmetic, with
    [t = Decimal(frame-a0)/Decimal(a1-a0)]: each operation is rounded to 28
    significant digits. The value is the point on the line at least when the
    coordinates have absolute value at most 1 and at most [p] decimal
    places, the fraction has at most [j] decimal places and [p + j <= 27].
    For centre x 0.5 at frame 0 and 0.9 at frame 4, frames 1, 2 and 3 carry
    exactly 0.6, 0.7 and 0.8. *)
Theorem interpolation_linearity (prev_seq seq : keyframe) (label frame : Z) :
  seq_frame prev_seq < frame < seq_frame seq →
  let t := fraction (seq_frame prev_seq) (seq_frame seq) frame in
  dict_get frame (linear_interpolation prev_seq seq label)
  = Some (label,
          [dec_str (lerp t (seq_x prev_seq) (seq_x seq));
           dec_str (lerp t (seq_y prev_seq) (seq_y seq));
           dec_str (lerp t (seq_width prev_seq) (seq_width seq));
           dec_str (lerp t (seq_height prev_seq) (seq_height seq))])
  ∧ (∀ (p j : Z) (b0 b1 : Decimal),
       0 ≤ p → 0 ≤ j → p + j ≤ 27 → fits p b0 → fits p b1 →
       ((frame - seq_frame prev_seq) * 10 ^ j)
         mod (seq_frame seq - seq_frame prev_seq) = 0 →
       (dec_Q (lerp t b0 b1)
        == dec_Q b0
           + inject_Z (frame - seq_frame prev_seq)
             / inject_Z (seq_frame seq - seq_frame prev_seq)
             * (dec_Q b1 - dec_Q b0))%Q)
  ∧ (dec_str <$> (line_x 4 <$> [1; 2; 3]) = ["0.600"; "0.70"; "0.800"]%string
     ∧ Forall2 (λ f q,
                  (dec_Q (line_x 4 f) == q)%Q
                  ∧ (q == dec_Q (seq_x line_P)
                          + inject_Z (f - 0) / inject_Z (4 - 0)
                            * (dec_Q (seq_x (line_C 4)) - dec_Q (seq_x line_P)))%Q)
               [1; 2; 3] [(6 # 10)%Q; (7 # 10)%Q; (8 # 10)%Q]).
Proof.
  intros Hf t. split_and!.
  - by apply linear_interpolation_get.
  - intros p j b0 b1 Hp Hj Hpj Hb0 Hb1 Hdiv. by apply (lerp_exact _ _ _ p j).
  - by vm_compute.
  - repeat constructor; apply Qeq_bool_iff; by vm_compute.
Qed.

(** ** Which frames get lines *)

Lemma seq_lines_keys_iff prev_seq seq label f :
  f ∈ dict_keys (seq_lines prev_seq seq label) ↔ contributes prev_seq seq f.
Proof.
  unfold seq_lines, contributes.
  rewrite elem_of_dict_keys_set, elem_of_interpolated_keys. done.
Qed.

Lemma contributes_normalize p0 k f :
  contributes (normalize <$> p0) (normalize k) f ↔ contributes p0 k f.
Proof.
  unfold contributes. rewrite normalize_frame. split.
  - intros [->|(p & Hp & Hen & Hgap & Hf)]; [by left|right].
    destruct p0 as [q|]; [|done]. injection Hp as <-. by exists q.
  - intros [->|(p & -> & Hen & Hgap & Hf)]; [by left|right].
    by exists (normalize p).
Qed.

Lemma process_seq_keys label fd p0 k f :
  f ∈ dict_keys (process_seq label (fd, normalize <$> p0) k).1
  ↔ f ∈ dict_keys fd ∨ contributes p0 k f.
Proof.
  unfold process_seq. cbn [fst snd].
  destruct (foldl_files_dict_add (seq_lines (normalize <$> p0) (normalize k) label) fd)
    as [_ Hkeys].
  rewrite Hkeys, seq_lines_keys_iff, contributes_normalize. tauto.
Qed.

Lemma foldl_process_seq_keys label seqs fd p0 f :
  f ∈ dict_keys (foldl (process_seq label) (fd, normalize <$> p0) seqs).1
  ↔ f ∈ dict_keys fd
    ∨ ∃ i k, seqs !! i = Some k ∧ contributes (prev_of p0 seqs i) k f.
Proof.
  revert fd p0. induction seqs as [|k0 seqs IH]; intros fd p0.
  - simpl. split; [by left|]. by intros [?|(i & k & Hi & _)].
  - cbn [foldl].
    assert (Hst : process_seq label (fd, normalize <$> p0) k0
                  = ((process_seq label (fd, normalize <$> p0) k0).1,
                     normalize <$> Some k0)) by done.
    rewrite Hst, IH, process_seq_keys. split.
    + intros [[Hfd|Hc]|(i & k & Hi & Hc)].
      * by left.
      * right. by exists 0%nat, k0.
      * right. exists (S i), k. split; [done|]. by destruct i.
    + intros [Hfd|(i & k & Hi & Hc)]; [by left; left|].
      destruct i as [|i].
      * injection Hi as <-. by left; right.
      * right. exists i, k. split; [done|]. by destruct i.
Qed.

Lemma process_subject_keys labels_dict fd s fd' f :
  process_subject labels_dict fd s = Ok fd' →
  (f ∈ dict_keys fd' ↔ f ∈ dict_keys fd ∨ track_covers s f).
Proof.
  unfold process_subject.
  destruct (subject_label labels_dict s) as [label|]; [|done]. simpl.
  intros [= <-].
  apply (foldl_process_seq_keys label (sequence s) fd None f).
Qed.

Lemma for_each_process_subject_keys labels_dict box_ fd fd' f :
  for_each (process_subject labels_dict) fd box_ = Ok fd' →
  (f ∈ dict_keys fd' ↔ f ∈ dict_keys fd ∨ ∃ s, s ∈ box_ ∧ track_covers s f).
Proof.
  revert fd. induction box_ as [|s box_ IH]; intros fd Hfe; simpl in Hfe.
  - injection Hfe as <-. split; [by left|]. intros [?|(s & Hs & _)]; [done|].
    by apply elem_of_nil in Hs.
  - destruct (process_subject labels_dict fd s) as [fd1|] eqn:Hs; [|done].
    simpl in Hfe. rewrite (IH _ Hfe), (process_subject_keys _ _ _ _ f Hs). split.
    + intros [[Hfd|Hc]|(s' & Hs' & Hc)].
      * by left.
      * right. exists s. split; [apply list_elem_of_here|done].
      * right. exists s'. split; [by apply list_elem_of_further|done].
    + intros [Hfd|(s' & Hs' & Hc)]; [by left; left|].
      apply elem_of_cons in Hs' as [->|Hs']; [by left; right|].
      right. by exists s'.
Qed.

Lemma aggregate_NoDup labels_dict box_ files_dict :
  aggregate labels_dict box_ = Ok files_dict → NoDup (dict_keys files_dict).
Proof.
  unfold aggregate.
  assert (H0 : NoDup (dict_keys ([] : dict Z (list info)))) by apply NoDup_nil_2.
  revert H0. generalize ([] : dict Z (list info)).
  induction box_ as [|s box_ IH]; intros fd0 H0 Hagg; simpl in Hagg.
  - by injection Hagg as <-.
  - destruct (process_subject labels_dict fd0 s) as [fd1|] eqn:Hs; [|done].
    simpl in Hagg. apply (IH fd1); [|done].
    unfold process_subject in Hs.
    destruct (subject_label labels_dict s) as [label|]; [|done]. simpl in Hs.
    injection Hs as <-.
    assert (Hgen : ∀ st, NoDup (dict_keys st.1) →
              NoDup (dict_keys (foldl (process_seq label) st (sequence s)).1)).
    { clear. induction (sequence s) as [|k l IHl]; intros st Hst; [done|].
      simpl. apply IHl. unfold process_seq. cbn [fst].
      exact (proj1 (foldl_files_dict_add (seq_lines st.2 (normalize k) label) st.1)
               Hst). }
    by apply (Hgen (fd0, None)).
Qed.

Lemma aggregate_frames_iff labels_dict box_ files_dict f :
  aggregate labels_dict box_ = Ok files_dict →
  (f ∈ dict_keys files_dict ↔ ∃ s, s ∈ box_ ∧ track_covers s f).
Proof.
  intros Hagg. unfold aggregate in Hagg.
  rewrite (for_each_process_subject_keys _ _ _ _ f Hagg). split.
  - intros [Hnil|?]; [by apply elem_of_nil in Hnil|done].
  - by right.
Qed.

(** X1. The frames that get lines are exactly the frames of the key frames
    and the frames strictly between two consecutive key frames of a track
    whose earlier one is enabled and more than one frame back; the sorted map
    that is exported has the same frames, in ascending order, each once. *)
Theorem aggregate_frames labels_dict (box_ : list subject)
    (files_dict : dict Z (list info)) :
  aggregate labels_dict box_ = Ok files_dict →
  (∀ f, f ∈ dict_keys files_dict ↔ ∃ s, s ∈ box_ ∧ track_covers s f)
  ∧ (∀ f, f ∈ dict_keys (sorted_items files_dict) ↔ f ∈ dict_keys files_dict)
  ∧ StronglySorted Z.le (dict_keys (sorted_items files_dict))
  ∧ NoDup (dict_keys files_dict).
Proof.
  intros Hagg. split_and!.
  - intros f. by apply (aggregate_frames_iff labels_dict).
  - intros f. apply sorted_items_keys.
  - apply sorted_items_sorted.
  - by apply (aggregate_NoDup labels_dict box_).
Qed.

(** ** When [main] returns *)

Lemma track_covers_bounds s f lo hi :
  (∀ k, k ∈ sequence s → lo ≤ seq_frame k ≤ hi) →
  track_covers s f → lo ≤ f ≤ hi.
Proof.
  intros Hall (i & k & Hi & Hc).
  assert (Hk : lo ≤ seq_frame k ≤ hi) by (by eapply Hall, list_elem_of_lookup_2).
  destruct Hc as [->|(p & Hp & _ & _ & Hf)]; [done|].
  destruct i as [|i]; [done|]. simpl in Hp.
  assert (Hpb : lo ≤ seq_frame p ≤ hi) by (by eapply Hall, list_elem_of_lookup_2).
  lia.
Qed.

Lemma track_covers_first s k : head (sequence s) = Some k → track_covers s (seq_frame k).
Proof.
  intros Hh. exists 0%nat, k. split; [by rewrite <- head_lookup|by left].
Qed.

Lemma foldl_dict_set_keys {K V A} `{EqDecision K} (key : A → K) (val : A → V)
    (l : list A) (d : dict K V) (k : K) :
  k ∈ dict_keys (foldl (λ acc a, dict_set (key a) (val a) acc) d l)
  ↔ k ∈ dict_keys d ∨ k ∈ key <$> l.
Proof.
  revert d. induction l as [|a l IH]; intros d; simpl.
  - split; [by left|]. intros [?|Hk]; [done|]. by apply elem_of_nil in Hk.
  - rewrite IH, elem_of_dict_keys_set, elem_of_cons. tauto.
Qed.

Lemma make_labels_dict_known labels l :
  l ∈ labels → is_Some (dict_get l (make_labels_dict labels)).
Proof.
  intros Hl. apply dict_keys_is_Some. unfold make_labels_dict.
  apply foldl_dict_set_keys. right.
  assert (Hkeys : snd <$> imap (λ i k, (Z.of_nat i, k)) labels = labels).
  { apply list_eq. intros j. rewrite list_lookup_fmap, list_lookup_imap.
    by destruct (labels !! j). }
  by rewrite Hkeys.
Qed.

Lemma for_each_Ok {A S} (body : S → A → result S) (P : S → Prop) (s : S) (l : list A) :
  P s → (∀ s' a, a ∈ l → P s' → ∃ s'', body s' a = Ok s'' ∧ P s'') →
  ∃ s', for_each body s l = Ok s' ∧ P s'.
Proof.
  revert s. induction l as [|a l IH]; intros s Hs Hbody; simpl; [by exists s|].
  destruct (Hbody s a) as (s1 & -> & Hs1); [apply list_elem_of_here|done|]. simpl.
  apply IH; [done|]. intros s' a' Ha'. apply Hbody. by apply list_elem_of_further.
Qed.

Lemma write_labels_total avail offset padding items :
  (∀ k, k ∈ dict_keys items → ∃ b, py_getitem avail k = Ok b) →
  ∃ out, write_labels avail offset padding items = (out, Ok ()).
Proof.
  induction items as [|[frame lines] items IH]; intros Hget; [by eexists|].
  cbn [write_labels].
  destruct (Hget frame) as [b ->]; [apply list_elem_of_here|].
  destruct IH as [out ->].
  { intros k Hk. by apply Hget, list_elem_of_further. }
  destruct b; by eexists.
Qed.

Lemma extract_frames_total E path avail offset padding items :
  (∀ k, k ∈ dict_keys items → ∃ b, py_getitem avail k = Ok b) →
  ∃ out, extract_frames E path avail offset padding items = (out, Ok ()).
Proof.
  induction items as [|[frame lines] items IH]; intros Hget; [by eexists|].
  cbn [extract_frames].
  destruct (Hget frame) as [b ->]; [apply list_elem_of_here|].
  destruct IH as [out ->].
  { intros k Hk. by apply Hget, list_elem_of_further. }
  destruct b; [destruct (read_frame E path (frame - 1))|]; by eexists.
Qed.

Lemma mask_length av box_ av' :
  for_each mark_subject av box_ = Ok av' → length av' = length av.
Proof.
  revert av. induction box_ as [|s box_ IH]; intros av Hm; simpl in Hm.
  - by injection Hm as <-.
  - destruct (mark_subject av s) as [av1|] eqn:Hs; [|done]. simpl in Hm.
    rewrite (IH _ Hm).
    apply mark_subject_Ok in Hs as (first & last_ & _ & _ & _ & Hr).
    unfold mark_range in Hr. revert av Hr.
    induction (py_range (seq_frame first) (seq_frame last_)) as [|i l IHl];
      intros av Hr; simpl in Hr.
    + by injection Hr as <-.
    + destruct (py_setitem av i true) as [av2|] eqn:Hset; [|done]. simpl in Hr.
      rewrite (IHl _ Hr). unfold py_setitem in Hset.
      destruct (_ || _) in Hset; [done|]. injection Hset as <-.
      apply length_insert.
Qed.

(** On a well-formed video whose key frames all have a ['time'], nothing
    in [main] raises, whatever the offset and the outside world. *)
Lemma main_total (E : env) (v : video_label) (offset : Z) (labels : list string) :
  well_formed labels v →
  ∃ avail files_dict max_frame,
    prepare v labels = Ok (avail, files_dict, max_frame)
    ∧ files_dict ≠ []
    ∧ returned (main E v offset labels)
      = Ok (offset + Z.of_nat (length files_dict)).
Proof.
  intros [Hbox Hwf].
  pose proof (max_frames_fold 0 (box v)) as (Hmax0 & _ & _).
  fold (max_frames_of (box v)) in Hmax0.
  (* the mask *)
  assert (Hav : ∃ avail, available_frames (box v) = Ok avail
                         ∧ Z.of_nat (length avail) = max_frames_of (box v) + 1).
  { unfold available_frames.
    destruct (for_each_mark_succeeds
                (replicate (Z.to_nat (max_frames_of (box v) + 1)) false) (box v))
      as [avail Hav].
    - intros s Hs. destruct (Hwf s Hs) as ((l & Hl & _) & Hne & Hfr).
      destruct (sequence s) as [|k0 ks] eqn:Hseq; [done|].
      destruct (last (k0 :: ks)) as [kl|] eqn:Hlast; [|by apply last_None in Hlast].
      exists k0, kl. split_and!; [done|done|by rewrite Hl| |].
      + apply Hfr, list_elem_of_here.
      + rewrite length_replicate. apply last_Some_elem_of in Hlast.
        specialize (Hfr kl Hlast). lia.
    - exists avail. split; [done|].
      rewrite (mask_length _ _ _ Hav), length_replicate. lia. }
  destruct Hav as (avail & Hav & Hlen).
  (* the lines *)
  assert (Hagg : ∃ fd, aggregate (make_labels_dict labels) (box v) = Ok fd).
  { destruct (for_each_Ok (process_subject (make_labels_dict labels)) (λ _, True)
                [] (box v)) as (fd & Hfd & _); [done| |by exists fd].
    intros fd s Hs _. destruct (Hwf s Hs) as ((l & Hl & Hin) & _).
    destruct (make_labels_dict_known labels l Hin) as [i Hi].
    unfold process_subject, subject_label. rewrite Hl, Hi. simpl. by eexists. }
  destruct Hagg as [fd Hagg].
  assert (Hkeys : ∀ k, k ∈ dict_keys (sorted_items fd) →
                       0 ≤ k ≤ max_frames_of (box v)).
  { intros k Hk. apply (proj1 (sorted_items_keys fd k)) in Hk.
    apply (proj1 (aggregate_frames_iff _ _ _ k Hagg)) in Hk as (s & Hs & Hc).
    apply (track_covers_bounds s); [|done]. by apply Hwf. }
  assert (Hne : dict_keys (sorted_items fd) ≠ []).
  { destruct (box v) as [|s0 rest] eqn:Hb; [done|].
    destruct (Hwf s0) as (_ & Hseq & _); [apply list_elem_of_here|].
    destruct (sequence s0) as [|k0 ks] eqn:Hs0; [done|].
    assert (Hin : seq_frame k0 ∈ dict_keys (sorted_items fd)).
    { apply (proj2 (sorted_items_keys fd _)), (proj2 (aggregate_frames_iff _ _ _ _ Hagg)).
      exists s0. split; [apply list_elem_of_here|].
      apply track_covers_first. by rewrite Hs0. }
    intros Hnil. rewrite Hnil in Hin. by apply elem_of_nil in Hin. }
  destruct (py_max (dict_keys (sorted_items fd))) as [mf|] eqn:Hmax.
  2:{ unfold py_max in Hmax. by destruct (dict_keys (sorted_items fd)). }
  exists avail, (sorted_items fd), mf.
  assert (Hprep : prepare v labels = Ok (avail, sorted_items fd, mf)).
  { unfold prepare, prepare_with. rewrite Hav, Hagg. simpl. by rewrite Hmax. }
  split_and!; [done| |].
  - intros Hnil. apply Hne. by rewrite Hnil.
  - assert (Hget : ∀ k, k ∈ dict_keys (sorted_items fd) →
                        ∃ b, py_getitem avail k = Ok b).
    { intros k Hk. specialize (Hkeys k Hk). rewrite py_getitem_nonneg by lia.
      destruct (avail !! Z.to_nat k) as [b|] eqn:Hl; [by exists b|].
      apply lookup_ge_None in Hl. lia. }
    unfold main, export. rewrite Hprep.
    destruct (write_labels_total avail offset (String.length (str_int mf))
                (sorted_items fd) Hget) as [out ->].
    destruct (isfile E (video v)); [|done].
    by destruct (extract_frames_total E (video v) avail offset
                   (String.length (str_int mf)) (sorted_items fd) Hget) as [imgs ->].
Qed.

(** ** Line 104 *)

Lemma for_each_process_seq_timed label st (seqs : list timed_keyframe) :
  (∀ k, k ∈ seqs → is_Some (seq_time k)) →
  for_each (process_seq_timed label) st seqs
  = Ok (foldl (process_seq label) st (timed_seq <$> seqs)).
Proof.
  revert st. induction seqs as [|k seqs IH]; intros st Htimes; [done|].
  cbn [for_each fmap list_fmap foldl]. unfold process_seq_timed at 1.
  destruct (Htimes k) as [t ->]; [apply list_elem_of_here|]. cbn [bind].
  apply IH. intros k' Hk'. apply Htimes. by apply list_elem_of_further.
Qed.

Lemma process_subject_timed_eq labels_dict fd (s : timed_subject) :
  (∀ k, k ∈ timed_sequence s → is_Some (seq_time k)) →
  process_subject_timed labels_dict fd s
  = process_subject labels_dict fd (untimed_subject s).
Proof.
  intros Htimes. unfold process_subject_timed, process_subject.
  destruct (subject_label labels_dict (untimed_subject s)) as [label|]; [|done].
  cbn [bind]. by rewrite for_each_process_seq_timed.
Qed.

Lemma aggregate_timed_eq labels_dict (box_ : list timed_subject) :
  (∀ s k, s ∈ box_ → k ∈ timed_sequence s → is_Some (seq_time k)) →
  aggregate_timed labels_dict box_
  = aggregate labels_dict (untimed_subject <$> box_).
Proof.
  unfold aggregate_timed, aggregate. generalize ([] : dict Z (list info)).
  induction box_ as [|s box_ IH]; intros fd Htimes; [done|].
  cbn [for_each fmap list_fmap].
  rewrite process_subject_timed_eq.
  - destruct (process_subject labels_dict fd (untimed_subject s)); [|done].
    cbn [bind]. apply IH. intros s' k Hs'. apply Htimes.
    by apply list_elem_of_further.
  - intros k. apply Htimes, list_elem_of_here.
Qed.

(** With a ['time'] on every key frame, line 104 changes nothing. *)
Lemma main_timed_eq E (v : timed_video) offset labels :
  (∀ s k, s ∈ timed_box v → k ∈ timed_sequence s → is_Some (seq_time k)) →
  prepare_timed v labels = prepare (untimed v) labels
  ∧ main_timed E v offset labels = main E (untimed v) offset labels.
Proof.
  intros Htimes.
  assert (Hprep : prepare_timed v labels = prepare (untimed v) labels).
  { unfold prepare_timed, prepare. by rewrite aggregate_timed_eq. }
  split; [done|]. unfold main_timed, main. by rewrite Hprep.
Qed.

Lemma process_subject_timed_Raise labels_dict fd (s : timed_subject) e :
  (∃ l, timed_labels s = [l]) →
  process_subject_timed labels_dict fd s = Raise e → e = KeyError.
Proof.
  intros [l Hl]. unfold process_subject_timed, subject_label.
  cbn [untimed_subject subject_labels]. rewrite Hl.
  destruct (dict_get l labels_dict); cbn [bind]; [|congruence].
  destruct (for_each _ _ _) as [st|e'] eqn:Hfe; cbn [bind]; [done|].
  intros [= <-]. apply for_each_Raise in Hfe as (st & k & _ & Hk).
  unfold process_seq_timed in Hk. destruct (seq_time k); congruence.
Qed.

(** X2. [main] with line 104 returns, whatever the offset and the outside
    world, on a video with at least one subject whose subjects each have
    one label among [labels] and at least one key frame, with frame numbers
    between 0 and the largest declared count, and whose key frames all have
    a ['time'] and a box of exported percentages (so that no [Decimal]
    operation comes near the exponent limits, which are not represented):
    the value is the offset plus the number of frames that have lines, and
    there is at least one such frame. A key frame without ['time'] ends
    [main] with [KeyError] before any file is written, when the mask is
    built and every subject has one label. *)
Theorem main_returns (E : env) (v : timed_video) (offset : Z) (labels : list string) :
  (∀ p, well_formed labels (untimed v) → 0 ≤ p ≤ 24 → timed_ok p v →
        ∃ avail files_dict max_frame,
          prepare_timed v labels = Ok (avail, files_dict, max_frame)
          ∧ files_dict ≠ []
          ∧ returned (main_timed E v offset labels)
            = Ok (offset + Z.of_nat (length files_dict)))
  ∧ (∀ avail, available_frames (box (untimed v)) = Ok avail →
       (∀ s, s ∈ timed_box v → ∃ l, timed_labels s = [l]) →
       (∃ s k, s ∈ timed_box v ∧ k ∈ timed_sequence s ∧ seq_time k = None) →
       main_timed E v offset labels = mkOutcome [] [] (Raise KeyError)).
Proof.
  split.
  - intros p Hwf _ Hok.
    destruct (main_timed_eq E v offset labels) as [-> ->].
    { intros s k Hs Hk. by destruct (Hok s k Hs Hk). }
    by apply main_total.
  - intros avail Hav Hsingle (s & k & Hs & Hk & Htime).
    assert (Hagg : aggregate_timed (make_labels_dict labels) (timed_box v)
                   = Raise KeyError).
    { unfold aggregate_timed.
      destruct (for_each_raises (process_subject_timed (make_labels_dict labels)) []
                  (timed_box v) s Hs) as [e He].
      { intros fd. unfold process_subject_timed.
        destruct (subject_label _ _) as [label|e]; cbn [bind]; [|by exists e].
        destruct (for_each_raises (process_seq_timed label) (fd, None)
                    (timed_sequence s) k Hk) as [e ->]; [|by exists e].
        intros st. exists KeyError. unfold process_seq_timed. by rewrite Htime. }
      rewrite He. f_equal.
      apply for_each_Raise in He as (fd & s' & Hs' & Hp).
      exact (process_subject_timed_Raise (make_labels_dict labels) fd s' e
               (Hsingle s' Hs') Hp). }
    unfold main_timed, prepare_timed, prepare_with. by rewrite Hav, Hagg.
Qed.

(** ** The rows of the label files *)

Lemma elem_of_dict_set {K V} `{EqDecision K} (k k' : K) (v v' : V) (d : dict K V) :
  (k', v') ∈ dict_set k v d → (k', v') ∈ d ∨ (k' = k ∧ v' = v).
Proof.
  induction d as [|[k0 v0] d IH]; simpl.
  - intros Hin. apply list_elem_of_singleton in Hin as [= -> ->]. by right.
  - destruct (decide (k = k0)) as [->|Hne]; rewrite !elem_of_cons.
    + intros [[= -> ->]|Hin]; [by right|by left; right].
    + intros [Heq|Hin]; [by left; left|].
      destruct (IH Hin) as [?|?]; [by left; right|by right].
Qed.

Lemma files_dict_add_rows P fd frame i :
  P i → rows_ok P fd → rows_ok P (files_dict_add fd frame i).
Proof.
  intros Hi Hfd f rows Hin. unfold files_dict_add in Hin.
  destruct (dict_get frame fd) as [rows0|] eqn:Hget;
    apply elem_of_dict_set in Hin as [Hin|[-> ->]]; try by apply (Hfd f).
  - apply dict_get_elem_of in Hget. destruct (Hfd _ _ Hget) as [_ Hrows0].
    split; [by destruct rows0|]. intros row Hrow.
    apply elem_of_app in Hrow as [Hrow|Hrow]; [by apply Hrows0|].
    by apply list_elem_of_singleton in Hrow as ->.
  - split; [done|]. intros row Hrow. by apply list_elem_of_singleton in Hrow as ->.
Qed.

Lemma foldl_files_dict_add_rows P (lines : dict Z info) fd :
  (∀ f i, (f, i) ∈ lines → P i) → rows_ok P fd →
  rows_ok P (foldl (λ fd fi, files_dict_add fd fi.1 fi.2) fd lines).
Proof.
  revert fd. induction lines as [|[f i] lines IH]; intros fd Hlines Hfd; [done|].
  simpl. apply IH.
  - intros f' i' Hin. apply (Hlines f'). by apply list_elem_of_further.
  - apply files_dict_add_rows; [|done]. apply (Hlines f), list_elem_of_here.
Qed.

Lemma seq_lines_rows prev_seq seq label f i :
  (f, i) ∈ seq_lines prev_seq seq label → i.1 = label ∧ length i.2 = 4%nat.
Proof.
  unfold seq_lines. intros Hin.
  apply elem_of_dict_set in Hin as [Hin|[_ ->]]; [|done].
  unfold interpolated in Hin. destruct prev_seq as [p|]; [|by apply elem_of_nil in Hin].
  destruct (seq_enabled p && (1 <? seq_frame seq - seq_frame p));
    [|by apply elem_of_nil in Hin].
  rewrite linear_interpolation_closed in Hin.
  apply list_elem_of_fmap in Hin as (f' & [= -> ->] & _). done.
Qed.

Lemma process_subject_rows labels_dict box_ fd s fd' :
  s ∈ box_ → rows_ok (row_of labels_dict box_) fd →
  process_subject labels_dict fd s = Ok fd' →
  rows_ok (row_of labels_dict box_) fd'.
Proof.
  intros Hs Hfd. unfold process_subject, subject_label.
  destruct (subject_labels s) as [|l [|l' ls]] eqn:Hl; try done.
  destruct (dict_get l labels_dict) as [label|] eqn:Hget; [|done]. simpl.
  intros [= <-].
  assert (Hgen : ∀ st, rows_ok (row_of labels_dict box_) st.1 →
            rows_ok (row_of labels_dict box_)
              (foldl (process_seq label) st (sequence s)).1).
  { induction (sequence s) as [|k ks IH]; intros st Hst; [done|].
    simpl. apply IH. unfold process_seq. cbn [fst].
    apply foldl_files_dict_add_rows; [|done].
    intros f i Hin. apply seq_lines_rows in Hin as [Hlab Hlen].
    split; [done|]. exists s, l. by rewrite Hlab. }
  by apply (Hgen (fd, None)).
Qed.

Lemma aggregate_rows labels_dict box_ fd :
  aggregate labels_dict box_ = Ok fd → rows_ok (row_of labels_dict box_) fd.
Proof.
  unfold aggregate.
  assert (Hgen : ∀ box' fd0,
            (∀ s, s ∈ box' → s ∈ box_) →
            rows_ok (row_of labels_dict box_) fd0 →
            for_each (process_subject labels_dict) fd0 box' = Ok fd →
            rows_ok (row_of labels_dict box_) fd).
  { induction box' as [|s box' IH]; intros fd0 Hsub Hfd0 Hfe; simpl in Hfe.
    - by injection Hfe as <-.
    - destruct (process_subject labels_dict fd0 s) as [fd1|] eqn:Hs; [|done].
      simpl in Hfe. apply (IH fd1); [|..|done].
      + intros s' Hs'. by apply Hsub, list_elem_of_further.
      + apply (process_subject_rows _ _ fd0 s); [|done..].
        apply Hsub, list_elem_of_here. }
  apply Hgen; [done|]. intros f rows Hin. by apply elem_of_nil in Hin.
Qed.

Lemma write_labels_entries avail offset padding items name rows :
  (name, rows) ∈ (write_labels avail offset padding items).1 →
  ∃ frame, (frame, rows) ∈ items ∧ is_available avail frame = true
           ∧ name = frame_name padding (offset + frame) ".txt".
Proof.
  induction items as [|[frame lines] items IH]; cbn [write_labels].
  - intros Hin. by apply elem_of_nil in Hin.
  - destruct (py_getitem avail frame) as [[]|] eqn:Hget.
    + destruct (write_labels avail offset padding items) as [out r].
      cbn [fst] in *. intros Hin. apply elem_of_cons in Hin as [[= -> ->]|Hin].
      * exists frame. split_and!; [apply list_elem_of_here| |done].
        unfold is_available. by rewrite Hget.
      * destruct (IH Hin) as (fr & Hfr & Ha & Hn).
        exists fr. split_and!; [by apply list_elem_of_further|done..].
    + intros Hin. destruct (IH Hin) as (fr & Hfr & Ha & Hn).
      exists fr. split_and!; [by apply list_elem_of_further|done..].
    + intros Hin. by apply elem_of_nil in Hin.
Qed.

(** Where a label file of [main] comes from. *)
Lemma main_labels_out E v offset labels name rows :
  (name, rows) ∈ labels_out (main E v offset labels) →
  ∃ avail fd max_frame frame,
    prepare v labels = Ok (avail, fd, max_frame)
    ∧ (frame, rows) ∈ fd ∧ is_available avail frame = true
    ∧ name = frame_name (String.length (str_int max_frame)) (offset + frame) ".txt".
Proof.
  unfold main, export.
  destruct (prepare v labels) as [[[avail fd] mf]|] eqn:Hprep;
    [|intros Hin; by apply elem_of_nil in Hin].
  pose proof (write_labels_entries avail offset (String.length (str_int mf)) fd
                name rows) as Hentries.
  destruct (write_labels avail offset (String.length (str_int mf)) fd) as [written r].
  cbn [fst] in Hentries.
  assert (Hout : (name, rows) ∈ written →
            ∃ avail0 fd0 max_frame frame,
              Ok (avail, fd, mf) = Ok (avail0, fd0, max_frame)
              ∧ (frame, rows) ∈ fd0 ∧ is_available avail0 frame = true
              ∧ name = frame_name (String.length (str_int max_frame))
                         (offset + frame) ".txt").
  { intros Hin. destruct (Hentries Hin) as (frame & ? & ? & ?).
    by exists avail, fd, mf, frame. }
  destruct r as [[]|]; [|done].
  destruct (if isfile E (video v)
            then extract_frames E (video v) avail offset (String.length (str_int mf)) fd
            else ([], Ok ())) as [images r'].
  by destruct r' as [[]|].
Qed.

Lemma make_labels_dict_index labels l i :
  NoDup labels → dict_get l (make_labels_dict labels) = Some i →
  0 ≤ i ∧ labels !! Z.to_nat i = Some l.
Proof.
  intros Hnd Hget. unfold make_labels_dict in Hget.
  assert (Hkeys : snd <$> imap (λ i k, (Z.of_nat i, k)) labels = labels).
  { apply list_eq. intros j. rewrite list_lookup_fmap, list_lookup_imap.
    by destruct (labels !! j). }
  rewrite (foldl_dict_set_items snd fst) in Hget; simpl in Hget.
  - apply dict_get_elem_of, list_elem_of_fmap in Hget as ([j l'] & [= -> ->] & Hin).
    apply elem_of_lookup_imap in Hin as (n & l'' & [= -> ->] & Hn). simpl.
    rewrite Nat2Z.id. split; [lia|done].
  - by rewrite Hkeys.
  - intros a _. apply not_elem_of_nil.
Qed.

(** X3. Every label file [main] writes has at least one row; every row has
    four coordinates after a class index, which is the index the class list
    gives to the label of one of the video's subjects: with a class list
    without repetitions, the label stands on that line of the list. *)
Theorem label_rows (E : env) (v : video_label) (offset : Z) (labels : list string)
    (name : string) (rows : list info) :
  (name, rows) ∈ labels_out (main E v offset labels) →
  rows ≠ []
  ∧ ∀ row, row ∈ rows →
      length row.2 = 4%nat
      ∧ ∃ s l, s ∈ box v ∧ subject_labels s = [l]
               ∧ dict_get l (make_labels_dict labels) = Some row.1
               ∧ (NoDup labels →
                  0 ≤ row.1 ∧ labels !! Z.to_nat row.1 = Some l).
Proof.
  intros Hin.
  apply main_labels_out in Hin as (avail & fd & mf & frame & Hprep & Hfr & _ & _).
  apply prepare_Ok in Hprep as (_ & fd0 & Hagg & -> & _).
  apply aggregate_rows in Hagg.
  unfold sorted_items in Hfr. rewrite merge_sort_Permutation in Hfr.
  destruct (Hagg _ _ Hfr) as [Hne Hrows]. split; [done|].
  intros row Hrow. destruct (Hrows row Hrow) as (Hlen & s & l & Hs & Hl & Hget).
  split; [done|]. exists s, l. split_and!; [done..|].
  intros Hnd. by apply make_labels_dict_index.
Qed.

(** ** The order of the files *)

Lemma StronglySorted_filter_lt (P : Z → Prop) `{∀ x, Decision (P x)} (l : list Z) :
  StronglySorted Z.lt l → StronglySorted Z.lt (filter P l).
Proof.
  induction 1 as [|x l Hs IH Hall]; [constructor|].
  destruct (decide (P x)) as [Hx|Hx].
  - rewrite filter_cons_True by done. constructor; [done|].
    rewrite Forall_forall in *. intros y Hy.
    apply list_elem_of_filter in Hy as [_ Hy]. by apply Hall.
  - by rewrite filter_cons_False.
Qed.

Lemma write_labels_names avail offset padding items out :
  write_labels avail offset padding items = (out, Ok ()) →
  out.*1 = (λ f, frame_name padding (offset + f) ".txt")
             <$> exported_frames avail items.
Proof.
  unfold exported_frames.
  revert out. induction items as [|[frame lines] items IH]; intros out Hw.
  - by injection Hw as <-.
  - cbn [write_labels] in Hw. unfold dict_keys in *. cbn [fmap list_fmap fst].
    destruct (py_getitem avail frame) as [b|] eqn:Hget; [|done].
    destruct (write_labels avail offset padding items) as [out' r] eqn:Hrest.
    assert (Hb : is_available avail frame = b).
    { unfold is_available. rewrite Hget. by destruct b. }
    destruct b.
    + injection Hw as <- ->. rewrite filter_cons_True by done.
      cbn [fmap list_fmap fst]. f_equal. by apply IH.
    + injection Hw as <- ->. rewrite filter_cons_False by (rewrite Hb; done).
      by apply IH.
Qed.

Lemma extract_frames_prefix E path avail offset padding items :
  ∃ k, (extract_frames E path avail offset padding items).1
       = (λ f, frame_name padding (offset + f) ".jpg")
           <$> take k (exported_frames avail items).
Proof.
  unfold exported_frames.
  induction items as [|[frame lines] items IH]; [by exists 0%nat|].
  cbn [extract_frames]. unfold dict_keys in *. cbn [fmap list_fmap fst].
  destruct IH as [k IH].
  destruct (py_getitem avail frame) as [b|] eqn:Hget.
  - assert (Hb : is_available avail frame = b).
    { unfold is_available. rewrite Hget. by destruct b. }
    destruct b.
    + rewrite filter_cons_True by done.
      destruct (read_frame E path (frame - 1)); [|by exists 0%nat].
      destruct (extract_frames E path avail offset padding items) as [out r].
      exists (S k). cbn [fst] in *. by rewrite IH.
    + rewrite filter_cons_False by (rewrite Hb; done). by exists k.
  - by exists 0%nat.
Qed.

(** X4. When [main] returns, the label files are written for the frames of
    the map whose mask entry is set, in strictly ascending frame order, no
    name twice; the images are written for an initial part of these frames
    and for no frame at all without a video file. *)
Theorem export_order (E : env) (v : video_label) (offset : Z) (labels : list string)
    (avail : list bool) (files_dict : dict Z (list info)) (max_frame n : Z) :
  prepare v labels = Ok (avail, files_dict, max_frame) →
  returned (main E v offset labels) = Ok n →
  frames_nonneg (box v) → 0 ≤ offset →
  let padding := String.length (str_int max_frame) in
  let o := main E v offset labels in
  StronglySorted Z.lt (exported_frames avail files_dict)
  ∧ (labels_out o).*1
    = (λ f, frame_name padding (offset + f) ".txt")
        <$> exported_frames avail files_dict
  ∧ NoDup ((labels_out o).*1)
  ∧ (∃ k, images_out o
          = (λ f, frame_name padding (offset + f) ".jpg")
              <$> take k (exported_frames avail files_dict))
  ∧ (isfile E (video v) = false → images_out o = []).
Proof.
  intros Hprep Hret Hnn Hoff padding o.
  destruct (prepare_Ok _ _ _ _ _ Hprep) as (Hav & fd & Hagg & -> & Hmax).
  destruct (aggregate_ok _ _ _ Hnn Hagg) as [Hnd Hkeys].
  assert (Hsorted : StronglySorted Z.lt (exported_frames avail (sorted_items fd))).
  { apply StronglySorted_filter_lt, StronglySorted_le_lt;
      [apply sorted_items_sorted|by apply sorted_items_NoDup]. }
  assert (Hnonneg : ∀ f, f ∈ exported_frames avail (sorted_items fd) → 0 ≤ f).
  { intros f Hf. apply list_elem_of_filter in Hf as [_ Hf].
    by apply Hkeys, sorted_items_keys. }
  subst o. unfold main, export in *. rewrite Hprep in *. fold padding in Hret |- *.
  destruct (write_labels avail offset padding (sorted_items fd))
    as [written r] eqn:Hw.
  destruct r as [[]|]; [|done].
  pose proof (write_labels_names _ _ _ _ _ Hw) as Hnames.
  pose proof (extract_frames_prefix E (video v) avail offset padding (sorted_items fd))
    as [k Hk].
  assert (Hdistinct : NoDup ((λ f, frame_name padding (offset + f) ".txt")
                               <$> exported_frames avail (sorted_items fd))).
  { apply NoDup_fmap_2_strong.
    - intros f1 f2 Hf1 Hf2 Heq. apply frame_name_inj in Heq; [lia|..].
      + specialize (Hnonneg f1 Hf1). lia.
      + specialize (Hnonneg f2 Hf2). lia.
    - clear -Hsorted. induction Hsorted as [|x l Hs IH Hall]; constructor; [|done].
      rewrite Forall_forall in Hall. intros Hx. specialize (Hall x Hx). lia. }
  destruct (isfile E (video v)) eqn:Hfile.
  - destruct (extract_frames E (video v) avail offset padding (sorted_items fd))
      as [images r'].
    cbn [fst] in Hk. subst images.
    destruct r' as [[]|]; cbn [labels_out images_out];
      (split_and!; [done|done|by rewrite Hnames|by exists k|done]).
  - cbn [labels_out images_out].
    split_and!; [done|done|by rewrite Hnames|by exists 0%nat|done].
Qed.

(** ** The numbering across videos *)

Lemma frame_name_inj_widths (p1 p2 : nat) (n m : Z) (ext : string) :
  0 ≤ n → 0 ≤ m →
  frame_name p1 n ext = frame_name p2 m ext → n = m.
Proof.
  intros Hn Hm Heq. unfold frame_name in Heq.
  apply (inj (String.app "frame_")) in Heq.
  assert (Hfmt : format_0d p1 n = format_0d p2 m).
  { apply (string_app_inv _ _ ext ext); [|done].
    apply (f_equal String.length) in Heq. rewrite !string_app_length in Heq. lia. }
  rewrite <- (format_0d_value p1 n), <- (format_0d_value p2 m) by done.
  by rewrite Hfmt.
Qed.

Lemma run_videos_calls E labels c video_labels o out :
  0 ≤ c → (o, out) ∈ (run_videos E labels c video_labels).1 →
  c ≤ o ∧ ∃ v, v ∈ video_labels ∧ out = main E v o labels.
Proof.
  revert c. induction video_labels as [|v vs IH]; intros c Hc Hin.
  - by apply elem_of_nil in Hin.
  - cbn [run_videos] in Hin.
    destruct (returned (main E v c labels)) as [n|] eqn:Hret.
    + destruct (main_returned E v c labels n Hret) as (_ & fd & _ & _ & Hn).
      destruct (run_videos E labels (c + n) vs) as [calls_ r] eqn:Hrest.
      cbn [fst] in Hin. apply elem_of_cons in Hin as [[= -> ->]|Hin].
      * split; [lia|]. exists v. split; [apply list_elem_of_here|done].
      * destruct (IH (c + n)) as [Ho (v' & Hv' & Hout)]; [lia|by rewrite Hrest|].
        split; [lia|]. exists v'. split; [by apply list_elem_of_further|done].
    + cbn [fst] in Hin. apply list_elem_of_singleton in Hin as [= -> ->].
      split; [lia|]. exists v. split; [apply list_elem_of_here|done].
Qed.

Lemma run_videos_later E labels c video_labels i j oi oj :
  0 ≤ c → (i < j)%nat →
  (run_videos E labels c video_labels).1 !! i = Some oi →
  (run_videos E labels c video_labels).1 !! j = Some oj →
  ∃ n, returned oi.2 = Ok n ∧ oi.1 + n ≤ oj.1.
Proof.
  revert c i j. induction video_labels as [|v vs IH]; intros c i j Hc Hij Hi Hj.
  - done.
  - cbn [run_videos] in Hi, Hj.
    destruct (returned (main E v c labels)) as [n|] eqn:Hret.
    + destruct (main_returned E v c labels n Hret) as (_ & fd & _ & _ & Hn).
      destruct (run_videos E labels (c + n) vs) as [calls_ r] eqn:Hrest.
      cbn [fst] in Hi, Hj. destruct j as [|j]; [lia|]. simpl in Hj.
      destruct i as [|i].
      * injection Hi as <-. exists n. split; [done|]. cbn [fst].
        destruct oj as [o out]. apply list_elem_of_lookup_2 in Hj.
        destruct (run_videos_calls E labels (c + n) vs o out) as [Ho _];
          [lia|by rewrite Hrest|done].
      * simpl in Hi. apply (IH (c + n) i j); [lia|lia|by rewrite Hrest..].
    + cbn [fst] in Hj. destruct j as [|[|j]]; [lia|done..].
Qed.

(** X5. When the frames with lines of every video are numbered from 0
    without going past their count, no two calls of [main] in a run write a
    label file of the same name, although the offset is counted twice: a
    later call starts at an offset beyond every index of an earlier one. *)
Theorem run_names_disjoint (E : env) (labels : list string) (c : Z)
    (video_labels : list video_label) (i j : nat) (oi oj : Z * outcome)
    (name : string) :
  0 ≤ c → frames_contiguous labels video_labels → (i < j)%nat →
  (run_videos E labels c video_labels).1 !! i = Some oi →
  (run_videos E labels c video_labels).1 !! j = Some oj →
  name ∈ (labels_out oi.2).*1 → name ∉ (labels_out oj.2).*1.
Proof.
  intros Hc Hcont Hij Hi Hj Hni Hnj.
  destruct (run_videos_later E labels c video_labels i j oi oj Hc Hij Hi Hj)
    as (n & Hret & Hle).
  destruct oi as [o1 out1], oj as [o2 out2]. cbn [fst snd] in *.
  apply list_elem_of_lookup_2 in Hi, Hj.
  destruct (run_videos_calls E labels c video_labels o1 out1 Hc Hi)
    as (Ho1 & v1 & Hv1 & ->).
  destruct (run_videos_calls E labels c video_labels o2 out2 Hc Hj)
    as (Ho2 & v2 & Hv2 & ->).
  destruct (main_returned E v1 o1 labels n Hret) as (av1 & fd1 & mf1 & Hprep1 & Hn).
  apply list_elem_of_fmap in Hni as ([name1 rows1] & Hname1 & Hin1).
  apply list_elem_of_fmap in Hnj as ([name2 rows2] & Hname2 & Hin2).
  cbn [fst] in Hname1, Hname2. subst name1 name2.
  apply main_labels_out in Hin1 as (av1' & fd1' & mf1' & f1 & Hp1 & Hf1 & _ & Hn1).
  apply main_labels_out in Hin2 as (av2 & fd2 & mf2 & f2 & Hp2 & Hf2 & _ & Hn2).
  rewrite Hprep1 in Hp1. injection Hp1 as <- <- <-.
  assert (Hb1 : 0 ≤ f1 < Z.of_nat (length fd1)).
  { apply (Hcont v1 av1 fd1 mf1 Hv1 Hprep1).
    apply list_elem_of_fmap. by exists (f1, rows1). }
  assert (Hb2 : 0 ≤ f2 < Z.of_nat (length fd2)).
  { apply (Hcont v2 av2 fd2 mf2 Hv2 Hp2).
    apply list_elem_of_fmap. by exists (f2, rows2). }
  rewrite Hn1 in Hn2. apply frame_name_inj_widths in Hn2; lia.
Qed.

(** ** How [main] fails *)

Lemma make_labels_dict_unknown labels l :
  l ∉ labels → dict_get l (make_labels_dict labels) = None.
Proof.
  intros Hl. destruct (dict_get l (make_labels_dict labels)) as [i|] eqn:Hg; [|done].
  exfalso. apply Hl.
  assert (Hin : l ∈ dict_keys (make_labels_dict labels)).
  { apply dict_keys_is_Some. by exists i. }
  unfold make_labels_dict in Hin. apply foldl_dict_set_keys in Hin as [Hin|Hin].
  - by apply elem_of_nil in Hin.
  - assert (Hkeys : snd <$> imap (λ i k, (Z.of_nat i, k)) labels = labels).
    { apply list_eq. intros j. rewrite list_lookup_fmap, list_lookup_imap.
      by destruct (labels !! j). }
    by rewrite Hkeys in Hin.
Qed.

(** X6. The ways [main] ends with an exception before any file is written.
    A video without subjects gives [ValueError] (the maximum of no frame
    numbers); a subject without key frames or without labels gives
    [IndexError] while the mask is built, whatever the other subjects are;
    and when the mask is built and every subject has exactly one label, a
    label that is not among [labels] gives [KeyError]. *)
Theorem main_failures (E : env) (v : video_label) (offset : Z) (labels : list string) :
  (box v = [] → main E v offset labels = mkOutcome [] [] (Raise ValueError))
  ∧ ((∃ s, s ∈ box v ∧ (sequence s = [] ∨ subject_labels s = [])) →
     main E v offset labels = mkOutcome [] [] (Raise IndexError))
  ∧ (∀ avail, available_frames (box v) = Ok avail →
     (∀ s, s ∈ box v → single_label s = true) →
     (∃ s l, s ∈ box v ∧ subject_labels s = [l] ∧ l ∉ labels) →
     main E v offset labels = mkOutcome [] [] (Raise KeyError)).
Proof.
  split; [|split].
  - intros Hbox. unfold main, prepare, available_frames, aggregate.
    by rewrite Hbox.
  - intros (s & Hs & Hempty).
    assert (Hav : available_frames (box v) = Raise IndexError).
    { unfold available_frames.
      destruct (for_each_raises mark_subject
                  (replicate (Z.to_nat (max_frames_of (box v) + 1)) false)
                  (box v) s Hs) as [e He].
      { intros av. exists IndexError. by apply mark_subject_empty. }
      rewrite He. f_equal.
      apply for_each_Raise in He as (av & s' & _ & Hm).
      by apply mark_subject_Raise in Hm. }
    unfold main, prepare, prepare_with. by rewrite Hav.
  - intros avail Hav Hsingle (s & l & Hs & Hl & Hunknown).
    assert (Hagg : aggregate (make_labels_dict labels) (box v) = Raise KeyError).
    { unfold aggregate.
      destruct (for_each_raises (process_subject (make_labels_dict labels)) []
                  (box v) s Hs) as [e He].
      { intros fd. exists KeyError. unfold process_subject, subject_label.
        by rewrite Hl, make_labels_dict_unknown. }
      rewrite He. f_equal.
      apply for_each_Raise in He as (fd & s' & Hs' & Hp).
      unfold process_subject, subject_label in Hp.
      specialize (Hsingle s' Hs'). unfold single_label in Hsingle.
      destruct (subject_labels s') as [|l' [|l'' ls]]; [done| |done].
      destruct (dict_get l' (make_labels_dict labels)); simpl in Hp; congruence. }
    unfold main, prepare, prepare_with. by rewrite Hav, Hagg.
Qed.

(** ** The driver *)

Lemma run_videos_shape E labels c video_labels :
  let r := run_videos E labels c video_labels in
  (length r.1 ≤ length video_labels)%nat
  ∧ (∀ n, r.2 = Ok n →
       length r.1 = length video_labels
       ∧ ∀ call, call ∈ r.1 → ∃ m, returned call.2 = Ok m)
  ∧ (∀ e, r.2 = Raise e →
       ∃ init last_, r.1 = init ++ [last_] ∧ returned last_.2 = Raise e
                     ∧ ∀ call, call ∈ init → ∃ m, returned call.2 = Ok m).
Proof.
  revert c. induction video_labels as [|v vs IH]; intros c; cbn zeta.
  - cbn [run_videos fst snd length]. split; [done|]. split; [|done].
    intros n _. split; [done|]. intros call Hc. by apply elem_of_nil in Hc.
  - cbn [run_videos].
    destruct (returned (main E v c labels)) as [n|e] eqn:Hret.
    + specialize (IH (c + n)). cbn zeta in IH.
      destruct (run_videos E labels (c + n) vs) as [calls_ r].
      cbn [fst snd length] in *. destruct IH as (Hlen & Hok & Hraise).
      split; [lia|]. split.
      * intros n' Hr. destruct (Hok n' Hr) as [Hl Hall]. split; [lia|].
        intros call [->|Hc]%elem_of_cons; [by exists n|by apply Hall].
      * intros e Hr. destruct (Hraise e Hr) as (init & last_ & -> & Hlast & Hall).
        exists ((c, main E v c labels) :: init), last_. split; [done|].
        split; [done|].
        intros call [->|Hc]%elem_of_cons; [by exists n|by apply Hall].
    + cbn [fst snd length]. split; [lia|]. split; [done|].
      intros e' [= <-]. exists [], (c, main E v c labels).
      split; [done|]. split; [done|].
      intros call Hc. by apply elem_of_nil in Hc.
Qed.

(** X7. For a bundle with at least one video the driver stops at the first
    video for which [main] raises: [classes.txt] is written exactly when the
    run finishes; then [main] was called once for every video, so at least
    once, and returned each time (the output directory exists by then), and
    [classes.txt] holds the labels collected. When the run ends with an
    exception, either the labels could not be collected ([TypeError], no
    call of [main] at all), or the last call made is the one that raised
    it, every call before it returned, and the videos after it were not
    processed. *)
Theorem run_stops_at_first_failure (E : env) (video_labels : list video_label) :
  video_labels ≠ [] →
  let r := run E video_labels in
  (is_Some (classes_txt r) ↔ ∃ n, finished r = Ok n)
  ∧ (length (calls r) ≤ length video_labels)%nat
  ∧ (∀ n, finished r = Ok n →
       calls r ≠ []
       ∧ length (calls r) = length video_labels
       ∧ (∀ call, call ∈ calls r → ∃ m, returned call.2 = Ok m)
       ∧ ∃ labels, extract_labels video_labels = Ok labels
                   ∧ classes_txt r = Some labels)
  ∧ (∀ e, finished r = Raise e →
       (calls r = [] ∧ e = TypeError ∧ extract_labels video_labels = Raise TypeError)
       ∨ ∃ init last_, calls r = init ++ [last_] ∧ returned last_.2 = Raise e
                       ∧ ∀ call, call ∈ init → ∃ m, returned call.2 = Ok m).
Proof.
  intros Hne. cbn zeta. unfold run.
  destruct (extract_labels video_labels) as [labels|e0] eqn:Hlabels.
  - pose proof (run_videos_shape E labels 0 video_labels) as Hshape.
    cbn zeta in Hshape.
    destruct (run_videos E labels 0 video_labels) as [calls_ r].
    cbn [fst snd] in Hshape. destruct Hshape as (Hlen & Hok & Hraise).
    destruct r as [n|e]; cbn [calls classes_txt finished].
    + split; [split; [by exists n|by eexists]|]. split; [done|].
      split; [|done]. intros n' [= <-]. destruct (Hok n eq_refl) as [Hl Hall].
      split; [|split; [done|split; [done|by exists labels]]].
      intros ->. destruct video_labels; [done|discriminate].
    + split; [split; [by intros [? ?]|by intros [? ?]]|]. split; [done|].
      split; [done|]. intros e' [= <-]. right. by apply Hraise.
  - cbn [calls classes_txt finished length].
    split; [split; [by intros [? ?]|by intros [? ?]]|]. split; [lia|].
    split; [done|]. intros e [= <-]. left.
    rewrite extract_labels_unfold in Hlabels.
    destruct (forallb single_label (all_subjects video_labels)); [done|].
    by injection Hlabels as <-.
Qed.

(** ** The normalization of a key frame *)

Lemma scaled_range (c s X : Z) : c * 10 ^ s = X → 0 ≤ s → 0 ≤ X → 0 ≤ c ≤ X.
Proof. intros <- Hs HX. pose proof (pow10_pos s Hs). nia. Qed.

(** Division by an integer [d] that divides [10^m], [m <= 2] (as 2 and 100
    do), is exact while the quotient has at most 28 digits. *)
Lemma ddiv_by_small (a : Decimal) (d k m : Z) :
  0 < d → 0 ≤ m ≤ 2 → d * k = 10 ^ m → Z.abs (coef a) * k < 10 ^ prec →
  ∃ c e, ddiv a (Decimal_of_int d) = mkDecimal c e
         ∧ dexp a - m ≤ e ≤ dexp a
         ∧ c * 10 ^ (e - (dexp a - m)) = coef a * k.
Proof.
  intros Hd Hm Hdk Hlt.
  assert (Hpm : 0 < 10 ^ m) by (apply pow10_pos; lia).
  assert (Hk : 1 ≤ k) by nia.
  unfold ddiv, Decimal_of_int. cbn [coef dexp].
  destruct (Z.eqb_spec d 0) as [|_]; [lia|].
  destruct (Z.eqb_spec (coef a) 0) as [Ha0|Ha0].
  - exists 0, (dexp a - 0). split; [by apply dfix_small|].
    split; [lia|]. rewrite Ha0. lia.
  - set (ca := Z.abs (coef a)) in *.
    assert (Hca : 1 ≤ ca) by (unfold ca; lia).
    rewrite (Z.abs_eq d) by lia.
    destruct (ndigits_spec ca Hca) as (Hn1 & Hn2 & Hn3).
    destruct (ndigits_spec d) as (Hd1 & Hd2 & Hd3); [lia|].
    assert (Hlen : ndigits ca ≤ prec).
    { apply ndigits_le; [|unfold prec; lia]. nia. }
    set (shift := ndigits d - ndigits ca + prec + 1).
    assert (Hshift : m ≤ shift ∧ 0 ≤ shift) by (unfold shift; lia).
    destruct (Z.leb_spec 0 shift) as [_|]; [|lia].
    destruct (Z.div_eucl (ca * 10 ^ shift) d) as [q r] eqn:Heucl.
    assert (Hq : q = (ca * 10 ^ shift) / d) by (unfold Z.div; by rewrite Heucl).
    assert (Hr : r = (ca * 10 ^ shift) mod d) by (unfold Z.modulo; by rewrite Heucl).
    assert (Hsplit : 10 ^ shift = 10 ^ m * 10 ^ (shift - m)).
    { rewrite <- Z.pow_add_r by lia. f_equal. lia. }
    assert (Hprod : ca * 10 ^ shift = ca * k * 10 ^ (shift - m) * d).
    { rewrite Hsplit, <- Hdk. ring. }
    assert (Hr0 : r = 0) by (rewrite Hr, Hprod; apply Z.mod_mul; lia).
    assert (Hq0 : q = ca * k * 10 ^ (shift - m)).
    { rewrite Hq, Hprod. apply Z.div_mul. lia. }
    rewrite Hr0. cbn [Z.eqb].
    destruct (strip_zeros_spec (Z.to_nat shift) q (dexp a - 0 - shift) (dexp a - 0)
                (ca * k) (shift - m)) as (i & Hi & Hval & Hexp & Hle);
      [lia|done|lia|].
    destruct (strip_zeros (Z.to_nat shift) q (dexp a - 0 - shift) (dexp a - 0))
      as [c e].
    cbn [fst snd] in Hval, Hexp. subst e.
    assert (Hpi : 0 < 10 ^ (shift - m)) by (apply pow10_pos; lia).
    assert (Hpj : 0 < 10 ^ (i - (shift - m))) by (apply pow10_pos; lia).
    assert (Hsplit' : 10 ^ i = 10 ^ (i - (shift - m)) * 10 ^ (shift - m)).
    { rewrite <- Z.pow_add_r by lia. f_equal. lia. }
    assert (Hc : c * 10 ^ (i - (shift - m)) = ca * k).
    { apply (Z.mul_reg_r _ _ (10 ^ (shift - m))); [lia|].
      rewrite <- Hq0, <- Hval, Hsplit'. ring. }
    assert (Hc0 : 0 ≤ c ≤ ca * k).
    { apply (scaled_range c (i - (shift - m)) (ca * k) Hc); [lia|].
      apply Z.mul_nonneg_nonneg; lia. }
    exists (Z.sgn (coef a) * Z.sgn d * c), (dexp a - 0 - shift + i).
    split; [|split; [lia|]].
    + apply dfix_small. cbn [coef].
      rewrite (Z.sgn_pos d) by lia.
      destruct (Z.sgn_spec (coef a)) as [[? ->]|[[? ->]|[? ->]]]; lia.
    + replace (dexp a - 0 - shift + i - (dexp a - m)) with (i - (shift - m)) by lia.
      rewrite (Z.sgn_pos d) by lia.
      transitivity (Z.sgn (coef a) * (c * 10 ^ (i - (shift - m)))); [ring|].
      rewrite Hc. unfold ca.
      transitivity (Z.sgn (coef a) * Z.abs (coef a) * k); [ring|].
      f_equal. destruct (Z.sgn_spec (coef a)) as [[? ->]|[[? ->]|[? ->]]]; lia.
Qed.

(** A coefficient whose value at a lower exponent is bounded. *)
Lemma scaled_bound (c e m X N : Z) :
  c * 10 ^ (e - m) = X → m ≤ e ≤ 0 → Z.abs X ≤ N * 10 ^ (- m) →
  Z.abs c ≤ N * 10 ^ (- e).
Proof.
  intros HX He Hb.
  replace (- m) with (- e + (e - m)) in Hb by lia.
  rewrite pow10_split in Hb by lia.
  pose proof (pow10_pos (e - m)). pose proof (pow10_pos (- e)).
  rewrite <- HX, Z.abs_mul, (Z.abs_eq (10 ^ (e - m))) in Hb by lia.
  nia.
Qed.

Local Open Scope Q_scope.

Lemma ddiv_by_exact (a : Decimal) (d k m : Z) :
  (0 < d)%Z → (0 ≤ m ≤ 2)%Z → (d * k = 10 ^ m)%Z → (Z.abs (coef a) * k < 10 ^ prec)%Z →
  dec_Q (ddiv a (Decimal_of_int d)) == dec_Q a / inject_Z d.
Proof.
  intros Hd Hm Hdk Hlt.
  destruct (ddiv_by_small a d k m Hd Hm Hdk Hlt) as (c & e & -> & He & Hc).
  rewrite (dec_Q_scaled c e (dexp a - m) _ (proj1 He) Hc).
  assert (Hd0 : ¬ inject_Z d == 0).
  { intros H. apply (inject_Z_injective d 0) in H. lia. }
  assert (Hk0 : ¬ inject_Z k == 0).
  { intros H. apply (inject_Z_injective k 0) in H.
    pose proof (pow10_pos m). nia. }
  assert (Hpow : inject_Z 10 ^ m == inject_Z d * inject_Z k).
  { rewrite <- inject_Z_mult, Hdk. symmetry. apply Zpower_Qpower. lia. }
  unfold dec_Q, Z.sub. rewrite inject_Z_mult, (Qpower_plus _ _ _ ten_not_0).
  rewrite Qpower_opp, Hpow. field. by split.
Qed.

Lemma dec_Q_nonneg (d : Decimal) : (0 ≤ coef d)%Z → 0 <= dec_Q d.
Proof.
  intros Hc. unfold dec_Q. apply Qmult_le_0_compat.
  - rewrite Zle_Qle in Hc. exact Hc.
  - apply Qpower_0_le. done.
Qed.

(** The value of a [Decimal] against an integer, as a bound on its
    coefficient. *)
Lemma dec_Q_coef (d : Decimal) :
  (dexp d ≤ 0)%Z → inject_Z (coef d) == dec_Q d * inject_Z (10 ^ (- dexp d)).
Proof.
  intros He. unfold dec_Q. rewrite (Zpower_Qpower 10 (- dexp d)) by lia.
  rewrite <- Qmult_assoc, <- (Qpower_plus _ _ _ ten_not_0).
  replace (dexp d + - dexp d)%Z with 0%Z by lia. simpl. ring.
Qed.

Lemma dec_Q_unit (d : Decimal) :
  (dexp d ≤ 0)%Z → 0 <= dec_Q d → dec_Q d <= 1 →
  (Z.abs (coef d) ≤ 10 ^ (- dexp d))%Z.
Proof.
  intros He H0 H1.
  assert (HP : 0 <= inject_Z (10 ^ (- dexp d))).
  { change 0 with (inject_Z 0). rewrite <- Zle_Qle.
    apply Z.lt_le_incl, pow10_pos. lia. }
  assert (Hlo : (0 ≤ coef d)%Z).
  { rewrite Zle_Qle, (dec_Q_coef d He). change (inject_Z 0) with 0.
    by apply Qmult_le_0_compat. }
  assert (Hhi : (coef d ≤ 10 ^ (- dexp d))%Z).
  { rewrite Zle_Qle, (dec_Q_coef d He).
    rewrite <- (Qmult_1_l (inject_Z (10 ^ (- dexp d)))) at 2.
    by apply Qmult_le_compat_r. }
  lia.
Qed.

Local Close Scope Q_scope.

(** The size of a box, scaled: [seq[k] /= Decimal('100')]. *)
Lemma scale_exact (p : Z) (w : Decimal) :
  0 ≤ p ≤ 25 → percent p w →
  (dec_Q (ddiv w (Decimal_of_int 100)) == dec_Q w / 100)%Q
  ∧ fits (p + 2) (ddiv w (Decimal_of_int 100))
  ∧ 0 ≤ coef (ddiv w (Decimal_of_int 100)).
Proof.
  intros Hp [He Hc].
  assert (Hpow : 10 ^ (- dexp w) ≤ 10 ^ 25) by (apply pow10_le; lia).
  assert (H28 : 10 ^ prec = 1000 * 10 ^ 25) by reflexivity.
  assert (Hlt : Z.abs (coef w) * 1 < 10 ^ prec) by lia.
  split.
  - apply (ddiv_by_exact w 100 1 2); [lia|lia|done|done].
  - destruct (ddiv_by_small w 100 1 2) as (c & e & -> & He' & Hc');
      [lia|lia|done|done|].
    unfold fits. cbn [coef dexp].
    split; [|apply (scaled_range c (e - (dexp w - 2)) (coef w * 1) Hc'); lia].
    split; [lia|].
    rewrite <- (Z.mul_1_l (10 ^ (- e))).
    apply (scaled_bound c e (dexp w - 2) (coef w * 1) 1 Hc'); [lia|].
    replace (- (dexp w - 2)) with (- dexp w + 2) by lia.
    rewrite pow10_split by lia. change (10 ^ 2) with 100. lia.
Qed.

(** The centre of a box, scaled: [seq['x'] += seq['width'] / Decimal('2')]
    and then [seq['x'] /= Decimal('100')]. *)
Lemma centre_exact (p : Z) (x w : Decimal) :
  0 ≤ p ≤ 24 → percent p x → percent p w →
  let c := ddiv (dadd x (ddiv w (Decimal_of_int 2))) (Decimal_of_int 100) in
  (dec_Q c == (dec_Q x + dec_Q w / 2) / 100)%Q
  ∧ - (p + 3) ≤ dexp c ≤ 0 ∧ 0 ≤ coef c
  ∧ ((dec_Q x + dec_Q w <= 100)%Q → fits (p + 3) c).
Proof.
  intros Hp [Hex Hcx] [Hew Hcw]. cbn zeta.
  assert (H25 : ∀ e, - e ≤ 25 → 10 ^ (- e) ≤ 10 ^ 25) by (intros; by apply pow10_le).
  assert (H28 : 10 ^ prec = 1000 * 10 ^ 25) by reflexivity.
  assert (Hpos25 : 0 < 10 ^ 25) by (by apply pow10_pos).
  (* half the width *)
  assert (Hhalf_lt : Z.abs (coef w) * 5 < 10 ^ prec).
  { specialize (H25 (dexp w)). lia. }
  assert (Hhalf := ddiv_by_exact w 2 5 1 ltac:(lia) ltac:(lia) eq_refl Hhalf_lt).
  change (inject_Z 2) with 2%Q in Hhalf.
  destruct (ddiv_by_small w 2 5 1) as (c1 & e1 & Hheq & He1 & Hc1);
    [lia|lia|done|done|].
  assert (Hc1_nonneg : 0 ≤ c1).
  { apply (scaled_range c1 (e1 - (dexp w - 1)) (coef w * 5) Hc1); lia. }
  assert (Hc1_bound : Z.abs c1 ≤ 50 * 10 ^ (- e1)).
  { apply (scaled_bound c1 e1 (dexp w - 1) (coef w * 5) 50 Hc1); [lia|].
    replace (- (dexp w - 1)) with (- dexp w + 1) by lia.
    rewrite pow10_split by lia. change (10 ^ 1) with 10. lia. }
  (* the corner plus half the width *)
  set (mm := Z.min (dexp x) e1).
  assert (Hmm : mm ≤ dexp x ∧ mm ≤ e1 ∧ - (p + 1) ≤ mm ≤ 0) by (unfold mm; lia).
  assert (Hax := aligned_bound (coef x) (dexp x) mm 100).
  assert (Hah := aligned_bound c1 e1 mm 50).
  assert (Hsum_lt : Z.abs (coef x) * 10 ^ (dexp x - mm)
                    + Z.abs (coef (mkDecimal c1 e1))
                      * 10 ^ (dexp (mkDecimal c1 e1) - mm) < 10 ^ prec).
  { cbn [coef dexp]. specialize (H25 mm). lia. }
  assert (Hsum := dadd_exact x (mkDecimal c1 e1)). cbn zeta in Hsum.
  cbn [dexp] in Hsum. fold mm in Hsum. specialize (Hsum Hsum_lt).
  destruct (dadd_small x (mkDecimal c1 e1) Hsum_lt) as (c2 & e2 & Hseq & He2 & Hc2).
  cbn [coef dexp] in He2, Hc2, Hsum_lt. fold mm in He2, Hc2.
  assert (He2' : mm ≤ e2 ≤ 0) by lia.
  assert (Hsum_nonneg : 0 ≤ coef x * 10 ^ (dexp x - mm) + c1 * 10 ^ (e1 - mm)).
  { pose proof (pow10_pos (dexp x - mm)). pose proof (pow10_pos (e1 - mm)).
    apply Z.add_nonneg_nonneg; apply Z.mul_nonneg_nonneg; lia. }
  assert (Hc2_nonneg : 0 ≤ c2).
  { apply (scaled_range c2 (e2 - mm) _ Hc2); [lia|done]. }
  assert (Hc2_bound : Z.abs c2 ≤ 150 * 10 ^ (- e2)).
  { apply (scaled_bound c2 e2 mm _ 150 Hc2); [lia|].
    rewrite Z.abs_eq by done.
    rewrite (Z.abs_eq (coef x)), (Z.abs_eq c1) in * by lia. lia. }
  (* the scaling *)
  assert (Hscale_lt : Z.abs (coef (mkDecimal c2 e2)) * 1 < 10 ^ prec).
  { cbn [coef]. specialize (H25 e2). lia. }
  assert (Hscale := ddiv_by_exact (mkDecimal c2 e2) 100 1 2
                      ltac:(lia) ltac:(lia) eq_refl Hscale_lt).
  change (inject_Z 100) with 100%Q in Hscale.
  destruct (ddiv_by_small (mkDecimal c2 e2) 100 1 2) as (c3 & e3 & Hceq & He3 & Hc3);
    [lia|lia|done|done|].
  cbn [coef dexp] in He3, Hc3.
  assert (Hc3_nonneg : 0 ≤ c3).
  { apply (scaled_range c3 (e3 - (e2 - 2)) (c2 * 1) Hc3); lia. }
  rewrite Hheq, Hseq.
  assert (Hval : (dec_Q (ddiv (mkDecimal c2 e2) (Decimal_of_int 100))
                  == (dec_Q x + dec_Q w / 2) / 100)%Q).
  { rewrite Hscale, <- Hseq, Hsum, <- Hheq, Hhalf. reflexivity. }
  split; [exact Hval|].
  rewrite Hceq in Hval |- *. cbn [coef dexp].
  split; [lia|]. split; [done|].
  intros Hinside. split; [cbn [dexp]; lia|].
  assert (Hw0 : (0 <= dec_Q w)%Q) by (apply dec_Q_nonneg; lia).
  assert (Hx0 : (0 <= dec_Q x)%Q) by (apply dec_Q_nonneg; lia).
  apply dec_Q_unit; [cbn [dexp]; lia|by apply dec_Q_nonneg|].
  rewrite Hval.
  setoid_replace ((dec_Q x + dec_Q w / 2) / 100)%Q
    with ((dec_Q x + dec_Q w * (1 # 2)) * (1 # 100))%Q using relation Qeq by field.
  lra.
Qed.

(** X8. The normalization of a key frame is exact on Label Studio's
    percentages: for a corner and a size between 0 and 100 with at most 24
    decimal places, the four values after lines 80-85 are the centre and the
    size divided by 100, none of the three [Decimal] operations rounds, the
    sizes lie between 0 and 1, and so does a centre whose box lies inside
    the image. *)
Theorem normalize_exact (seq : keyframe) (p : Z) :
  0 ≤ p ≤ 24 →
  percent p (seq_x seq) → percent p (seq_y seq) →
  percent p (seq_width seq) → percent p (seq_height seq) →
  let n := normalize seq in
  (dec_Q (seq_x n) == (dec_Q (seq_x seq) + dec_Q (seq_width seq) / 2) / 100)%Q
  ∧ (dec_Q (seq_y n) == (dec_Q (seq_y seq) + dec_Q (seq_height seq) / 2) / 100)%Q
  ∧ (dec_Q (seq_width n) == dec_Q (seq_width seq) / 100)%Q
  ∧ (dec_Q (seq_height n) == dec_Q (seq_height seq) / 100)%Q
  ∧ fits (p + 2) (seq_width n) ∧ fits (p + 2) (seq_height n)
  ∧ ((dec_Q (seq_x seq) + dec_Q (seq_width seq) <= 100)%Q → fits (p + 3) (seq_x n))
  ∧ ((dec_Q (seq_y seq) + dec_Q (seq_height seq) <= 100)%Q → fits (p + 3) (seq_y n)).
Proof.
  intros Hp Hx Hy Hw Hh. cbn zeta. unfold normalize. cbn [seq_x seq_y seq_width seq_height].
  destruct (centre_exact p (seq_x seq) (seq_width seq)) as (Hcx & _ & _ & Hfx);
    [done..|].
  destruct (centre_exact p (seq_y seq) (seq_height seq)) as (Hcy & _ & _ & Hfy);
    [done..|].
  destruct (scale_exact p (seq_width seq)) as (Hsw & Hfw & _); [lia|done|].
  destruct (scale_exact p (seq_height seq)) as (Hsh & Hfh & _); [lia|done|].
  cbn zeta in Hcx, Hcy, Hfx, Hfy.
  split_and!; assumption.
Qed.

(** ** Normalization, then interpolation *)

Lemma fits_mono (p p' : Z) (d : Decimal) : p ≤ p' → fits p d → fits p' d.
Proof. intros Hp [He Hc]. split; [lia|done]. Qed.

Lemma normalize_fits (p : Z) (k : keyframe) :
  0 ≤ p ≤ 24 → exported_box p k →
  Forall (fits (p + 3)) (coords (normalize k))
  ∧ Forall2 (λ d v, (dec_Q d == v)%Q) (coords (normalize k)) (yolo_box k).
Proof.
  intros Hp (Hx & Hy & Hw & Hh & Hix & Hiy).
  destruct (centre_exact p (seq_x k) (seq_width k)) as (Hcx & _ & _ & Hfx); [done..|].
  destruct (centre_exact p (seq_y k) (seq_height k)) as (Hcy & _ & _ & Hfy); [done..|].
  destruct (scale_exact p (seq_width k)) as (Hsw & Hfw & _); [lia|done|].
  destruct (scale_exact p (seq_height k)) as (Hsh & Hfh & _); [lia|done|].
  cbn zeta in Hcx, Hcy, Hfx, Hfy.
  unfold coords, yolo_box, normalize. cbn [seq_x seq_y seq_width seq_height].
  split.
  - repeat apply Forall_cons_2; [by apply Hfx|by apply Hfy| | |apply Forall_nil_2].
    + apply (fits_mono (p + 2)); [lia|done].
    + apply (fits_mono (p + 2)); [lia|done].
  - repeat apply Forall2_cons_2; [assumption..|apply Forall2_nil_2].
Qed.

(** X9. Normalization and interpolation together: for two exported key
    frames with at most [p] decimal places and a fraction of the way with
    at most [j] decimal places, [p + j <= 24], the row that
    [linear_interpolation] gives a frame between them carries, for each of
    the four values, exactly the point on the line between the centres (or
    sizes) of the two boxes as fractions of the image: none of the
    [Decimal] operations of lines 80-85 and 28-32 rounds. *)
Theorem interpolated_row_exact (P C : keyframe) (label frame p j : Z) :
  seq_frame P < frame < seq_frame C → 0 ≤ p → 0 ≤ j → p + j ≤ 24 →
  exported_box p P → exported_box p C →
  ((frame - seq_frame P) * 10 ^ j) mod (seq_frame C - seq_frame P) = 0 →
  let q := (inject_Z (frame - seq_frame P) / inject_Z (seq_frame C - seq_frame P))%Q in
  ∃ values,
    dict_get frame (linear_interpolation (normalize P) (normalize C) label)
    = Some (label, dec_str <$> values)
    ∧ Forall2 (λ d v, (dec_Q d == v)%Q) values
        (zip_with (on_line q) (yolo_box P) (yolo_box C)).
Proof.
  intros Hf Hp Hj Hpj HP HC Hdiv. cbn zeta.
  destruct (normalize_fits p P) as [HfP HvP]; [lia|done|].
  destruct (normalize_fits p C) as [HfC HvC]; [lia|done|].
  set (t := fraction (seq_frame P) (seq_frame C) frame).
  exists ((λ b, lerp t b.1 b.2) <$> zip (coords (normalize P)) (coords (normalize C))).
  split.
  - rewrite linear_interpolation_get by (by rewrite !normalize_frame).
    unfold interpolated_info. rewrite !normalize_frame. done.
  - assert (Hone : ∀ b0 b1 v0 v1,
               fits (p + 3) b0 → fits (p + 3) b1 →
               (dec_Q b0 == v0)%Q → (dec_Q b1 == v1)%Q →
               (dec_Q (lerp t b0 b1)
                == on_line (inject_Z (frame - seq_frame P)
                            / inject_Z (seq_frame C - seq_frame P)) v0 v1)%Q).
    { intros b0 b1 v0 v1 Hb0 Hb1 Hv0 Hv1. unfold on_line, t.
      rewrite (lerp_exact (seq_frame P) (seq_frame C) frame (p + 3) j b0 b1)
        by (done || lia).
      by rewrite Hv0, Hv1. }
    unfold coords, yolo_box in *.
    repeat match goal with
           | H : Forall _ (_ :: _) |- _ => apply Forall_cons_1 in H as [? H]
           | H : Forall2 _ (_ :: _) (_ :: _) |- _ => apply Forall2_cons_1 in H as [? H]
           end.
    cbn [zip zip_with fmap list_fmap fst snd].
    repeat apply Forall2_cons_2; [apply Hone; assumption..|apply Forall2_nil_2].
Qed.

(** ** A box that does not move *)

Lemma ndigits_pow (c s : Z) : 1 ≤ c → 0 ≤ s → ndigits (c * 10 ^ s) = ndigits c + s.
Proof.
  intros Hc Hs.
  pose proof (pow10_pos s Hs) as Hps.
  destruct (ndigits_spec c Hc) as (Hn & Hlo & Hhi).
  assert (Hcs : 1 ≤ c * 10 ^ s) by nia.
  destruct (ndigits_spec (c * 10 ^ s) Hcs) as (Hn' & Hlo' & Hhi').
  assert (Hlo2 : 10 ^ (ndigits c - 1 + s) ≤ c * 10 ^ s).
  { rewrite pow10_split by lia. by apply Z.mul_le_mono_nonneg_r; [lia|]. }
  assert (Hhi2 : c * 10 ^ s < 10 ^ (ndigits c + s)).
  { rewrite pow10_split by lia. by apply Z.mul_lt_mono_pos_r. }
  assert (H1 : 10 ^ (ndigits c - 1 + s) < 10 ^ ndigits (c * 10 ^ s)) by lia.
  assert (H2 : 10 ^ (ndigits (c * 10 ^ s) - 1) < 10 ^ (ndigits c + s)) by lia.
  apply Z.pow_lt_mono_r_iff in H1; [|lia..].
  apply Z.pow_lt_mono_r_iff in H2; [|lia..].
  lia.
Qed.

(** Rounding a coefficient of at most 28 digits that was extended by zeros
    only drops zeros. *)
Lemma dfix_shifted (c s e : Z) :
  Z.abs c < 10 ^ prec → 0 ≤ s →
  ∃ c' e', dfix (mkDecimal (c * 10 ^ s) e) = mkDecimal c' e'
           ∧ e ≤ e' ∧ c' * 10 ^ (e' - e) = c * 10 ^ s.
Proof.
  intros Hc Hs. pose proof (pow10_pos s Hs) as Hps.
  unfold dfix. cbn [coef dexp].
  rewrite Z.abs_mul, (Z.abs_eq (10 ^ s)) by lia.
  destruct (Z.eqb_spec (Z.abs c * 10 ^ s) 0) as [H0|H0]; cbn [orb].
  { exists (c * 10 ^ s), e. split; [done|]. split; [lia|].
    replace (e - e) with 0 by lia. lia. }
  assert (Hc1 : 1 ≤ Z.abs c) by nia.
  rewrite ndigits_pow by lia.
  destruct (ndigits_spec (Z.abs c) Hc1) as (Hn & Hlo & Hhi).
  assert (Hlen : ndigits (Z.abs c) ≤ prec).
  { apply ndigits_le; [lia|unfold prec; lia]. }
  destruct (Z.leb_spec (ndigits (Z.abs c) + s) prec) as [Hle|Hgt].
  { exists (c * 10 ^ s), e. split; [done|]. split; [lia|].
    replace (e - e) with 0 by lia. lia. }
  set (k := ndigits (Z.abs c) + s - prec).
  assert (Hk : 0 < k ≤ s) by (unfold k; lia).
  pose proof (pow10_pos k ltac:(lia)) as Hpk.
  pose proof (pow10_pos (s - k) ltac:(lia)) as Hpsk.
  assert (Hsplit : 10 ^ s = 10 ^ (s - k) * 10 ^ k).
  { rewrite <- Z.pow_add_r by lia. f_equal. lia. }
  assert (Hq : Z.abs c * 10 ^ s / 10 ^ k = Z.abs c * 10 ^ (s - k)).
  { rewrite Hsplit, Z.mul_assoc. apply Z.div_mul. lia. }
  assert (Hr : (Z.abs c * 10 ^ s) mod 10 ^ k = 0).
  { rewrite Hsplit, Z.mul_assoc. apply Z.mod_mul. lia. }
  rewrite Hq, Hr.
  replace (10 ^ k <? 2 * 0) with false by lia.
  replace (2 * 0 =? 10 ^ k) with false by lia. cbn [orb andb].
  rewrite ndigits_pow by lia.
  replace (ndigits (Z.abs c) + (s - k) >? prec) with false by (unfold k; lia).
  exists (Z.sgn (c * 10 ^ s) * (Z.abs c * 10 ^ (s - k))), (e + k).
  split; [done|]. split; [lia|].
  replace (e + k - e) with k by lia.
  rewrite Z.sgn_mul, (Z.sgn_pos (10 ^ s)), Z.mul_1_r by lia.
  rewrite Hsplit.
  transitivity (Z.sgn c * Z.abs c * (10 ^ (s - k) * 10 ^ k)); [ring|].
  f_equal. destruct (Z.sgn_spec c) as [[? ->]|[[? ->]|[? ->]]]; lia.
Qed.

(** [b - b] is a zero with the exponent of [b]. *)
Lemma dsub_self (b : Decimal) : dsub b b = mkDecimal 0 (dexp b).
Proof.
  unfold dsub, dadd, dneg. cbn [coef dexp]. rewrite Z.min_id.
  destruct (Z.eqb_spec (coef b) 0) as [H0|H0].
  - rewrite H0. cbn [Z.opp Z.eqb andb]. by apply dfix_small.
  - replace (- coef b =? 0) with false by lia. cbn [andb].
    unfold dnormalize. cbn [coef dexp]. rewrite Z.ltb_irrefl.
    cbn [coef dexp]. rewrite Z.abs_opp.
    assert (Hc1 : 1 ≤ Z.abs (coef b)) by lia.
    destruct (ndigits_spec _ Hc1) as (Hn & _).
    set (len := ndigits (Z.abs (coef b))) in *.
    replace (len + dexp b - 1 <? dexp b + Z.min (-1) (len - prec - 2))
      with false by lia.
    cbn [coef dexp]. replace (dexp b - dexp b) with 0 by lia.
    change (10 ^ 0) with 1. rewrite Z.mul_1_r.
    replace (coef b + - coef b =? 0) with true by lia.
    by apply dfix_small.
Qed.

Local Open Scope Q_scope.

(** Interpolating between two equal values gives that value, whatever the
    fraction: the text may get more zeros, the value is the same. *)
Lemma lerp_same (t b : Decimal) :
  (Z.abs (coef b) < 10 ^ prec)%Z → dec_Q (lerp t b b) == dec_Q b.
Proof.
  intros Hb. unfold lerp. rewrite dsub_self.
  assert (Hmul : dmul t (mkDecimal 0 (dexp b)) = mkDecimal 0 (dexp t + dexp b)).
  { unfold dmul. cbn [coef dexp]. rewrite Z.mul_0_r. by apply dfix_small. }
  rewrite Hmul. unfold dadd. cbn [coef dexp Z.eqb].
  destruct (Z.eqb_spec (coef b) 0) as [H0|H0]; cbn [andb].
  - rewrite dfix_small by done. unfold dec_Q. cbn [coef dexp]. rewrite H0.
    change (inject_Z 0) with 0. ring.
  - set (e' := Z.max (Z.min (dexp b) (dexp t + dexp b)) (dexp b - prec - 1)).
    assert (He' : (e' ≤ dexp b)%Z) by (unfold e', prec; lia).
    destruct (dfix_shifted (coef b) (dexp b - e') e' Hb ltac:(lia))
      as (c' & e'' & -> & He'' & Hc').
    rewrite (dec_Q_scaled c' e'' e' _ He'' Hc').
    symmetry. by apply dec_Q_align.
Qed.

Local Close Scope Q_scope.

(** What [_fix] returns has at most 28 digits. *)
Lemma dfix_bound (d : Decimal) : Z.abs (coef (dfix d)) < 10 ^ prec.
Proof.
  unfold dfix. set (c := Z.abs (coef d)).
  assert (Hc : 0 ≤ c) by (unfold c; lia).
  assert (H28 : 0 < 10 ^ prec) by (by apply pow10_pos).
  destruct (Z.eqb_spec c 0) as [H0|H0]; cbn [orb]; [fold c; lia|].
  destruct (ndigits_spec c ltac:(lia)) as (Hn & Hlo & Hhi).
  destruct (Z.leb_spec (ndigits c) prec) as [Hle|Hgt].
  { fold c. pose proof (pow10_le (ndigits c) prec Hle). lia. }
  set (k := ndigits c - prec). assert (Hk : 0 < k) by (unfold k; lia).
  pose proof (pow10_pos k ltac:(lia)) as Hpk.
  assert (Hq : 0 ≤ c / 10 ^ k < 10 ^ prec).
  { split; [apply Z.div_pos; lia|]. apply Z.div_lt_upper_bound; [lia|].
    rewrite <- pow10_split by (unfold prec; lia).
    replace (k + prec) with (ndigits c) by (unfold k; lia). done. }
  set (q' := if (10 ^ k <? 2 * (c mod 10 ^ k))
                || (2 * (c mod 10 ^ k) =? 10 ^ k) && Z.odd (c / 10 ^ k)
             then c / 10 ^ k + 1 else c / 10 ^ k).
  assert (Hq' : 0 ≤ q' ≤ 10 ^ prec) by (unfold q'; destruct (_ || _); lia).
  assert (Hsgn : ∀ x, 0 ≤ x → Z.abs (Z.sgn (coef d) * x) ≤ x).
  { intros x Hx. destruct (Z.sgn_spec (coef d)) as [[? ->]|[[? ->]|[? ->]]]; lia. }
  destruct (Z.gtb_spec (ndigits q') prec) as [Hover|Hfit]; cbn [coef].
  - assert (q' / 10 < 10 ^ prec).
    { apply Z.div_lt_upper_bound; lia. }
    pose proof (Hsgn (q' / 10) ltac:(apply Z.div_pos; lia)). lia.
  - destruct (decide (q' = 0)) as [->|Hq0].
    { rewrite Z.mul_0_r. simpl. lia. }
    destruct (ndigits_spec q' ltac:(lia)) as (_ & _ & Hhi').
    pose proof (pow10_le (ndigits q') prec Hfit).
    pose proof (Hsgn q' ltac:(lia)). lia.
Qed.

Lemma ddiv_bound (a : Decimal) (d : Z) :
  d ≠ 0 → Z.abs (coef (ddiv a (Decimal_of_int d))) < 10 ^ prec.
Proof.
  intros Hd. unfold ddiv, Decimal_of_int. cbn [coef dexp].
  destruct (Z.eqb_spec d 0) as [|_]; [done|].
  destruct (coef a =? 0); [apply dfix_bound|].
  destruct (if 0 <=? _ then _ else _) as [q r].
  destruct (r =? 0); [|apply dfix_bound].
  destruct (strip_zeros _ _ _ _). apply dfix_bound.
Qed.

Lemma normalize_bound (k : keyframe) :
  Forall (λ b, Z.abs (coef b) < 10 ^ prec) (coords (normalize k)).
Proof.
  unfold coords, normalize. cbn [seq_x seq_y seq_width seq_height].
  repeat apply Forall_cons_2; [by apply ddiv_bound..|apply Forall_nil_2].
Qed.

(** X10. A value that is the same at two consecutive key frames (after
    normalization) is the same on every frame between them: the row that
    [linear_interpolation] gives such a frame carries a [Decimal] of equal
    value, for every input and although the fraction is rounded. Its text
    may differ from the key frame's by trailing zeros. *)
Theorem stationary_box (P C : keyframe) (label frame : Z) :
  seq_frame P < frame < seq_frame C →
  ∃ values,
    dict_get frame (linear_interpolation (normalize P) (normalize C) label)
    = Some (label, dec_str <$> values)
    ∧ length values = 4%nat
    ∧ ∀ i b v, coords (normalize P) !! i = Some b → coords (normalize C) !! i = Some b →
               values !! i = Some v → (dec_Q v == dec_Q b)%Q.
Proof.
  intros Hf.
  set (t := fraction (seq_frame P) (seq_frame C) frame).
  exists ((λ b, lerp t b.1 b.2) <$> zip (coords (normalize P)) (coords (normalize C))).
  split; [|split; [done|]].
  - rewrite linear_interpolation_get by (by rewrite !normalize_frame).
    unfold interpolated_info. rewrite !normalize_frame. done.
  - intros i b v HP HC Hv.
    rewrite list_lookup_fmap, lookup_zip_with, HP in Hv. cbn in Hv.
    rewrite HC in Hv. cbn in Hv. injection Hv as <-.
    apply lerp_same.
    pose proof (normalize_bound P) as Hb. rewrite Forall_lookup in Hb.
    exact (Hb i b HP).
Qed.

(** ** The video paths *)

Lemma rfind_slash_spec (s : string) :
  -1 ≤ rfind_slash s < Z.of_nat (String.length s)
  ∧ (rfind_slash s = -1 ↔ has_slash s = false)
  ∧ has_slash (basename s) = false
  ∧ (has_slash s = false → basename s = s)
  ∧ (has_slash s = true → ∃ pre, s = pre +:+ "/" +:+ basename s).
Proof.
  induction s as [|c s IH].
  - unfold basename, py_slice_from. cbn. repeat split; (done || lia).
  - destruct IH as (Hr & Hiff & Hb & Hnone & Hsome).
    assert (Hdrop : ∀ r, 0 ≤ r →
              py_slice_from (String c s) (r + 1) = py_slice_from s r).
    { intros r Hr0. unfold py_slice_from. cbv zeta.
      replace (r + 1 <? 0) with false by lia. replace (r <? 0) with false by lia.
      replace (Z.to_nat (r + 1)) with (S (Z.to_nat r)) by lia. done. }
    assert (Hwhole : ∀ t, py_slice_from t 0 = t) by (by intros []).
    unfold basename in *. cbn [rfind_slash has_slash String.length].
    destruct (Z.eqb_spec (rfind_slash s) (-1)) as [Hm|Hm].
    + assert (Hs : has_slash s = false) by (by apply Hiff).
      rewrite Hm in Hnone. cbn in Hnone. specialize (Hnone Hs).
      destruct (is_slash c) eqn:Hc; cbn [orb].
      * rewrite (Hdrop 0) by lia. rewrite Hwhole.
        split; [lia|]. split; [done|]. split; [done|]. split; [done|].
        intros _. exists ""%string. unfold is_slash in Hc.
        apply Ascii.eqb_eq in Hc as ->. done.
      * change (-1 + 1) with 0. rewrite Hwhole. cbn [has_slash]. rewrite Hc, Hs.
        split; [lia|]. split; [done|]. split; [done|]. split; done.
    + assert (Hs : has_slash s = true).
      { destruct (has_slash s); [done|]. exfalso. by apply Hm, Hiff. }
      rewrite Hs, orb_true_r.
      replace (rfind_slash s + 1 + 1) with ((rfind_slash s + 1) + 1) by lia.
      rewrite Hdrop by lia.
      split; [lia|]. split; [split; [lia|done]|]. split; [done|]. split; [done|].
      intros _. destruct (Hsome Hs) as [pre Hpre].
      exists (String c pre). by rewrite Hpre at 1.
Qed.

Lemma replace_videos_app E args_video_path (done_ entries : list entry) :
  for_each (λ done_ e, e' ←! replace_video E args_video_path e; Ok (done_ ++ [e']))
           done_ entries
  = (rest ←! replace_videos E args_video_path entries; Ok (done_ ++ rest)).
Proof.
  unfold replace_videos. revert done_.
  induction entries as [|e entries IH]; intros done_; cbn [for_each].
  - cbn. by rewrite app_nil_r.
  - destruct (replace_video E args_video_path e) as [e'|err]; cbn [bind]; [|done].
    rewrite (IH (done_ ++ [e'])), (IH ([] ++ [e'])).
    destruct (for_each _ [] entries) as [rest|err]; cbn [bind]; [|done].
    by rewrite <- app_assoc.
Qed.

Lemma replace_videos_cons E args_video_path e entries :
  replace_videos E args_video_path (e :: entries)
  = (e' ←! replace_video E args_video_path e;
     rest ←! replace_videos E args_video_path entries; Ok (e' :: rest)).
Proof.
  unfold replace_videos at 1. cbn [for_each].
  destruct (replace_video E args_video_path e) as [e'|err]; cbn [bind]; [|done].
  by rewrite replace_videos_app.
Qed.

(** X11. The loop over the video paths of the export. Without
    [--video_path] (the default, [None]) the first entry that has a
    ['video'] key ends the program with [TypeError], so nothing is
    exported. With a directory the loop finishes for every input and keeps
    the entries' boxes; an entry is left as it is or gets the path joined
    from the directory and the last component of its exported path, which
    is then a file; that component holds no ["/"], is the whole path when
    the path has none (the test [pos != None] never fails), and is never
    taken for an absolute path. *)
Theorem video_paths (E : env) :
  (∀ entries e, e ∈ entries → is_Some (entry_video e) →
     replace_videos E None entries = Raise TypeError)
  ∧ (∀ dir entries, ∃ entries',
       replace_videos E (Some dir) entries = Ok entries'
       ∧ Forall2 (replaced E dir) entries entries')
  ∧ (∀ video_path,
       has_slash (basename video_path) = false
       ∧ (has_slash video_path = false → basename video_path = video_path)
       ∧ (has_slash video_path = true →
          ∃ pre, video_path = pre +:+ "/" +:+ basename video_path)
       ∧ ∀ dir, os_path_join (Some dir) (basename video_path)
                = Ok (if String.eqb dir "" || ends_with_slash dir
                      then dir +:+ basename video_path
                      else dir +:+ "/" +:+ basename video_path)).
Proof.
  split; [|split].
  - intros entries e He [path Hpath].
    induction entries as [|e0 entries IH]; [by apply elem_of_nil in He|].
    rewrite replace_videos_cons.
    destruct (entry_video e0) as [path0|] eqn:H0.
    + unfold replace_video. by rewrite H0.
    + apply elem_of_cons in He as [->|He]; [congruence|].
      unfold replace_video. rewrite H0. cbn [bind]. by rewrite (IH He).
  - intros dir entries. induction entries as [|e entries (entries' & Heq & Hall)].
    + exists []. split; [done|apply Forall2_nil_2].
    + rewrite replace_videos_cons, Heq. unfold replace_video.
      destruct (entry_video e) as [path|] eqn:Hv; cbn [bind os_path_join].
      * eexists. split; [done|]. apply Forall2_cons_2; [|done].
        destruct (isfile E _) eqn:Hfile.
        -- split; [done|]. right. eexists path, _. by rewrite Hv.
        -- split; [done|by left].
      * exists (e :: entries'). split; [done|].
        apply Forall2_cons_2; [|done]. split; [done|by left].
  - intros video_path.
    destruct (rfind_slash_spec video_path) as (_ & _ & Hb & Hnone & Hsome).
    split_and!; [done..|]. intros dir. unfold os_path_join.
    assert (Hstart : starts_with_slash (basename video_path) = false).
    { destruct (basename video_path) as [|c b]; [done|].
      cbn in Hb |- *. by apply orb_false_iff in Hb as [-> _]. }
    by rewrite Hstart.
Qed.

(** ** The width of the file names *)

Lemma pretty_N_go_length_ge (x : N) (s : string) :
  (String.length s ≤ String.length (pretty_N_go x s))%nat.
Proof.
  revert s. induction (N.lt_wf_0 x) as [x _ IH]; intros s.
  destruct (decide (x = 0%N)) as [->|Hx]; [by rewrite pretty_N_go_0|].
  rewrite pretty_N_go_step by lia.
  etrans; [|apply IH, N.div_lt; lia]. cbn [String.length]. lia.
Qed.

Lemma pretty_N_go_length_mono (x y : N) (s t : string) :
  (x ≤ y)%N → String.length s = String.length t →
  (String.length (pretty_N_go x s) ≤ String.length (pretty_N_go y t))%nat.
Proof.
  revert x s t. induction (N.lt_wf_0 y) as [y _ IH]; intros x s t Hxy Hst.
  destruct (decide (x = 0%N)) as [->|Hx].
  { rewrite pretty_N_go_0, Hst. apply pretty_N_go_length_ge. }
  rewrite (pretty_N_go_step x), (pretty_N_go_step y) by lia.
  apply IH.
  - apply N.div_lt; lia.
  - apply N.Div0.div_le_mono. lia.
  - cbn [String.length]. by rewrite Hst.
Qed.

Lemma str_int_length_mono (n m : Z) :
  0 ≤ n ≤ m → (String.length (str_int n) ≤ String.length (str_int m))%nat.
Proof.
  intros Hnm. unfold str_int.
  destruct m as [|q|q]; [|destruct n as [|p|p]|]; try lia.
  - by replace n with 0 by lia.
  - change (String.length (pretty 0)) with 1%nat.
    unfold pretty, pretty_Z, pretty, pretty_positive, pretty, pretty_N.
    rewrite decide_False by done.
    rewrite pretty_N_go_step by lia.
    etrans; [|apply pretty_N_go_length_ge]. cbn [String.length]. lia.
  - unfold pretty, pretty_Z, pretty, pretty_positive, pretty, pretty_N.
    rewrite !decide_False by done.
    apply pretty_N_go_length_mono; [lia|done].
Qed.

Lemma zeros_length (k : nat) : String.length (zeros k) = k.
Proof. induction k as [|k IH]; [done|]. cbn [zeros String.length]. by rewrite IH. Qed.

Lemma format_0d_length (width : nat) (n : Z) :
  0 ≤ n → (String.length (str_int n) ≤ width)%nat →
  String.length (format_0d width n) = width.
Proof.
  intros Hn Hlen. unfold format_0d.
  assert (Hneg : (n <? 0) = false) by lia. rewrite Hneg.
  change ("" +:+ ?s) with s. rewrite Z.abs_eq by done.
  rewrite string_app_length, zeros_length. cbn [String.length]. lia.
Qed.

Lemma py_max_spec (keys : list Z) (m : Z) :
  py_max keys = Ok m → ∀ k, k ∈ keys → k ≤ m.
Proof.
  destruct keys as [|k0 keys]; [done|]. cbn [py_max]. intros [= <-].
  assert (Hfold : ∀ l a, a ≤ foldl Z.max a l ∧ ∀ k, k ∈ l → k ≤ foldl Z.max a l).
  { induction l as [|x l IH]; intros a; cbn [foldl].
    - split; [lia|]. intros k Hk. by apply elem_of_nil in Hk.
    - destruct (IH (Z.max a x)) as [Ha Hall]. split; [lia|].
      intros k [->|Hk]%elem_of_cons; [lia|by apply Hall]. }
  destruct (Hfold keys k0) as [H0 Hall].
  intros k [->|Hk]%elem_of_cons; [done|by apply Hall].
Qed.

Lemma main_images_out E v offset labels name :
  name ∈ images_out (main E v offset labels) →
  ∃ avail fd max_frame frame,
    prepare v labels = Ok (avail, fd, max_frame)
    ∧ frame ∈ dict_keys fd
    ∧ name = frame_name (String.length (str_int max_frame)) (offset + frame) ".jpg".
Proof.
  unfold main, export.
  destruct (prepare v labels) as [[[avail fd] mf]|] eqn:Hprep;
    [|intros Hin; by apply elem_of_nil in Hin].
  destruct (write_labels avail offset (String.length (str_int mf)) fd) as [written r].
  destruct r as [[]|]; [|intros Hin; by apply elem_of_nil in Hin].
  pose proof (extract_frames_prefix E (video v) avail offset
                (String.length (str_int mf)) fd) as [k Hk].
  assert (Hgoal : ∀ images, images = (extract_frames E (video v) avail offset
                                       (String.length (str_int mf)) fd).1 ∨ images = [] →
            name ∈ images →
            ∃ avail0 fd0 max_frame frame,
              Ok (avail, fd, mf) = Ok (avail0, fd0, max_frame)
              ∧ frame ∈ dict_keys fd0
              ∧ name = frame_name (String.length (str_int max_frame))
                         (offset + frame) ".jpg").
  { intros images [->| ->] Hin; [|by apply elem_of_nil in Hin].
    rewrite Hk in Hin. apply list_elem_of_fmap in Hin as (f & -> & Hf).
    apply elem_of_take in Hf as (i & Hf & _). apply list_elem_of_lookup_2 in Hf.
    apply list_elem_of_filter in Hf as [_ Hf].
    by exists avail, fd, mf, f. }
  destruct (isfile E (video v)).
  - destruct (extract_frames E (video v) avail offset (String.length (str_int mf)) fd)
      as [images r'].
    destruct r' as [[]|]; cbn [images_out]; apply Hgoal; by left.
  - cbn [images_out]. apply Hgoal. by right.
Qed.

(** X12. Within one video the zero padding does its work when the offset
    adds no digit to the largest frame number, as for the first video
    (offset 0): every label file and every image file gets a name of the
    same length, the width of the largest frame number plus the fixed
    parts. *)
Theorem names_same_length (E : env) (v : video_label) (offset : Z)
    (labels : list string) (avail : list bool) (files_dict : dict Z (list info))
    (max_frame : Z) (name : string) :
  prepare v labels = Ok (avail, files_dict, max_frame) →
  frames_nonneg (box v) → 0 ≤ offset →
  (String.length (str_int (offset + max_frame)) ≤ String.length (str_int max_frame))%nat →
  name ∈ (labels_out (main E v offset labels)).*1
  ∨ name ∈ images_out (main E v offset labels) →
  String.length name = (10 + String.length (str_int max_frame))%nat.
Proof.
  intros Hprep Hnn Hoff Hwidth Hname.
  destruct (prepare_Ok _ _ _ _ _ Hprep) as (_ & fd & Hagg & Hfd & Hmax).
  destruct (aggregate_ok _ _ _ Hnn Hagg) as [_ Hkeys].
  assert (Hlen : ∀ frame ext, frame ∈ dict_keys files_dict → String.length ext = 4%nat →
            String.length (frame_name (String.length (str_int max_frame))
                             (offset + frame) ext)
            = (10 + String.length (str_int max_frame))%nat).
  { intros frame ext Hframe Hext.
    assert (H0 : 0 ≤ frame).
    { apply Hkeys. rewrite Hfd in Hframe. by apply sorted_items_keys. }
    pose proof (py_max_spec _ _ Hmax frame Hframe) as Hle.
    unfold frame_name.
    rewrite !string_app_length, format_0d_length, Hext; [cbn [String.length]; lia|lia|].
    etrans; [apply (str_int_length_mono _ (offset + max_frame)); lia|done]. }
  destruct Hname as [Hname|Hname].
  - apply list_elem_of_fmap in Hname as ([name' rows] & -> & Hin). cbn [fst].
    apply main_labels_out in Hin as (av' & fd' & mf' & frame & Hp & Hf & _ & ->).
    rewrite Hprep in Hp. injection Hp as <- <- <-.
    apply Hlen; [|done]. apply list_elem_of_fmap. by exists (frame, rows).
  - apply main_images_out in Hname as (av' & fd' & mf' & frame & Hp & Hf & ->).
    rewrite Hprep in Hp. injection Hp as <- <- <-. by apply Hlen.
Qed.

(** ** Class indices and [classes.txt] *)

Lemma extract_labels_NoDup video_labels labels :
  extract_labels video_labels = Ok labels → NoDup labels.
Proof.
  rewrite extract_labels_unfold.
  destruct (forallb single_label (all_subjects video_labels)); [|done].
  intros [= <-]. rewrite merge_sort_Permutation. apply NoDup_elements.
Qed.

Lemma run_videos_lookup E labels c video_labels (i : nat) call :
  (run_videos E labels c video_labels).1 !! i = Some call →
  ∃ v, video_labels !! i = Some v ∧ call.2 = main E v call.1 labels.
Proof.
  revert c i. induction video_labels as [|v vs IH]; intros c i Hi; [done|].
  cbn [run_videos] in Hi.
  destruct (returned (main E v c labels)) as [n|e].
  - destruct (run_videos E labels (c + n) vs) as [calls_ r] eqn:Hrest.
    cbn [fst] in Hi. destruct i as [|i].
    + injection Hi as <-. by exists v.
    + cbn in Hi. apply (IH (c + n) i). by rewrite Hrest.
  - cbn [fst] in Hi. destruct i as [|i]; [|done].
    injection Hi as <-. by exists v.
Qed.

Lemma run_calls_lookup E video_labels labels (i : nat) call :
  extract_labels video_labels = Ok labels →
  calls (run E video_labels) !! i = Some call →
  ∃ v, video_labels !! i = Some v ∧ call.2 = main E v call.1 labels.
Proof.
  intros Hex Hcall. unfold run in Hcall. rewrite Hex in Hcall.
  pose proof (run_videos_lookup E labels 0 video_labels i call) as Hlookup.
  destruct (run_videos E labels 0 video_labels) as [calls_ r].
  cbn [fst] in Hlookup. destruct r; cbn [calls] in Hcall; by apply Hlookup.
Qed.

(** X13. The class index of every row of every label file of a run is the
    line number, in [classes.txt], of the label of a subject of the video
    the file belongs to: a file written by the call of [main] number [i] is
    a file of video number [i] of the bundle, and the index of each of its
    rows is the position, in the list of classes the driver collects, of
    the single label of a subject of that video. [classes.txt], when it is
    written, holds exactly that list. *)
Theorem class_indices (E : env) (video_labels : list video_label)
    (labels : list string) (i : nat) (call : Z * outcome) (name : string)
    (rows : list info) (row : info) :
  extract_labels video_labels = Ok labels →
  calls (run E video_labels) !! i = Some call →
  (name, rows) ∈ labels_out call.2 → row ∈ rows →
  (∃ v s l, video_labels !! i = Some v ∧ call.2 = main E v call.1 labels
            ∧ s ∈ box v ∧ subject_labels s = [l]
            ∧ 0 ≤ row.1 ∧ labels !! Z.to_nat row.1 = Some l)
  ∧ ∀ written, classes_txt (run E video_labels) = Some written → written = labels.
Proof.
  intros Hex Hcall Hin Hrow. split.
  - destruct (run_calls_lookup E video_labels labels i call Hex Hcall)
      as (v & Hv & Hout).
    rewrite Hout in Hin.
    apply main_labels_out in Hin as (avail & fd & mf & frame & Hprep & Hfr & _ & _).
    apply prepare_Ok in Hprep as (_ & fd0 & Hagg & -> & _).
    apply aggregate_rows in Hagg.
    unfold sorted_items in Hfr. rewrite merge_sort_Permutation in Hfr.
    destruct (Hagg _ _ Hfr) as [_ Hrows].
    destruct (Hrows row Hrow) as (_ & s & l & Hs & Hl & Hget).
    destruct (make_labels_dict_index labels l row.1) as [H0 Hlook];
      [by eapply extract_labels_NoDup|done|].
    by exists v, s, l.
  - intros written. unfold run. rewrite Hex.
    destruct (run_videos E labels 0 video_labels) as [calls_ r].
    destruct r; cbn [classes_txt]; congruence.
Qed.

(** ** The theorems at concrete inputs *)

Lemma interpolation_linearity_witness :
  (seq_frame line_P < 2 < seq_frame (line_C 4)
   ∧ fits 1 (seq_x line_P) ∧ fits 1 (seq_x (line_C 4))
   ∧ ((2 - 0) * 10 ^ 2) mod (4 - 0) = 0)
  ∧ dict_get 2 (linear_interpolation line_P (line_C 4) 0)
    = Some (0, [dec_str (line_x 4 2);
                dec_str (lerp (fraction 0 4 2) (seq_y line_P) (seq_y (line_C 4)));
                dec_str (lerp (fraction 0 4 2) (seq_width line_P) (seq_width (line_C 4)));
                dec_str (lerp (fraction 0 4 2) (seq_height line_P) (seq_height (line_C 4)))])
  ∧ (dec_Q (line_x 4 2)
     == dec_Q (seq_x line_P)
        + inject_Z (2 - 0) / inject_Z (4 - 0)
          * (dec_Q (seq_x (line_C 4)) - dec_Q (seq_x line_P)))%Q.
Proof.
  assert (H : seq_frame line_P < 2 < seq_frame (line_C 4)) by (simpl; lia).
  assert (H0 : fits 1 (seq_x line_P)) by (unfold fits; simpl; lia).
  assert (H1 : fits 1 (seq_x (line_C 4))) by (unfold fits; simpl; lia).
  assert (Hd : ((2 - 0) * 10 ^ 2) mod (4 - 0) = 0) by reflexivity.
  split; [split_and!; [apply H|apply H|exact H0|exact H1|exact Hd]|]. split.
  - exact (proj1 (interpolation_linearity line_P (line_C 4) 0 2 H)).
  - apply (proj1 (proj2 (interpolation_linearity line_P (line_C 4) 0 2 H))
             1 2 (seq_x line_P) (seq_x (line_C 4))); [lia|lia|lia|exact H0|exact H1|exact Hd].
Defined.

Lemma interpolation_trigger_policy_witness :
  (seq_enabled gap_P = true ∧ 1 < seq_frame gap_C - seq_frame gap_P
   ∧ seq_frame gap_P < 2 < seq_frame gap_C)
  ∧ 2 ∈ dict_keys (interpolated (Some gap_P) gap_C 0)
  ∧ interpolated (Some (with_enabled false gap_P)) gap_C 0 = [].
Proof.
  assert (H : seq_enabled gap_P = true ∧ 1 < seq_frame gap_C - seq_frame gap_P
              ∧ seq_frame gap_P < 2 < seq_frame gap_C) by (simpl; lia).
  split; [exact H|]. split.
  - apply (proj1 (interpolation_trigger_policy (Some gap_P) gap_C 0)).
    exists gap_P. split; [reflexivity|exact H].
  - apply (proj2 (proj2 (proj2 (interpolation_trigger_policy
                                  (Some (with_enabled false gap_P)) gap_C 0)))
             (with_enabled false gap_P)); [reflexivity|].
    left. reflexivity.
Defined.

Lemma disabled_current_keyframe_witness :
  (seq_enabled gap_P = true ∧ seq_frame gap_P < 1 < seq_frame gap_C)
  ∧ dict_get 1 (seq_lines (Some gap_P) (with_enabled false gap_C) 0)
    = Some (interpolated_info gap_P gap_C 0 1).
Proof.
  assert (H : seq_enabled gap_P = true ∧ seq_frame gap_P < 1 < seq_frame gap_C)
    by (simpl; lia).
  split; [exact H|].
  apply (proj2 (proj2 (proj2 (disabled_current_keyframe (Some gap_P) gap_C 0 false)))
           gap_P 1); [reflexivity|apply H|apply H].
Defined.

Lemma demo_frames_nonneg : frames_nonneg (box demo_video).
Proof.
  intros s k Hs Hk. apply list_elem_of_singleton in Hs as ->. simpl in Hk.
  apply elem_of_cons in Hk as [->|Hk]; [simpl; lia|].
  apply list_elem_of_singleton in Hk as ->. simpl. lia.
Defined.

Lemma availability_gating_witness :
  (returned (main demo_env demo_video 0 ["ball"%string]) = Ok 4
   ∧ frames_nonneg (box demo_video) ∧ 0 ≤ 0)
  ∧ (frame_name 1 (0 + 1) ".txt"
       ∈ (labels_out (main demo_env demo_video 0 ["ball"%string])).*1
     ↔ in_some_range (box demo_video) 1).
Proof.
  assert (Hret : returned (main demo_env demo_video 0 ["ball"%string]) = Ok 4)
    by (vm_compute; reflexivity).
  split; [split_and!; [exact Hret|exact demo_frames_nonneg|lia]|].
  destruct (prepare demo_video ["ball"%string]) as [[[avail fd] mf]|] eqn:Hprep;
    [|vm_compute in Hprep; discriminate].
  assert (Hmf : mf = 4 ∧ 1 ∈ dict_keys fd).
  { vm_compute in Hprep. injection Hprep as <- <- <-.
    split; [reflexivity|]. apply list_elem_of_here. }
  destruct Hmf as [-> Hkey].
  exact (proj1 (availability_gating demo_env demo_video 0 ["ball"%string] avail fd 4 4 1
                  Hprep Hret demo_frames_nonneg (Z.le_refl 0) Hkey)).
Defined.

Lemma availability_mask_sizing_witness :
  ((∀ s, s ∈ box demo_video →
         ∃ first last_, head (sequence s) = Some first
                        ∧ last (sequence s) = Some last_
                        ∧ subject_labels s ≠ []
                        ∧ 0 ≤ seq_frame first
                        ∧ seq_frame last_ ≤ max_frames_of (box demo_video) + 1)
   ∧ tracks_ok short_count_box)
  ∧ (∃ avail, available_frames (box demo_video) = Ok avail)
  ∧ available_frames short_count_box = Raise IndexError.
Proof.
  assert (H : ∀ s, s ∈ box demo_video →
        ∃ first last_, head (sequence s) = Some first
                       ∧ last (sequence s) = Some last_
                       ∧ subject_labels s ≠ []
                       ∧ 0 ≤ seq_frame first
                       ∧ seq_frame last_ ≤ max_frames_of (box demo_video) + 1).
  { intros s Hs. apply list_elem_of_singleton in Hs as ->.
    exists (kf 1 10 20 30 40 true), (kf 4 50 20 30 40 true).
    split_and!; [reflexivity|reflexivity|discriminate|simpl; lia|vm_compute; discriminate]. }
  assert (Htracks : tracks_ok short_count_box).
  { intros s Hs. apply list_elem_of_singleton in Hs as ->.
    exists (kf 0 10 10 20 20 true), (kf 8 40 10 20 20 true).
    split_and!; [reflexivity|reflexivity|discriminate|simpl; lia]. }
  split; [split; [exact H|exact Htracks]|]. split.
  - exact (proj1 (proj2 (proj2 (proj2 (proj2 (availability_mask_sizing (box demo_video))))))
             H).
  - apply (proj2 (proj2 (proj1 (proj2 (proj2 (proj2 (proj2 (proj2 (proj2 (proj2
             (availability_mask_sizing short_count_box)))))))) Htracks))).
    eexists. split; [apply list_elem_of_here|].
    exists (kf 0 10 10 20 20 true), (kf 8 40 10 20 20 true).
    split_and!; [reflexivity|reflexivity|simpl; lia|vm_compute; reflexivity].
Defined.

Lemma label_registry_stability_witness :
  (extract_labels bundle1 = Ok ["ball"; "refA"; "teamB"]%string
   ∧ all_subjects bundle1 ≡ₚ all_subjects bundle2
   ∧ ∀ v s, v ∈ three_videos → s ∈ box v → ∃ l, subject_labels s = [l])
  ∧ dict_get "refA"%string (make_labels_dict ["ball"; "refA"; "teamB"]%string) = Some 1
  ∧ extract_labels bundle1 = extract_labels bundle2
  ∧ ∃ labels, extract_labels three_videos = Ok labels.
Proof.
  assert (Hex : extract_labels bundle1 = Ok ["ball"; "refA"; "teamB"]%string)
    by (vm_compute; reflexivity).
  assert (Hperm : all_subjects bundle1 ≡ₚ all_subjects bundle2).
  { change (all_subjects bundle1)
      with [labelled "teamB"; labelled "ball"; labelled "refA"; labelled "ball"].
    change (all_subjects bundle2)
      with [labelled "ball"; labelled "refA"; labelled "ball"; labelled "teamB"].
    apply (Permutation_cons_append
             [labelled "ball"; labelled "refA"; labelled "ball"] (labelled "teamB")). }
  assert (Hsingle : ∀ v s, v ∈ three_videos → s ∈ box v → ∃ l, subject_labels s = [l]).
  { intros v s Hv Hs. exists "ball"%string.
    apply elem_of_cons in Hv as [->|Hv];
      [|apply elem_of_cons in Hv as [->|Hv];
        [|apply list_elem_of_singleton in Hv as ->]];
      apply list_elem_of_singleton in Hs as ->; reflexivity. }
  split; [split_and!; [exact Hex|exact Hperm|exact Hsingle]|]. split_and!.
  - exact (proj2 (proj2 (proj2 (proj1 label_registry_stability bundle1 _ Hex)))
             1%nat "refA"%string eq_refl).
  - exact (proj1 (proj2 label_registry_stability) bundle1 bundle2 Hperm).
  - exact (proj2 (proj1 (proj2 (proj2 (proj2 label_registry_stability))) three_videos)
             Hsingle).
Defined.

Lemma single_label_enforcement_witness :
  (∃ e, main demo_env two_label_video 7 ["ball"; "refA"; "teamB"]%string
        = mkOutcome [] [] (Raise e))
  ∧ (∀ video_labels, two_label_video ∈ video_labels →
       run demo_env video_labels = mkRun [] None (Raise TypeError)).
Proof.
  apply (single_label_enforcement demo_env two_label_video 7
           ["ball"; "refA"; "teamB"]%string
           (mkSubject ["refA"; "teamB"]%string (Some 5) [kf 2 10 20 30 40 true])).
  - apply list_elem_of_further, list_elem_of_here.
  - simpl. lia.
Defined.

Lemma demo_refs_in_store (v : video_ref) :
  box_locs (ref_box v) = [1%positive; 2%positive] ∨
  box_locs (ref_box v) = [1%positive; 1%positive; 2%positive] →
  ∀ l, l ∈ box_locs (ref_box v) → l ∈ dom demo_heap.
Proof.
  intros Hv l Hl. apply elem_of_dom.
  assert (l = 1%positive ∨ l = 2%positive) as [-> | ->]; [|by eexists..].
  destruct Hv as [Hv|Hv]; rewrite Hv in Hl.
  - apply elem_of_cons in Hl as [->|Hl]; [by left|].
    apply list_elem_of_singleton in Hl as ->. by right.
  - apply elem_of_cons in Hl as [->|Hl]; [by left|].
    apply elem_of_cons in Hl as [->|Hl]; [by left|].
    apply list_elem_of_singleton in Hl as ->. by right.
Defined.

Lemma input_immutability_witness :
  (NoDup (box_locs (ref_box demo_video_ref))
   ∧ ∀ l, l ∈ box_locs (ref_box demo_video_ref) → l ∈ dom demo_heap)
  ∧ (let h' := (main_heap demo_env demo_heap shared_video_ref 0 ["ball"%string]).1 in
     (∀ l k, demo_heap !! l = Some k → h' !! l = Some k)
     ∧ load_video h' shared_video_ref = load_video demo_heap shared_video_ref)
  ∧ (main_heap demo_env demo_heap demo_video_ref 0 ["ball"%string]).2
    = main demo_env (load_video demo_heap demo_video_ref) 0 ["ball"%string].
Proof.
  assert (Hnd : NoDup (box_locs (ref_box demo_video_ref))).
  { apply (bool_decide_unpack _). vm_compute. exact I. }
  assert (Hdom : ∀ l, l ∈ box_locs (ref_box demo_video_ref) → l ∈ dom demo_heap).
  { apply demo_refs_in_store. left. reflexivity. }
  split; [split; [exact Hnd|exact Hdom]|]. split.
  - destruct (input_immutability demo_env demo_heap shared_video_ref 0 ["ball"%string])
      as (H1 & _ & H3 & _).
    split; [exact H1|]. apply H3, demo_refs_in_store. right. reflexivity.
  - exact (proj2 (proj2 (proj2 (input_immutability demo_env demo_heap demo_video_ref 0
                                  ["ball"%string]))) Hnd Hdom).
Defined.

Lemma offset_coordination_three_videos_witness :
  returned (main demo_env (track_video 0 10 10) 0 ["ball"%string]) = Ok 11
  ∧ run_videos demo_env ["ball"%string] 0 three_videos
    = ((0, main demo_env (track_video 0 10 10) 0 ["ball"%string])
         :: (run_videos demo_env ["ball"%string] (0 + 11)
               [still_video; track_video 0 5 5]).1,
       (run_videos demo_env ["ball"%string] (0 + 11)
          [still_video; track_video 0 5 5]).2).
Proof.
  assert (H : returned (main demo_env (track_video 0 10 10) 0 ["ball"%string]) = Ok 11)
    by (vm_compute; reflexivity).
  split; [exact H|].
  exact (proj2 (proj1 offset_coordination_three_videos demo_env ["ball"%string] 0
                  (track_video 0 10 10) [still_video; track_video 0 5 5] 11 H)).
Defined.

(** ** The further statements at concrete inputs *)

Lemma aggregate_frames_witness :
  ∃ files_dict,
    aggregate (make_labels_dict ["ball"%string]) (box demo_video) = Ok files_dict
    ∧ (2 ∈ dict_keys files_dict ↔ ∃ s, s ∈ box demo_video ∧ track_covers s 2)
    ∧ NoDup (dict_keys files_dict).
Proof.
  destruct (aggregate (make_labels_dict ["ball"%string]) (box demo_video))
    as [fd|] eqn:Hagg; [|vm_compute in Hagg; discriminate].
  exists fd. split; [reflexivity|].
  destruct (aggregate_frames (make_labels_dict ["ball"%string]) (box demo_video) fd Hagg)
    as (Hkeys & _ & _ & Hnd).
  split; [exact (Hkeys 2)|exact Hnd].
Defined.

Lemma demo_well_formed : well_formed ["ball"%string] demo_video.
Proof.
  split; [discriminate|]. intros s Hs. apply list_elem_of_singleton in Hs as ->.
  split; [|split; [discriminate|]].
  - exists "ball"%string. split; [reflexivity|apply list_elem_of_here].
  - intros k Hk. change (max_frames_of (box demo_video)) with 5.
    apply elem_of_cons in Hk as [->|Hk]; [simpl; lia|].
    apply list_elem_of_singleton in Hk as ->. simpl. lia.
Defined.

Lemma main_returns_witness :
  (well_formed ["ball"%string] (untimed timed_demo_video) ∧ 0 ≤ 0 ≤ 24
   ∧ timed_ok 0 timed_demo_video)
  ∧ (∃ avail files_dict max_frame,
       prepare_timed timed_demo_video ["ball"%string] = Ok (avail, files_dict, max_frame)
       ∧ files_dict ≠ []
       ∧ returned (main_timed demo_env timed_demo_video 7 ["ball"%string])
         = Ok (7 + Z.of_nat (length files_dict)))
  ∧ main_timed demo_env untimed_demo_video 7 ["ball"%string]
    = mkOutcome [] [] (Raise KeyError).
Proof.
  assert (Hwf : well_formed ["ball"%string] (untimed timed_demo_video))
    by exact demo_well_formed.
  assert (Hp : 0 ≤ 0 ≤ 24) by lia.
  assert (Hbox : exported_box 0 (kf 1 10 20 30 40 true)
                 ∧ exported_box 0 (kf 4 50 20 30 40 true)).
  { split; (split_and!;
      [unfold percent; simpl; lia..|apply Qle_bool_iff; vm_compute; reflexivity
       |apply Qle_bool_iff; vm_compute; reflexivity]). }
  assert (Hok : timed_ok 0 timed_demo_video).
  { intros s k Hs Hk. apply list_elem_of_singleton in Hs as ->.
    apply elem_of_cons in Hk as [->|Hk];
      [|apply list_elem_of_singleton in Hk as ->];
      (split; [by eexists|apply Hbox]). }
  split; [split_and!; [exact Hwf|lia|lia|exact Hok]|]. split.
  - exact (proj1 (main_returns demo_env timed_demo_video 7 ["ball"%string])
             0 Hwf Hp Hok).
  - destruct (available_frames (box (untimed untimed_demo_video))) as [avail|] eqn:Hav;
      [|vm_compute in Hav; discriminate].
    apply (proj2 (main_returns demo_env untimed_demo_video 7 ["ball"%string]) avail Hav).
    + intros s Hs. apply list_elem_of_singleton in Hs as ->. by eexists.
    + eexists _, (mkTimed (kf 4 50 20 30 40 true) None).
      split; [apply list_elem_of_here|].
      split; [apply list_elem_of_further, list_elem_of_here|reflexivity].
Defined.

Lemma label_rows_witness :
  ("frame_1.txt"%string, [(0, ["0.25"; "0.4"; "0.3"; "0.4"]%string)])
    ∈ labels_out (main demo_env demo_video 0 ["ball"%string])
  ∧ ∀ row, row ∈ [(0, ["0.25"; "0.4"; "0.3"; "0.4"]%string)] →
      length row.2 = 4%nat
      ∧ ∃ s l, s ∈ box demo_video ∧ subject_labels s = [l]
               ∧ dict_get l (make_labels_dict ["ball"%string]) = Some row.1
               ∧ (NoDup ["ball"%string] →
                  0 ≤ row.1 ∧ ["ball"%string] !! Z.to_nat row.1 = Some l).
Proof.
  assert (Hin : ("frame_1.txt"%string, [(0, ["0.25"; "0.4"; "0.3"; "0.4"]%string)])
                  ∈ labels_out (main demo_env demo_video 0 ["ball"%string])).
  { vm_compute. apply list_elem_of_here. }
  split; [exact Hin|].
  exact (proj2 (label_rows demo_env demo_video 0 ["ball"%string] _ _ Hin)).
Defined.

Lemma export_order_witness :
  (returned (main demo_env demo_video 0 ["ball"%string]) = Ok 4
   ∧ frames_nonneg (box demo_video) ∧ 0 ≤ 0)
  ∧ NoDup ((labels_out (main demo_env demo_video 0 ["ball"%string])).*1)
  ∧ (isfile demo_env (video demo_video) = false →
     images_out (main demo_env demo_video 0 ["ball"%string]) = []).
Proof.
  assert (Hret : returned (main demo_env demo_video 0 ["ball"%string]) = Ok 4)
    by (vm_compute; reflexivity).
  split; [split_and!; [exact Hret|exact demo_frames_nonneg|lia]|].
  destruct (prepare demo_video ["ball"%string]) as [[[avail fd] mf]|] eqn:Hprep;
    [|vm_compute in Hprep; discriminate].
  destruct (export_order demo_env demo_video 0 ["ball"%string] avail fd mf 4
              Hprep Hret demo_frames_nonneg (Z.le_refl 0))
    as (_ & _ & Hnd & _ & Hnone).
  split; [exact Hnd|exact Hnone].
Defined.

Lemma three_videos_contiguous : frames_contiguous ["ball"%string] three_videos.
Proof.
  intros v avail fd mf Hv Hprep f Hf.
  assert (Hcases : v = track_video 0 10 10 ∨ v = still_video ∨ v = track_video 0 5 5).
  { apply elem_of_cons in Hv as [->|Hv]; [by left|].
    apply elem_of_cons in Hv as [->|Hv]; [by right; left|].
    apply list_elem_of_singleton in Hv as ->. by right; right. }
  destruct Hcases as [->|[->| ->]]; vm_compute in Hprep;
    injection Hprep as <- <- <-; revert f Hf; apply Forall_forall;
    unfold dict_keys; cbn [fmap list_fmap fst length];
    repeat (apply Forall_cons_2; [lia|]); apply Forall_nil_2.
Defined.

Lemma run_names_disjoint_witness :
  (0 ≤ 0 ∧ frames_contiguous ["ball"%string] three_videos ∧ (0 < 2)%nat
   ∧ (run_videos demo_env ["ball"%string] 0 three_videos).1 !! 0%nat
     = Some (0, main demo_env (track_video 0 10 10) 0 ["ball"%string])
   ∧ (run_videos demo_env ["ball"%string] 0 three_videos).1 !! 2%nat
     = Some (23, main demo_env (track_video 0 5 5) 23 ["ball"%string])
   ∧ "frame_03.txt"%string
       ∈ (labels_out (main demo_env (track_video 0 10 10) 0 ["ball"%string])).*1)
  ∧ "frame_03.txt"%string
      ∉ (labels_out (main demo_env (track_video 0 5 5) 23 ["ball"%string])).*1.
Proof.
  assert (Hi : (run_videos demo_env ["ball"%string] 0 three_videos).1 !! 0%nat
               = Some (0, main demo_env (track_video 0 10 10) 0 ["ball"%string]))
    by (vm_compute; reflexivity).
  assert (Hj : (run_videos demo_env ["ball"%string] 0 three_videos).1 !! 2%nat
               = Some (23, main demo_env (track_video 0 5 5) 23 ["ball"%string]))
    by (vm_compute; reflexivity).
  assert (Hname : "frame_03.txt"%string
            ∈ (labels_out (main demo_env (track_video 0 10 10) 0 ["ball"%string])).*1).
  { apply (bool_decide_unpack _). vm_compute. exact I. }
  split; [split_and!; [lia|exact three_videos_contiguous|lia|exact Hi|exact Hj|exact Hname]|].
  exact (run_names_disjoint demo_env ["ball"%string] 0 three_videos 0 2 _ _
           "frame_03.txt"%string (Z.le_refl 0) three_videos_contiguous
           (Nat.lt_0_succ 1) Hi Hj Hname).
Defined.

Lemma main_failures_witness :
  main demo_env empty_video 3 ["ball"%string] = mkOutcome [] [] (Raise ValueError)
  ∧ main demo_env no_keyframes_video 3 ["ball"%string]
    = mkOutcome [] [] (Raise IndexError)
  ∧ main demo_env demo_video 3 ["cat"%string] = mkOutcome [] [] (Raise KeyError).
Proof.
  split; [|split].
  - exact (proj1 (main_failures demo_env empty_video 3 ["ball"%string]) eq_refl).
  - apply (proj1 (proj2 (main_failures demo_env no_keyframes_video 3 ["ball"%string]))).
    exists (mkSubject ["ball"%string] (Some 5) []).
    split; [apply list_elem_of_here|by left].
  - destruct (available_frames (box demo_video)) as [avail|] eqn:Hav;
      [|vm_compute in Hav; discriminate].
    apply (proj2 (proj2 (main_failures demo_env demo_video 3 ["cat"%string])) avail Hav).
    + intros s Hs. apply list_elem_of_singleton in Hs as ->. reflexivity.
    + eexists _, "ball"%string. split; [apply list_elem_of_here|].
      split; [reflexivity|]. intros Hin. apply list_elem_of_singleton in Hin.
      discriminate.
Defined.

Lemma run_stops_at_first_failure_witness :
  (three_videos ≠ [] ∧ broken_bundle ≠ []
   ∧ finished (run demo_env three_videos) = Ok 52
   ∧ finished (run demo_env broken_bundle) = Raise ValueError)
  ∧ length (calls (run demo_env three_videos)) = length three_videos
  ∧ (∃ labels, extract_labels three_videos = Ok labels
               ∧ classes_txt (run demo_env three_videos) = Some labels)
  ∧ ¬ is_Some (classes_txt (run demo_env broken_bundle))
  ∧ ((calls (run demo_env broken_bundle) = [] ∧ ValueError = TypeError
      ∧ extract_labels broken_bundle = Raise TypeError)
     ∨ ∃ init last_, calls (run demo_env broken_bundle) = init ++ [last_]
                     ∧ returned last_.2 = Raise ValueError
                     ∧ ∀ call, call ∈ init → ∃ m, returned call.2 = Ok m).
Proof.
  assert (Hne : three_videos ≠ []) by discriminate.
  assert (Hne' : broken_bundle ≠ []) by discriminate.
  assert (Hok : finished (run demo_env three_videos) = Ok 52)
    by (vm_compute; reflexivity).
  assert (Hbad : finished (run demo_env broken_bundle) = Raise ValueError)
    by (vm_compute; reflexivity).
  split; [split_and!; [exact Hne|exact Hne'|exact Hok|exact Hbad]|].
  destruct (run_stops_at_first_failure demo_env three_videos Hne) as (_ & _ & Hfin & _).
  destruct (Hfin 52 Hok) as (_ & Hlen & _ & Hlabels).
  destruct (run_stops_at_first_failure demo_env broken_bundle Hne')
    as (Hiff & _ & _ & Hraise).
  split; [exact Hlen|]. split; [exact Hlabels|]. split.
  - intros Hsome. apply Hiff in Hsome as [n Hn]. rewrite Hbad in Hn. discriminate.
  - exact (Hraise ValueError Hbad).
Defined.

Lemma moving_boxes_exported : exported_box 1 moving_P ∧ exported_box 1 moving_C.
Proof.
  split; (split_and!;
    [unfold percent; simpl; lia..|apply Qle_bool_iff; vm_compute; reflexivity
     |apply Qle_bool_iff; vm_compute; reflexivity]).
Defined.

Lemma normalize_exact_witness :
  (0 ≤ 1 ≤ 24 ∧ percent 1 (seq_x moving_P) ∧ percent 1 (seq_y moving_P)
   ∧ percent 1 (seq_width moving_P) ∧ percent 1 (seq_height moving_P))
  ∧ (dec_Q (seq_x (normalize moving_P))
     == (dec_Q (seq_x moving_P) + dec_Q (seq_width moving_P) / 2) / 100)%Q
  ∧ fits (1 + 2) (seq_width (normalize moving_P)).
Proof.
  destruct moving_boxes_exported as [(Hx & Hy & Hw & Hh & _) _].
  assert (Hp : 0 ≤ 1 ≤ 24) by lia.
  split; [split_and!; [apply Hp|apply Hp|exact Hx|exact Hy|exact Hw|exact Hh]|].
  destruct (normalize_exact moving_P 1 Hp Hx Hy Hw Hh) as (Hcx & _ & _ & _ & Hfw & _).
  split; [exact Hcx|exact Hfw].
Defined.

Lemma interpolated_row_exact_witness :
  (seq_frame moving_P < 1 < seq_frame moving_C ∧ 0 ≤ 1 ∧ 0 ≤ 2 ∧ 1 + 2 ≤ 24
   ∧ exported_box 1 moving_P ∧ exported_box 1 moving_C
   ∧ ((1 - seq_frame moving_P) * 10 ^ 2) mod (seq_frame moving_C - seq_frame moving_P)
     = 0)
  ∧ ∃ values,
      dict_get 1 (linear_interpolation (normalize moving_P) (normalize moving_C) 0)
      = Some (0, dec_str <$> values)
      ∧ Forall2 (λ d v, (dec_Q d == v)%Q) values
          (zip_with (on_line (inject_Z (1 - seq_frame moving_P)
                              / inject_Z (seq_frame moving_C - seq_frame moving_P)))
             (yolo_box moving_P) (yolo_box moving_C)).
Proof.
  assert (Hf : seq_frame moving_P < 1 < seq_frame moving_C) by (simpl; lia).
  assert (Hdiv : ((1 - seq_frame moving_P) * 10 ^ 2)
                 mod (seq_frame moving_C - seq_frame moving_P) = 0) by reflexivity.
  destruct moving_boxes_exported as [HP HC].
  split; [split_and!; [apply Hf|apply Hf|lia|lia|lia|exact HP|exact HC|exact Hdiv]|].
  exact (interpolated_row_exact moving_P moving_C 0 1 1 2 Hf ltac:(lia) ltac:(lia)
           ltac:(lia) HP HC Hdiv).
Defined.

Lemma stationary_box_witness :
  seq_frame resting_P < 1 < seq_frame resting_C
  ∧ ∃ values,
      dict_get 1 (linear_interpolation (normalize resting_P) (normalize resting_C) 0)
      = Some (0, dec_str <$> values)
      ∧ length values = 4%nat
      ∧ ∀ i b v, coords (normalize resting_P) !! i = Some b →
                 coords (normalize resting_C) !! i = Some b →
                 values !! i = Some v → (dec_Q v == dec_Q b)%Q.
Proof.
  assert (Hf : seq_frame resting_P < 1 < seq_frame resting_C) by (simpl; lia).
  split; [exact Hf|].
  exact (stationary_box resting_P resting_C 0 1 Hf).
Defined.

Lemma video_paths_witness :
  replace_videos demo_env None demo_entries = Raise TypeError
  ∧ (∃ entries', replace_videos demo_env (Some "videos"%string) demo_entries = Ok entries'
                 ∧ Forall2 (replaced demo_env "videos") demo_entries entries')
  ∧ has_slash (basename "/data/upload/1/clip.mp4") = false.
Proof.
  destruct (video_paths demo_env) as (Hnone & Hsome & Hbase).
  split; [|split].
  - apply (Hnone demo_entries (mkEntry (Some "/data/upload/1/clip.mp4"%string) []));
      [apply list_elem_of_here|by eexists].
  - exact (Hsome "videos"%string demo_entries).
  - exact (proj1 (Hbase "/data/upload/1/clip.mp4"%string)).
Defined.

Lemma names_same_length_witness :
  (frames_nonneg (box demo_video) ∧ 0 ≤ 0
   ∧ ("frame_2.txt"%string ∈ (labels_out (main demo_env demo_video 0 ["ball"%string])).*1
      ∨ "frame_2.txt"%string ∈ images_out (main demo_env demo_video 0 ["ball"%string])))
  ∧ String.length "frame_2.txt" = 11%nat.
Proof.
  assert (Hname : "frame_2.txt"%string
                    ∈ (labels_out (main demo_env demo_video 0 ["ball"%string])).*1
                  ∨ "frame_2.txt"%string
                    ∈ images_out (main demo_env demo_video 0 ["ball"%string])).
  { left. apply (bool_decide_unpack _). vm_compute. exact I. }
  split; [split_and!; [exact demo_frames_nonneg|lia|exact Hname]|].
  destruct (prepare demo_video ["ball"%string]) as [[[avail fd] mf]|] eqn:Hprep;
    [|vm_compute in Hprep; discriminate].
  assert (Hmf : mf = 4).
  { vm_compute in Hprep. injection Hprep as <- <- <-. reflexivity. }
  subst mf.
  exact (names_same_length demo_env demo_video 0 ["ball"%string] avail fd 4
           "frame_2.txt"%string Hprep demo_frames_nonneg (Z.le_refl 0)
           (le_n _) Hname).
Defined.

Lemma class_indices_witness :
  (extract_labels bundle1 = Ok ["ball"; "refA"; "teamB"]%string
   ∧ calls (run demo_env bundle1) !! 0%nat
     = Some (0, main demo_env (mkVideo "a.mp4" [labelled "teamB"; labelled "ball"]) 0
                  ["ball"; "refA"; "teamB"]%string)
   ∧ ("frame_1.txt"%string,
      [(2, ["0.25"; "0.4"; "0.3"; "0.4"]%string); (0, ["0.25"; "0.4"; "0.3"; "0.4"]%string)])
       ∈ labels_out (main demo_env (mkVideo "a.mp4" [labelled "teamB"; labelled "ball"]) 0
                       ["ball"; "refA"; "teamB"]%string))
  ∧ ∃ v s l, bundle1 !! 0%nat = Some v
             ∧ main demo_env (mkVideo "a.mp4" [labelled "teamB"; labelled "ball"]) 0
                 ["ball"; "refA"; "teamB"]%string
               = main demo_env v 0 ["ball"; "refA"; "teamB"]%string
             ∧ s ∈ box v ∧ subject_labels s = [l]
             ∧ 0 ≤ 2 ∧ ["ball"; "refA"; "teamB"]%string !! Z.to_nat 2 = Some l.
Proof.
  assert (Hex : extract_labels bundle1 = Ok ["ball"; "refA"; "teamB"]%string)
    by (vm_compute; reflexivity).
  assert (Hcall : calls (run demo_env bundle1) !! 0%nat
                  = Some (0, main demo_env
                               (mkVideo "a.mp4" [labelled "teamB"; labelled "ball"]) 0
                               ["ball"; "refA"; "teamB"]%string))
    by (vm_compute; reflexivity).
  assert (Hin : ("frame_1.txt"%string,
                 [(2, ["0.25"; "0.4"; "0.3"; "0.4"]%string);
                  (0, ["0.25"; "0.4"; "0.3"; "0.4"]%string)])
                  ∈ labels_out (main demo_env
                                  (mkVideo "a.mp4" [labelled "teamB"; labelled "ball"]) 0
                                  ["ball"; "refA"; "teamB"]%string)).
  { vm_compute. apply list_elem_of_here. }
  split; [split_and!; [exact Hex|exact Hcall|exact Hin]|].
  exact (proj1 (class_indices demo_env bundle1 ["ball"; "refA"; "teamB"]%string 0
                  (0, main demo_env (mkVideo "a.mp4" [labelled "teamB"; labelled "ball"]) 0
                        ["ball"; "refA"; "teamB"]%string)
                  "frame_1.txt"%string
                  [(2, ["0.25"; "0.4"; "0.3"; "0.4"]%string);
                   (0, ["0.25"; "0.4"; "0.3"; "0.4"]%string)]
                  (2, ["0.25"; "0.4"; "0.3"; "0.4"]%string)
                  Hex Hcall Hin (list_elem_of_here _ _))).
Defined.
